(** * go-graphql: the AST model and its visitor

    A shallow embedding of [model/interface.go], [model/types.go] and
    [visitor/visitor.go], and the properties of the traversal protocol
    (enter/leave callbacks, pruning, error propagation). *)

From Stdlib Require Import List String Bool Arith ZArith Lia.
Import ListNotations.
Open Scope string_scope.
Open Scope list_scope.

Set Implicit Arguments.

(* ================================================================== *)
(** * The AST model (package [model]) *)
(* ================================================================== *)

Module model.

(** [type namedType struct { kindComponent; nullable; nameComponent }] *)
Record NamedType := mkNamedType {
  nt_nullable : bool;
  nt_name : string
}.

(** [Type] is satisfied by [namedType] and [ListType]. *)
Inductive Type_ :=
| TypeNamed (t : NamedType)
| TypeList (nullable : bool) (typ : Type_).

(** [NewNamedType]: nullable unless marked otherwise. *)
Definition NewNamedType (name : string) : NamedType :=
  {| nt_nullable := true; nt_name := name |}.

Definition NewListType (t : Type_) : Type_ := TypeList true t.

(** [Value]: a float64 is kept as its 64-bit pattern. *)
Inductive Value :=
| Variable_ (name : string)
| IntValue (value : Z)
| FloatValue (bits : Z)
| StringValue (value : string)
| BoolValue (value : bool)
| NullValue
| EnumValue (name : string)
| ObjectValue (fields : list ObjectField)
with ObjectField :=
| mkObjectField (name : string) (value : Value).

Record Argument := mkArgument {
  arg_Name : string;
  arg_Value : Value
}.

Record Directive := mkDirective {
  dir_Name : string;
  dir_Arguments : list Argument
}.

Record VariableDefinition := mkVariableDefinition {
  var_Name : string;
  var_Type : Type_;
  var_DefaultValue : option Value
}.

Record FragmentSpread := mkFragmentSpread {
  spread_Name : string;
  spread_Directives : list Directive
}.

(** [Selection] is [interface{}]: besides the three selection kinds a
    value of any other dynamic type fits; [SelOther] carries the name
    that [%T] prints for it. *)
Inductive Selection :=
| SelField (f : SelectionField)
| SelSpread (f : FragmentSpread)
| SelInline (f : InlineFragment)
| SelOther (dyn : string)
with SelectionField :=
| mkSelectionField (name : string) (hasAlias : bool) (alias : string)
    (arguments : list Argument) (directives : list Directive)
    (selections : list Selection)
with InlineFragment :=
| mkInlineFragment (directives : list Directive)
    (selections : list Selection) (typ : option NamedType).

Definition field_Name (f : SelectionField) : string :=
  match f with mkSelectionField n _ _ _ _ _ => n end.
Definition field_Directives (f : SelectionField) : list Directive :=
  match f with mkSelectionField _ _ _ _ d _ => d end.
Definition field_Selections (f : SelectionField) : list Selection :=
  match f with mkSelectionField _ _ _ _ _ s => s end.
Definition inline_Directives (f : InlineFragment) : list Directive :=
  match f with mkInlineFragment d _ _ => d end.
Definition inline_Selections (f : InlineFragment) : list Selection :=
  match f with mkInlineFragment _ s _ => s end.

Inductive OperationType := OperationTypeQuery | OperationTypeMutation.

Definition OperationType_string (t : OperationType) : string :=
  match t with
  | OperationTypeQuery => "query"
  | OperationTypeMutation => "mutation"
  end.

Record OperationDefinition := mkOperationDefinition {
  op_OperationType : OperationType;
  op_HasName : bool;
  op_Name : string;
  op_Variables : list VariableDefinition;
  op_Directives : list Directive;
  op_Selections : list Selection
}.

Record FragmentDefinition := mkFragmentDefinition {
  frag_Name : string;
  frag_Type : Type_;
  frag_Directives : list Directive;
  frag_Selections : list Selection
}.

Record ObjectFieldArgumentDefinition := mkObjectFieldArgumentDefinition {
  ofarg_Name : string;
  ofarg_Type : Type_;
  ofarg_DefaultValue : option Value
}.

Record ObjectFieldDefinition := mkObjectFieldDefinition {
  ofield_Name : string;
  ofield_Type : Type_;
  ofield_Arguments : list ObjectFieldArgumentDefinition
}.

Record ObjectDefinition := mkObjectDefinition {
  obj_nullable : bool;
  obj_Name : string;
  obj_Fields : list ObjectFieldDefinition;
  obj_HasImplements : bool;
  obj_Implements : option NamedType
}.

Record EnumElementDefinition := mkEnumElementDefinition {
  elem_Name : string;
  elem_Value : Value
}.

Record EnumDefinition := mkEnumDefinition {
  enum_nullable : bool;
  enum_Name : string;
  enum_Elements : list EnumElementDefinition
}.

Record InterfaceFieldDefinition := mkInterfaceFieldDefinition {
  ifield_Name : string;
  ifield_Type : Type_
}.

Record InterfaceDefinition := mkInterfaceDefinition {
  iface_nullable : bool;
  iface_Name : string;
  iface_Fields : list InterfaceFieldDefinition
}.

Record UnionDefinition := mkUnionDefinition {
  union_Name : string;
  union_Types : list Type_
}.

Record InputFieldDefinition := mkInputFieldDefinition {
  infield_Name : string;
  infield_Type : option Type_
}.

Record InputDefinition := mkInputDefinition {
  input_Name : string;
  input_Fields : list InputFieldDefinition
}.

(** [Definition] is [interface{}] too: [DefOther] stands for a value of
    any other dynamic type (the nil interface included). *)
Inductive Definition_ :=
| DefOperation (d : OperationDefinition)
| DefFragment (d : FragmentDefinition)
| DefObject (d : ObjectDefinition)
| DefInterface (d : InterfaceDefinition)
| DefEnum (d : EnumDefinition)
| DefUnion (d : UnionDefinition)
| DefInput (d : InputDefinition)
| DefOther (dyn : string).

Record Document := mkDocument {
  doc_Definitions : list Definition_;
  doc_types : list Type_
}.

(** [type Schema struct { query ObjectDefinition; types ObjectDefinitionList }]:
    [query] is nil until [SetQuery] is called. *)
Record Schema := mkSchema {
  schema_Query : option ObjectDefinition;
  schema_Types : list ObjectDefinition
}.

Definition NewSchema : Schema :=
  {| schema_Query := None; schema_Types := [] |}.

Definition SetQuery (s : Schema) (q : ObjectDefinition) : Schema :=
  {| schema_Query := Some q; schema_Types := schema_Types s |}.

Definition AddTypes (s : Schema) (l : list ObjectDefinition) : Schema :=
  {| schema_Query := schema_Query s; schema_Types := schema_Types s ++ l |}.

Definition NewObjectDefinition (name : string) : ObjectDefinition :=
  {| obj_nullable := true; obj_Name := name; obj_Fields := [];
     obj_HasImplements := false; obj_Implements := None |}.

Definition NewObjectFieldDefinition (name : string) (typ : Type_)
  : ObjectFieldDefinition :=
  {| ofield_Name := name; ofield_Type := typ; ofield_Arguments := [] |}.

Definition obj_AddFields (t : ObjectDefinition)
    (l : list ObjectFieldDefinition) : ObjectDefinition :=
  {| obj_nullable := obj_nullable t; obj_Name := obj_Name t;
     obj_Fields := obj_Fields t ++ l;
     obj_HasImplements := obj_HasImplements t;
     obj_Implements := obj_Implements t |}.

Definition NewInputDefinition (name : string) : InputDefinition :=
  {| input_Name := name; input_Fields := [] |}.

Definition NewInputFieldDefinition (name : string) : InputFieldDefinition :=
  {| infield_Name := name; infield_Type := None |}.

Definition input_AddFields (def : InputDefinition)
    (l : list InputFieldDefinition) : InputDefinition :=
  {| input_Name := input_Name def; input_Fields := input_Fields def ++ l |}.

End model.
Import model.

(* ================================================================== *)
(** * Errors *)
(* ================================================================== *)

(** An error value implementing [Pruner]. *)
Record Pruner := mkPruner {
  Prune : bool;
  pruner_Error : string
}.

(** The error values the walk sees: a plain error ([errors.Errorf], or
    any caller error that is not a [Pruner]), an error implementing
    [Pruner], and [errors.Wrap err msg], which keeps [err] as its cause
    and is not itself a [Pruner]. *)
Inductive error :=
| ErrorString (msg : string)
| PruneSignal (p : Pruner)
| Wrap (err : error) (msg : string).

Definition isPruneError (err : error) : option Pruner :=
  match err with
  | PruneSignal p => Some p
  | _ => None
  end.

(** [errors.Cause]: the innermost wrapped error. *)
Fixpoint Cause (err : error) : error :=
  match err with
  | Wrap e _ => Cause e
  | _ => err
  end.

(** [wraps e err]: [err] is [e] under one or more [errors.Wrap]. *)
Inductive wraps (e : error) : error -> Prop :=
| wraps_once msg : wraps e (Wrap e msg)
| wraps_more err msg : wraps e err -> wraps e (Wrap err msg).

(* ================================================================== *)
(** * Callback invocations *)
(* ================================================================== *)

(** One constructor per field of [Handler]. *)
Inductive Hook :=
| H_EnterSchema | H_LeaveSchema
| H_EnterDocument
| H_EnterDefinitionList | H_LeaveDefinitionList
| H_EnterDefinition
| H_EnterDirectiveList
| H_EnterDirective
| H_EnterOperationDefinition
| H_EnterFragmentDefinition
| H_EnterObjectDefinition
| H_EnterObjectFieldDefinitionList | H_LeaveObjectFieldDefinitionList
| H_EnterObjectFieldDefinition
| H_EnterInterfaceDefinition
| H_EnterInterfaceFieldDefinition
| H_EnterEnumDefinition
| H_EnterUnionDefinition
| H_EnterInputDefinition
| H_EnterInputFieldDefinitionList
| H_EnterInputFieldDefinition
| H_EnterSelectionList
| H_EnterSelection
| H_EnterSelectionField
| H_EnterFragmentSpread
| H_EnterInlineFragment
| H_EnterSchemaQuery | H_LeaveSchemaQuery
| H_LeaveDocument
| H_LeaveDefinition
| H_LeaveDirectiveList
| H_LeaveDirective
| H_LeaveOperationDefinition
| H_LeaveFragmentDefinition
| H_LeaveObjectDefinition
| H_LeaveObjectFieldDefinition
| H_LeaveInterfaceDefinition
| H_LeaveInterfaceFieldDefinition
| H_LeaveEnumDefinition
| H_LeaveUnionDefinition
| H_LeaveInputDefinition
| H_LeaveInputFieldDefinitionList
| H_LeaveInputFieldDefinition
| H_LeaveSelectionList
| H_LeaveSelection
| H_LeaveSelectionField
| H_LeaveFragmentSpread
| H_LeaveInlineFragment.

Definition Hook_eq_dec (a b : Hook) : {a = b} + {a <> b}.
Proof. decide equality. Defined.

Definition Hook_eqb (a b : Hook) : bool :=
  if Hook_eq_dec a b then true else false.

(** The node a callback is handed; list callbacks get none. *)
Inductive Node :=
| NoNode
| NSchema (v : Schema)
| NDocument (v : Document)
| NDefinition (v : Definition_)
| NDirective (v : Directive)
| NOperationDefinition (v : OperationDefinition)
| NFragmentDefinition (v : FragmentDefinition)
| NObjectDefinition (v : ObjectDefinition)
| NObjectFieldDefinition (v : ObjectFieldDefinition)
| NInterfaceDefinition (v : InterfaceDefinition)
| NInterfaceFieldDefinition (v : InterfaceFieldDefinition)
| NEnumDefinition (v : EnumDefinition)
| NUnionDefinition (v : UnionDefinition)
| NInputDefinition (v : InputDefinition)
| NInputFieldDefinition (v : InputFieldDefinition)
| NSelection (v : Selection)
| NSelectionField (v : SelectionField)
| NFragmentSpread (v : FragmentSpread)
| NInlineFragment (v : InlineFragment).

(** The record of one callback invocation: which handler field was
    called, on which node, and what it returned. *)
Record Event := mkEvent {
  ev_hook : Hook;
  ev_node : Node;
  ev_result : option error
}.

(* ================================================================== *)
(** * The walk (package [visitor]) *)
(* ================================================================== *)

(** What a visiting function hands back besides the callbacks' state:
    a value, or the non-nil error it returns. *)
Inductive result (A : Type) :=
| Ok (a : A)
| Failed (err : error).
Arguments Ok {A} a.
Arguments Failed {A} err.

(** The Go [error] a visiting function returns. *)
Definition returned (r : result unit) : option error :=
  match r with
  | Ok _ => None
  | Failed err => Some err
  end.

Section Visitor.

(** [Ctx] is [context.Context]; [S] is whatever the caller's callbacks
    read and write. *)
Variables Ctx S : Type.
Variable ctx : Ctx.

(** A computation of the walk threads the callbacks' state and lists
    the callback invocations it made, oldest first. *)
Definition Walk (A : Type) : Type := S -> S * list Event * result A.

Definition ret {A} (a : A) : Walk A := fun s => (s, [], Ok a).

Definition fail {A} (err : error) : Walk A := fun s => (s, [], Failed err).

Definition bind {A B} (m : Walk A) (f : A -> Walk B) : Walk B :=
  fun s =>
    match m s with
    | (s1, evs1, Ok a) =>
        match f a s1 with
        | (s2, evs2, r) => (s2, evs1 ++ evs2, r)
        end
    | (s1, evs1, Failed err) => (s1, evs1, Failed err)
    end.

Notation "x <- m ;; k" := (bind m (fun x => k))
  (at level 61, m at next level, right associativity).
Notation "m ;; k" := (bind m (fun _ => k))
  (at level 61, right associativity).

(** [if err := m; err != nil { return errors.Wrap(err, msg) }] *)
Definition wrap (m : Walk unit) (msg : string) : Walk unit :=
  fun s =>
    match m s with
    | (s1, evs, Failed err) => (s1, evs, Failed (Wrap err msg))
    | r => r
    end.

(** [if !prune { m }] *)
Definition unless (prune : bool) (m : Walk unit) : Walk unit :=
  if prune then ret tt else m.

(** [for e := range ch { if err := visit(e); err != nil { return
    errors.Wrap(err, msg) } }] over a channel that was filled and closed
    before the loop starts. *)
Definition forEach {A} (visit : A -> Walk unit) (msg : string)
  : list A -> Walk unit :=
  fix loop (ch : list A) : Walk unit :=
    match ch with
    | [] => ret tt
    | e :: rest => wrap (visit e) msg ;; loop rest
    end.

Definition callback (A : Type) : Type := Ctx -> A -> S -> S * option error.
Definition listCallback : Type := Ctx -> S -> S * option error.

Record Handler := mkHandler {
  EnterSchema : option (callback Schema);
  LeaveSchema : option (callback Schema);
  EnterDocument : option (callback Document);
  EnterDefinitionList : option listCallback;
  LeaveDefinitionList : option listCallback;
  EnterDefinition : option (callback Definition_);
  EnterDirectiveList : option listCallback;
  EnterDirective : option (callback Directive);
  EnterOperationDefinition : option (callback OperationDefinition);
  EnterFragmentDefinition : option (callback FragmentDefinition);
  EnterObjectDefinition : option (callback ObjectDefinition);
  EnterObjectFieldDefinitionList : option listCallback;
  LeaveObjectFieldDefinitionList : option listCallback;
  EnterObjectFieldDefinition : option (callback ObjectFieldDefinition);
  EnterInterfaceDefinition : option (callback InterfaceDefinition);
  EnterInterfaceFieldDefinition : option (callback InterfaceFieldDefinition);
  EnterEnumDefinition : option (callback EnumDefinition);
  EnterUnionDefinition : option (callback UnionDefinition);
  EnterInputDefinition : option (callback InputDefinition);
  EnterInputFieldDefinitionList : option listCallback;
  EnterInputFieldDefinition : option (callback InputFieldDefinition);
  EnterSelectionList : option listCallback;
  EnterSelection : option (callback Selection);
  EnterSelectionField : option (callback SelectionField);
  EnterFragmentSpread : option (callback FragmentSpread);
  EnterInlineFragment : option (callback InlineFragment);
  EnterSchemaQuery : option (callback ObjectDefinition);
  LeaveSchemaQuery : option (callback ObjectDefinition);
  LeaveDocument : option (callback Document);
  LeaveDefinition : option (callback Definition_);
  LeaveDirectiveList : option listCallback;
  LeaveDirective : option (callback Directive);
  LeaveOperationDefinition : option (callback OperationDefinition);
  LeaveFragmentDefinition : option (callback FragmentDefinition);
  LeaveObjectDefinition : option (callback ObjectDefinition);
  LeaveObjectFieldDefinition : option (callback ObjectFieldDefinition);
  LeaveInterfaceDefinition : option (callback InterfaceDefinition);
  LeaveInterfaceFieldDefinition : option (callback InterfaceFieldDefinition);
  LeaveEnumDefinition : option (callback EnumDefinition);
  LeaveUnionDefinition : option (callback UnionDefinition);
  LeaveInputDefinition : option (callback InputDefinition);
  LeaveInputFieldDefinitionList : option listCallback;
  LeaveInputFieldDefinition : option (callback InputFieldDefinition);
  LeaveSelectionList : option listCallback;
  LeaveSelection : option (callback Selection);
  LeaveSelectionField : option (callback SelectionField);
  LeaveFragmentSpread : option (callback FragmentSpread);
  LeaveInlineFragment : option (callback InlineFragment)
}.

(** [hfunc(ctx, v)], recorded. *)
Definition invoke {A} (hk : Hook) (node : A -> Node) (hfunc : callback A)
    (v : A) : Walk (option error) :=
  fun s =>
    match hfunc ctx v s with
    | (s1, err) =>
        (s1, [{| ev_hook := hk; ev_node := node v; ev_result := err |}],
         Ok err)
    end.

(** The opening of a node that honours pruning:
[[
  var prune bool
  if hfunc := h.EnterX; hfunc != nil {
    if err := hfunc(ctx, v); err != nil {
      if perr, ok := isPruneError(err); ok {
        prune = perr.Prune()
      } else {
        return errors.Wrap(err, msg)
      }
    }
  }
]] *)
Definition enterPrunable {A} (hk : Hook) (node : A -> Node)
    (h : option (callback A)) (v : A) (msg : string) : Walk bool :=
  match h with
  | None => ret false
  | Some hfunc =>
      err <- invoke hk node hfunc v ;;
      match err with
      | None => ret false
      | Some e =>
          match isPruneError e with
          | Some perr => ret (Prune perr)
          | None => fail (Wrap e msg)
          end
      end
  end.

(** Every other callback site:
[[
  if hfunc := h.X; hfunc != nil {
    if err := hfunc(ctx, v); err != nil {
      return errors.Wrap(err, msg)
    }
  }
]] *)
Definition call {A} (hk : Hook) (node : A -> Node)
    (h : option (callback A)) (v : A) (msg : string) : Walk unit :=
  match h with
  | None => ret tt
  | Some hfunc =>
      err <- invoke hk node hfunc v ;;
      match err with
      | None => ret tt
      | Some e => fail (Wrap e msg)
      end
  end.

(** A list callback takes the context only. *)
Definition onList (h : option listCallback) : option (callback unit) :=
  match h with
  | None => None
  | Some hfunc => Some (fun c (_ : unit) => hfunc c)
  end.

Definition callList (hk : Hook) (h : option listCallback) (msg : string)
  : Walk unit :=
  call hk (fun _ => NoNode) (onList h) tt msg.

Definition enterPrunableList (hk : Hook) (h : option listCallback)
    (msg : string) : Walk bool :=
  enterPrunable hk (fun _ => NoNode) (onList h) tt msg.

Variable h : Handler.

Definition visitDirective (v : Directive) : Walk unit :=
  call H_EnterDirective NDirective (EnterDirective h) v
    "failed to visit directive (enter)" ;;
  call H_LeaveDirective NDirective (LeaveDirective h) v
    "failed to visit directive (leave)".

Definition visitDirectiveList (ch : list Directive) : Walk unit :=
  if (List.length ch =? 0)%nat then ret tt else
  callList H_EnterDirectiveList (EnterDirectiveList h)
    "failed to visit directive list (enter)" ;;
  forEach visitDirective "failed to visit directive" ch ;;
  callList H_LeaveDirectiveList (LeaveDirectiveList h)
    "failed to visit directive list (leave)".

Definition visitFragmentSpread (v : FragmentSpread) : Walk unit :=
  call H_EnterFragmentSpread NFragmentSpread (EnterFragmentSpread h) v
    "failed to visit fragment spread (enter)" ;;
  call H_LeaveFragmentSpread NFragmentSpread (LeaveFragmentSpread h) v
    "failed to visit fragment spread (leave)".

(** [visitSelectionList], over the function that visits one selection
    (the four functions below call each other). *)
Definition visitSelectionListWith (visitSelection : Selection -> Walk unit)
    (ch : list Selection) : Walk unit :=
  if (List.length ch =? 0)%nat then ret tt else
  callList H_EnterSelectionList (EnterSelectionList h)
    "failed to handle selection list (enter)" ;;
  forEach visitSelection "failed to visit selection" ch ;;
  callList H_LeaveSelectionList (LeaveSelectionList h)
    "failed to handle selection list (leave)".

Fixpoint visitSelection (v : Selection) : Walk unit :=
  prune <- enterPrunable H_EnterSelection NSelection (EnterSelection h) v
    "failed to visit selection (enter)" ;;
  unless prune
    match v with
    | SelField f =>
        wrap (visitSelectionField f) "failed to visit selection field"
    | SelSpread f =>
        wrap (visitFragmentSpread f) "failed to visit fragment spread"
    | SelInline f =>
        wrap (visitInlineFragment f) "failed to visit inline fragment"
    | SelOther dyn => fail (ErrorString ("invalid selection type " ++ dyn))
    end ;;
  call H_LeaveSelection NSelection (LeaveSelection h) v
    "failed to visit selection (leave)"

with visitSelectionField (v : SelectionField) : Walk unit :=
  match v with
  | mkSelectionField _ _ _ _ directives selections =>
      prune <- enterPrunable H_EnterSelectionField NSelectionField
        (EnterSelectionField h) v
        "failed to visit selection field (enter)" ;;
      unless prune
        (wrap (visitDirectiveList directives)
           "failed to visit directive list" ;;
         wrap (visitSelectionListWith visitSelection selections)
           "failed to visit selection list") ;;
      call H_LeaveSelectionField NSelectionField (LeaveSelectionField h) v
        "failed to visit selection field (leave)"
  end

with visitInlineFragment (v : InlineFragment) : Walk unit :=
  match v with
  | mkInlineFragment directives selections _ =>
      prune <- enterPrunable H_EnterInlineFragment NInlineFragment
        (EnterInlineFragment h) v
        "failed to visit inline fragment (enter)" ;;
      unless prune
        (wrap (visitDirectiveList directives)
           "failed to visit directive list" ;;
         wrap (visitSelectionListWith visitSelection selections)
           "failed to visit selection list") ;;
      call H_LeaveInlineFragment NInlineFragment (LeaveInlineFragment h) v
        "failed to visit inline fragment (leave)"
  end.

Definition visitSelectionList (ch : list Selection) : Walk unit :=
  visitSelectionListWith visitSelection ch.

Definition visitOperationDefinition (v : OperationDefinition) : Walk unit :=
  prune <- enterPrunable H_EnterOperationDefinition NOperationDefinition
    (EnterOperationDefinition h) v
    "failed to visit operation definition (enter)" ;;
  unless prune
    (wrap (visitSelectionList (op_Selections v))
       "failed to visit selection list") ;;
  call H_LeaveOperationDefinition NOperationDefinition
    (LeaveOperationDefinition h) v
    "failed to visit operation definition (leave)".

Definition visitFragmentDefinition (v : FragmentDefinition) : Walk unit :=
  prune <- enterPrunable H_EnterFragmentDefinition NFragmentDefinition
    (EnterFragmentDefinition h) v
    "failed to visit fragment definition (enter)" ;;
  unless prune
    (wrap (visitDirectiveList (frag_Directives v))
       "failed to visit directive list" ;;
     wrap (visitSelectionList (frag_Selections v))
       "failed to visit selection list") ;;
  call H_LeaveFragmentDefinition NFragmentDefinition
    (LeaveFragmentDefinition h) v
    "failed to visit fragment definition (leave)".

Definition visitObjectFieldDefinition (v : ObjectFieldDefinition)
  : Walk unit :=
  call H_EnterObjectFieldDefinition NObjectFieldDefinition
    (EnterObjectFieldDefinition h) v
    "failed to visit object field definition (enter)" ;;
  call H_LeaveObjectFieldDefinition NObjectFieldDefinition
    (LeaveObjectFieldDefinition h) v
    "failed to visit object field definition (leave)".

Definition visitObjectFieldDefinitionList (ch : list ObjectFieldDefinition)
  : Walk unit :=
  if (List.length ch =? 0)%nat then ret tt else
  callList H_EnterObjectFieldDefinitionList
    (EnterObjectFieldDefinitionList h)
    "failed to visit object field definition list (enter)" ;;
  forEach visitObjectFieldDefinition
    "failed to visit object field definition" ch ;;
  callList H_LeaveObjectFieldDefinitionList
    (LeaveObjectFieldDefinitionList h)
    "failed to visit object field definition list (leave)".

Definition visitObjectDefinition (v : ObjectDefinition) : Walk unit :=
  prune <- enterPrunable H_EnterObjectDefinition NObjectDefinition
    (EnterObjectDefinition h) v
    "failed to visit object definition (enter)" ;;
  unless prune
    (wrap (visitObjectFieldDefinitionList (obj_Fields v))
       "failed to visit object definition list") ;;
  call H_LeaveObjectDefinition NObjectDefinition (LeaveObjectDefinition h) v
    "failed to visit object definition (leave)".

(** Not called by any other function of the package. *)
Definition visitSchemaQuery (v : ObjectDefinition) : Walk unit :=
  prune <- enterPrunable H_EnterSchemaQuery NObjectDefinition
    (EnterSchemaQuery h) v
    "failed to visit schema query (enter)" ;;
  unless prune
    (wrap (visitObjectFieldDefinitionList (obj_Fields v))
       "failed to visit object definition list") ;;
  call H_LeaveSchemaQuery NObjectDefinition (LeaveSchemaQuery h) v
    "failed to visit schema query (leave)".

Definition visitInterfaceFieldDefinition (v : InterfaceFieldDefinition)
  : Walk unit :=
  call H_EnterInterfaceFieldDefinition NInterfaceFieldDefinition
    (EnterInterfaceFieldDefinition h) v
    "failed to visit interface field definition (enter)" ;;
  call H_LeaveInterfaceFieldDefinition NInterfaceFieldDefinition
    (LeaveInterfaceFieldDefinition h) v
    "failed to visit interface field definition (leave)".

Definition visitInterfaceDefinition (v : InterfaceDefinition) : Walk unit :=
  prune <- enterPrunable H_EnterInterfaceDefinition NInterfaceDefinition
    (EnterInterfaceDefinition h) v
    "failed to visit interface definition (enter)" ;;
  unless prune
    (forEach visitInterfaceFieldDefinition
       "failed to visit interface field definition" (iface_Fields v)) ;;
  call H_LeaveInterfaceDefinition NInterfaceDefinition
    (LeaveInterfaceDefinition h) v
    "failed to visit interface definition (leave)".

Definition visitEnumDefinition (v : EnumDefinition) : Walk unit :=
  call H_EnterEnumDefinition NEnumDefinition (EnterEnumDefinition h) v
    "failed to visit enum definition (enter)" ;;
  call H_LeaveEnumDefinition NEnumDefinition (LeaveEnumDefinition h) v
    "failed to visit enum definition (leave)".

Definition visitUnionDefinition (v : UnionDefinition) : Walk unit :=
  call H_EnterUnionDefinition NUnionDefinition (EnterUnionDefinition h) v
    "failed to visit union definition (enter)" ;;
  call H_LeaveUnionDefinition NUnionDefinition (LeaveUnionDefinition h) v
    "failed to visit union definition (leave)".

Definition visitInputFieldDefinition (v : InputFieldDefinition)
  : Walk unit :=
  call H_EnterInputFieldDefinition NInputFieldDefinition
    (EnterInputFieldDefinition h) v
    "failed to visit input field definition (enter)" ;;
  call H_LeaveInputFieldDefinition NInputFieldDefinition
    (LeaveInputFieldDefinition h) v
    "failed to visit input field definition (leave)".

(** As written: no test of [len(ch)], the opening callback may prune,
    and the closing site reads [h.EnterInputFieldDefinitionList] again. *)
Definition visitInputFieldDefinitionList (ch : list InputFieldDefinition)
  : Walk unit :=
  prune <- enterPrunableList H_EnterInputFieldDefinitionList
    (EnterInputFieldDefinitionList h)
    "failed to visit input field definition list (enter)" ;;
  unless prune
    (forEach visitInputFieldDefinition
       "failed to visit input field definition" ch) ;;
  callList H_EnterInputFieldDefinitionList
    (EnterInputFieldDefinitionList h)
    "failed to visit input field definition list (enter)".

Definition visitInputDefinition (v : InputDefinition) : Walk unit :=
  prune <- enterPrunable H_EnterInputDefinition NInputDefinition
    (EnterInputDefinition h) v
    "failed to visit input definition (enter)" ;;
  unless prune
    (wrap (visitInputFieldDefinitionList (input_Fields v))
       "failed to visit input field definition list") ;;
  call H_LeaveInputDefinition NInputDefinition (LeaveInputDefinition h) v
    "failed to visit input definition (leave)".

Definition visitDefinition (v : Definition_) : Walk unit :=
  prune <- enterPrunable H_EnterDefinition NDefinition (EnterDefinition h) v
    "failed to visit definition (enter)" ;;
  unless prune
    match v with
    | DefOperation d =>
        wrap (visitOperationDefinition d)
          "failed to visit operation definition"
    | DefFragment d =>
        wrap (visitFragmentDefinition d)
          "failed to visit fragment definition"
    | DefObject d =>
        wrap (visitObjectDefinition d)
          "failed to visit object type definition"
    | DefInterface d =>
        wrap (visitInterfaceDefinition d)
          "failed to visit object type definition"
    | DefEnum d =>
        wrap (visitEnumDefinition d) "failed to visit enum definition"
    | DefUnion d =>
        wrap (visitUnionDefinition d) "failed to visit union definition"
    | DefInput d =>
        wrap (visitInputDefinition d) "failed to visit input definition"
    | DefOther dyn => fail (ErrorString ("unknown definition " ++ dyn))
    end ;;
  call H_LeaveDefinition NDefinition (LeaveDefinition h) v
    "failed to visit definition (leave)".

Definition visitDefinitionList (ch : list Definition_) : Walk unit :=
  if (List.length ch =? 0)%nat then ret tt else
  callList H_EnterDefinitionList (EnterDefinitionList h)
    "failed to handle definition list (enter)" ;;
  forEach visitDefinition "failed to visit document definition" ch ;;
  callList H_LeaveDefinitionList (LeaveDefinitionList h)
    "failed to handle definition list (leave)".

Definition visitDocument (v : Document) : Walk unit :=
  prune <- enterPrunable H_EnterDocument NDocument (EnterDocument h) v
    "failed to visit document (enter)" ;;
  unless prune
    (wrap (visitDefinitionList (doc_Definitions v))
       "failed to visit definition list") ;;
  call H_LeaveDocument NDocument (LeaveDocument h) v
    "failed to visit document (leave)".

(** [ch <- v.Query()]: the query as a [Definition]; a nil query is a
    value no case of [visitDefinition] matches. *)
Definition queryDefinition (v : Schema) : Definition_ :=
  match schema_Query v with
  | Some q => DefObject q
  | None => DefOther "<nil>"
  end.

(** The channel [visitSchema] fills: every type, then the query. *)
Definition schemaComponents (v : Schema) : list Definition_ :=
  map DefObject (schema_Types v) ++ [queryDefinition v].

Definition visitSchema (v : Schema) : Walk unit :=
  prune <- enterPrunable H_EnterSchema NSchema (EnterSchema h) v
    "failed to visit document (enter)" ;;
  unless prune
    (wrap (visitDefinitionList (schemaComponents v))
       "failed to visit schema component list") ;;
  call H_LeaveSchema NSchema (LeaveSchema h) v
    "failed to visit document (leave)".

(** The [interface{}] handed to [Visit]. *)
Inductive Root :=
| RootDocument (v : Document)
| RootSchema (v : Schema)
| RootOther (dyn : string).

Definition Visit (v : Root) : Walk unit :=
  match v with
  | RootDocument d => visitDocument d
  | RootSchema s => visitSchema s
  | RootOther dyn =>
      fail (ErrorString ("invalid input type for visit: " ++ dyn))
  end.

End Visitor.

(* ================================================================== *)
(** * Reading a walk *)
(* ================================================================== *)

Section Reading.

Variables S A : Type.

Definition final (x : S * list Event * result A) : S := fst (fst x).
Definition emitted (x : S * list Event * result A) : list Event :=
  snd (fst x).
Definition outcome (x : S * list Event * result A) : result A := snd x.

End Reading.

(** The callback returned an error that is not a [Pruner]. *)
Definition fatal (ev : Event) : Prop :=
  exists e, ev_result ev = Some e /\ isPruneError e = None.

(** The callback returned a [Pruner] whose [Prune()] is true. *)
Definition pruned (ev : Event) : bool :=
  match ev_result ev with
  | Some (PruneSignal p) => Prune p
  | _ => false
  end.

(** The nodes handed to the callback [hk], in invocation order. *)
Definition nodesOf (hk : Hook) (evs : list Event) : list Node :=
  map ev_node (filter (fun ev => Hook_eqb (ev_hook ev) hk) evs).

(** How many times the callback [hk] was invoked. *)
Definition timesCalled (hk : Hook) (evs : list Event) : nat :=
  List.length (nodesOf hk evs).

(** A walk that ran to its end, with no callback asking to prune. *)
Definition completes (S : Type) (x : S * list Event * result unit) : Prop :=
  outcome x = Ok tt /\ Forall (fun ev => pruned ev = false) (emitted x).

(** The selections of a tree in the order a full walk enters them:
    each selection, then its nested selections. *)
Fixpoint preorder (v : Selection) : list Selection :=
  v ::
  match v with
  | SelField (mkSelectionField _ _ _ _ _ selections) =>
      flat_map preorder selections
  | SelInline (mkInlineFragment _ selections _) =>
      flat_map preorder selections
  | _ => []
  end.

(** The callbacks [visitDirectiveList] can reach. *)
Definition directiveHooks : list Hook :=
  [H_EnterDirectiveList; H_LeaveDirectiveList;
   H_EnterDirective; H_LeaveDirective].

(** The callbacks [visitSelectionList] can reach. *)
Definition selectionHooks : list Hook :=
  [H_EnterSelectionList; H_LeaveSelectionList;
   H_EnterSelection; H_LeaveSelection;
   H_EnterSelectionField; H_LeaveSelectionField;
   H_EnterFragmentSpread; H_LeaveFragmentSpread;
   H_EnterInlineFragment; H_LeaveInlineFragment] ++ directiveHooks.

(** The callbacks [visitOperationDefinition] can reach. *)
Definition operationHooks : list Hook :=
  [H_EnterOperationDefinition; H_LeaveOperationDefinition]
  ++ selectionHooks.

(** The callbacks [visitObjectFieldDefinitionList] can reach. *)
Definition objectFieldHooks : list Hook :=
  [H_EnterObjectFieldDefinitionList; H_LeaveObjectFieldDefinitionList;
   H_EnterObjectFieldDefinition; H_LeaveObjectFieldDefinition].

(** The callbacks [visitObjectDefinition] can reach. *)
Definition objectHooks : list Hook :=
  [H_EnterObjectDefinition; H_LeaveObjectDefinition] ++ objectFieldHooks.

(** The callbacks the body of a definition can reach. *)
Definition definitionBodyHooks : list Hook :=
  operationHooks ++ objectHooks ++
  [H_EnterFragmentDefinition; H_LeaveFragmentDefinition;
   H_EnterInterfaceDefinition; H_LeaveInterfaceDefinition;
   H_EnterInterfaceFieldDefinition; H_LeaveInterfaceFieldDefinition;
   H_EnterEnumDefinition; H_LeaveEnumDefinition;
   H_EnterUnionDefinition; H_LeaveUnionDefinition;
   H_EnterInputDefinition; H_LeaveInputDefinition;
   H_EnterInputFieldDefinitionList;
   H_EnterInputFieldDefinition; H_LeaveInputFieldDefinition].

(** The callbacks [Visit] can reach. *)
Definition visitHooks : list Hook :=
  [H_EnterSchema; H_LeaveSchema; H_EnterDocument; H_LeaveDocument;
   H_EnterDefinitionList; H_LeaveDefinitionList;
   H_EnterDefinition; H_LeaveDefinition] ++ definitionBodyHooks.

(* ================================================================== *)
(** * A logging handler *)
(* ================================================================== *)

Definition hookPhase (hk : Hook) : string :=
  match hk with
  | H_EnterSchema => "enter"
  | H_LeaveSchema => "leave"
  | H_EnterDocument => "enter"
  | H_EnterDefinitionList => "enter"
  | H_LeaveDefinitionList => "leave"
  | H_EnterDefinition => "enter"
  | H_EnterDirectiveList => "enter"
  | H_EnterDirective => "enter"
  | H_EnterOperationDefinition => "enter"
  | H_EnterFragmentDefinition => "enter"
  | H_EnterObjectDefinition => "enter"
  | H_EnterObjectFieldDefinitionList => "enter"
  | H_LeaveObjectFieldDefinitionList => "leave"
  | H_EnterObjectFieldDefinition => "enter"
  | H_EnterInterfaceDefinition => "enter"
  | H_EnterInterfaceFieldDefinition => "enter"
  | H_EnterEnumDefinition => "enter"
  | H_EnterUnionDefinition => "enter"
  | H_EnterInputDefinition => "enter"
  | H_EnterInputFieldDefinitionList => "enter"
  | H_EnterInputFieldDefinition => "enter"
  | H_EnterSelectionList => "enter"
  | H_EnterSelection => "enter"
  | H_EnterSelectionField => "enter"
  | H_EnterFragmentSpread => "enter"
  | H_EnterInlineFragment => "enter"
  | H_EnterSchemaQuery => "enter"
  | H_LeaveSchemaQuery => "leave"
  | H_LeaveDocument => "leave"
  | H_LeaveDefinition => "leave"
  | H_LeaveDirectiveList => "leave"
  | H_LeaveDirective => "leave"
  | H_LeaveOperationDefinition => "leave"
  | H_LeaveFragmentDefinition => "leave"
  | H_LeaveObjectDefinition => "leave"
  | H_LeaveObjectFieldDefinition => "leave"
  | H_LeaveInterfaceDefinition => "leave"
  | H_LeaveInterfaceFieldDefinition => "leave"
  | H_LeaveEnumDefinition => "leave"
  | H_LeaveUnionDefinition => "leave"
  | H_LeaveInputDefinition => "leave"
  | H_LeaveInputFieldDefinitionList => "leave"
  | H_LeaveInputFieldDefinition => "leave"
  | H_LeaveSelectionList => "leave"
  | H_LeaveSelection => "leave"
  | H_LeaveSelectionField => "leave"
  | H_LeaveFragmentSpread => "leave"
  | H_LeaveInlineFragment => "leave"
  end.

Definition hookKind (hk : Hook) : string :=
  match hk with
  | H_EnterSchema => "Schema"
  | H_LeaveSchema => "Schema"
  | H_EnterDocument => "Document"
  | H_EnterDefinitionList => "DefinitionList"
  | H_LeaveDefinitionList => "DefinitionList"
  | H_EnterDefinition => "Definition"
  | H_EnterDirectiveList => "DirectiveList"
  | H_EnterDirective => "Directive"
  | H_EnterOperationDefinition => "OperationDefinition"
  | H_EnterFragmentDefinition => "FragmentDefinition"
  | H_EnterObjectDefinition => "ObjectDefinition"
  | H_EnterObjectFieldDefinitionList => "ObjectFieldDefinitionList"
  | H_LeaveObjectFieldDefinitionList => "ObjectFieldDefinitionList"
  | H_EnterObjectFieldDefinition => "ObjectFieldDefinition"
  | H_EnterInterfaceDefinition => "InterfaceDefinition"
  | H_EnterInterfaceFieldDefinition => "InterfaceFieldDefinition"
  | H_EnterEnumDefinition => "EnumDefinition"
  | H_EnterUnionDefinition => "UnionDefinition"
  | H_EnterInputDefinition => "InputDefinition"
  | H_EnterInputFieldDefinitionList => "InputFieldDefinitionList"
  | H_EnterInputFieldDefinition => "InputFieldDefinition"
  | H_EnterSelectionList => "SelectionList"
  | H_EnterSelection => "Selection"
  | H_EnterSelectionField => "SelectionField"
  | H_EnterFragmentSpread => "FragmentSpread"
  | H_EnterInlineFragment => "InlineFragment"
  | H_EnterSchemaQuery => "SchemaQuery"
  | H_LeaveSchemaQuery => "SchemaQuery"
  | H_LeaveDocument => "Document"
  | H_LeaveDefinition => "Definition"
  | H_LeaveDirectiveList => "DirectiveList"
  | H_LeaveDirective => "Directive"
  | H_LeaveOperationDefinition => "OperationDefinition"
  | H_LeaveFragmentDefinition => "FragmentDefinition"
  | H_LeaveObjectDefinition => "ObjectDefinition"
  | H_LeaveObjectFieldDefinition => "ObjectFieldDefinition"
  | H_LeaveInterfaceDefinition => "InterfaceDefinition"
  | H_LeaveInterfaceFieldDefinition => "InterfaceFieldDefinition"
  | H_LeaveEnumDefinition => "EnumDefinition"
  | H_LeaveUnionDefinition => "UnionDefinition"
  | H_LeaveInputDefinition => "InputDefinition"
  | H_LeaveInputFieldDefinitionList => "InputFieldDefinitionList"
  | H_LeaveInputFieldDefinition => "InputFieldDefinition"
  | H_LeaveSelectionList => "SelectionList"
  | H_LeaveSelection => "Selection"
  | H_LeaveSelectionField => "SelectionField"
  | H_LeaveFragmentSpread => "FragmentSpread"
  | H_LeaveInlineFragment => "InlineFragment"
  end.

(** [Name()] of the node, where its type has one; [Definition] and
    [Selection] are [interface{}] and have none. *)
Definition nodeName (n : Node) : string :=
  match n with
  | NDirective v => dir_Name v
  | NOperationDefinition v => op_Name v
  | NFragmentDefinition v => frag_Name v
  | NObjectDefinition v => obj_Name v
  | NObjectFieldDefinition v => ofield_Name v
  | NInterfaceDefinition v => iface_Name v
  | NInterfaceFieldDefinition v => ifield_Name v
  | NEnumDefinition v => enum_Name v
  | NUnionDefinition v => union_Name v
  | NInputDefinition v => input_Name v
  | NInputFieldDefinition v => infield_Name v
  | NSelectionField v => field_Name v
  | NFragmentSpread v => spread_Name v
  | _ => ""
  end.

(** A log line: enter or leave, the kind, the name. *)
Definition Entry : Type := string * string * string.

Section Probe.

(** Which callbacks are registered, and what each returns. *)
Variable registered : Hook -> bool.
Variable answer : Hook -> Node -> option error.

Definition probeNode {A} (hk : Hook) (node : A -> Node)
  : option (callback unit (list Entry) A) :=
  if registered hk then
    Some (fun _ v log =>
            (log ++ [(hookPhase hk, hookKind hk, nodeName (node v))],
             answer hk (node v)))
  else None.

Definition probeList (hk : Hook)
  : option (listCallback unit (list Entry)) :=
  if registered hk then
    Some (fun _ log =>
            (log ++ [(hookPhase hk, hookKind hk, "")], answer hk NoNode))
  else None.

(** Every registered callback appends its log line and returns what
    [answer] says. *)
Definition probe : Handler unit (list Entry) :=
  {|
     EnterSchema := probeNode H_EnterSchema NSchema;
     LeaveSchema := probeNode H_LeaveSchema NSchema;
     EnterDocument := probeNode H_EnterDocument NDocument;
     EnterDefinitionList := probeList H_EnterDefinitionList;
     LeaveDefinitionList := probeList H_LeaveDefinitionList;
     EnterDefinition := probeNode H_EnterDefinition NDefinition;
     EnterDirectiveList := probeList H_EnterDirectiveList;
     EnterDirective := probeNode H_EnterDirective NDirective;
     EnterOperationDefinition := probeNode H_EnterOperationDefinition NOperationDefinition;
     EnterFragmentDefinition := probeNode H_EnterFragmentDefinition NFragmentDefinition;
     EnterObjectDefinition := probeNode H_EnterObjectDefinition NObjectDefinition;
     EnterObjectFieldDefinitionList := probeList H_EnterObjectFieldDefinitionList;
     LeaveObjectFieldDefinitionList := probeList H_LeaveObjectFieldDefinitionList;
     EnterObjectFieldDefinition := probeNode H_EnterObjectFieldDefinition NObjectFieldDefinition;
     EnterInterfaceDefinition := probeNode H_EnterInterfaceDefinition NInterfaceDefinition;
     EnterInterfaceFieldDefinition := probeNode H_EnterInterfaceFieldDefinition NInterfaceFieldDefinition;
     EnterEnumDefinition := probeNode H_EnterEnumDefinition NEnumDefinition;
     EnterUnionDefinition := probeNode H_EnterUnionDefinition NUnionDefinition;
     EnterInputDefinition := probeNode H_EnterInputDefinition NInputDefinition;
     EnterInputFieldDefinitionList := probeList H_EnterInputFieldDefinitionList;
     EnterInputFieldDefinition := probeNode H_EnterInputFieldDefinition NInputFieldDefinition;
     EnterSelectionList := probeList H_EnterSelectionList;
     EnterSelection := probeNode H_EnterSelection NSelection;
     EnterSelectionField := probeNode H_EnterSelectionField NSelectionField;
     EnterFragmentSpread := probeNode H_EnterFragmentSpread NFragmentSpread;
     EnterInlineFragment := probeNode H_EnterInlineFragment NInlineFragment;
     EnterSchemaQuery := probeNode H_EnterSchemaQuery NObjectDefinition;
     LeaveSchemaQuery := probeNode H_LeaveSchemaQuery NObjectDefinition;
     LeaveDocument := probeNode H_LeaveDocument NDocument;
     LeaveDefinition := probeNode H_LeaveDefinition NDefinition;
     LeaveDirectiveList := probeList H_LeaveDirectiveList;
     LeaveDirective := probeNode H_LeaveDirective NDirective;
     LeaveOperationDefinition := probeNode H_LeaveOperationDefinition NOperationDefinition;
     LeaveFragmentDefinition := probeNode H_LeaveFragmentDefinition NFragmentDefinition;
     LeaveObjectDefinition := probeNode H_LeaveObjectDefinition NObjectDefinition;
     LeaveObjectFieldDefinition := probeNode H_LeaveObjectFieldDefinition NObjectFieldDefinition;
     LeaveInterfaceDefinition := probeNode H_LeaveInterfaceDefinition NInterfaceDefinition;
     LeaveInterfaceFieldDefinition := probeNode H_LeaveInterfaceFieldDefinition NInterfaceFieldDefinition;
     LeaveEnumDefinition := probeNode H_LeaveEnumDefinition NEnumDefinition;
     LeaveUnionDefinition := probeNode H_LeaveUnionDefinition NUnionDefinition;
     LeaveInputDefinition := probeNode H_LeaveInputDefinition NInputDefinition;
     LeaveInputFieldDefinitionList := probeList H_LeaveInputFieldDefinitionList;
     LeaveInputFieldDefinition := probeNode H_LeaveInputFieldDefinition NInputFieldDefinition;
     LeaveSelectionList := probeList H_LeaveSelectionList;
     LeaveSelection := probeNode H_LeaveSelection NSelection;
     LeaveSelectionField := probeNode H_LeaveSelectionField NSelectionField;
     LeaveFragmentSpread := probeNode H_LeaveFragmentSpread NFragmentSpread;
     LeaveInlineFragment := probeNode H_LeaveInlineFragment NInlineFragment
  |}.

End Probe.

Definition everyHook (hk : Hook) : bool := true.
Definition noError (hk : Hook) (n : Node) : option error := None.

(** Only the callback [hk] returns an error, [err]. *)
Definition errorAt (hk : Hook) (err : error) (hk' : Hook) (n : Node)
  : option error :=
  if Hook_eqb hk' hk then Some err else None.

Definition pruneSignal : error :=
  PruneSignal {| Prune := true; pruner_Error := "prune" |}.

(* ---------------------------------------------------------------- *)
(** ** Documents and schemas to walk *)

Definition selectionId : Selection :=
  SelField (mkSelectionField "id" false "" [] [] []).

Definition fieldUser : SelectionField :=
  mkSelectionField "user" false "" [] [] [selectionId].

(** [query { user { id } }] *)
Definition queryUserId : Document :=
  {| doc_Definitions :=
       [DefOperation
          {| op_OperationType := OperationTypeQuery;
             op_HasName := false; op_Name := "";
             op_Variables := []; op_Directives := [];
             op_Selections := [SelField fieldUser] |}];
     doc_types := [] |}.

(** The callbacks of the scenario: operation definition, selection
    list, selection and selection field, entering and leaving. *)
Definition scenarioHooks (hk : Hook) : bool :=
  match hk with
  | H_EnterOperationDefinition | H_LeaveOperationDefinition
  | H_EnterSelectionList | H_LeaveSelectionList
  | H_EnterSelection | H_LeaveSelection
  | H_EnterSelectionField | H_LeaveSelectionField => true
  | _ => false
  end.

Definition directiveSkip : Directive :=
  {| dir_Name := "skip";
     dir_Arguments := [mkArgument "if" (BoolValue true)] |}.

Definition fieldUserSkip : SelectionField :=
  mkSelectionField "user" false "" [] [directiveSkip] [selectionId].

(** [query { user @skip(if: true) { id } posts }] *)
Definition queryWithDirective : Document :=
  {| doc_Definitions :=
       [DefOperation
          {| op_OperationType := OperationTypeQuery;
             op_HasName := false; op_Name := "";
             op_Variables := []; op_Directives := [];
             op_Selections :=
               [SelField fieldUserSkip;
                SelField (mkSelectionField "posts" false "" [] [] [])] |}];
     doc_types := [] |}.

(** [input Empty {}] *)
Definition emptyInput : Document :=
  {| doc_Definitions := [DefInput (NewInputDefinition "Empty")];
     doc_types := [] |}.

(** [input Point { x }] *)
Definition pointInput : Document :=
  {| doc_Definitions :=
       [DefInput (input_AddFields (NewInputDefinition "Point")
                    [NewInputFieldDefinition "x"])];
     doc_types := [] |}.

Definition typeString : Type_ := TypeNamed (NewNamedType "String").

Definition objectUser : ObjectDefinition :=
  obj_AddFields (NewObjectDefinition "User")
    [NewObjectFieldDefinition "name" typeString].

Definition objectPost : ObjectDefinition :=
  obj_AddFields (NewObjectDefinition "Post")
    [NewObjectFieldDefinition "title" typeString].

Definition objectQuery : ObjectDefinition :=
  obj_AddFields (NewObjectDefinition "Query")
    [NewObjectFieldDefinition "me" (TypeNamed (NewNamedType "User"))].

Definition blogSchema : Schema :=
  AddTypes (SetQuery NewSchema objectQuery) [objectUser; objectPost].

(* ================================================================== *)
(** * Judgements on walks *)
(* ================================================================== *)

(** Membership in a list of callbacks, decided by computation. *)
Definition among (l : list Hook) (hk : Hook) : Prop :=
  existsb (Hook_eqb hk) l = true.

(** The nested selections of a selection. *)
Definition nested (v : Selection) : list Selection :=
  match v with
  | SelField f => field_Selections f
  | SelInline f => inline_Selections f
  | _ => []
  end.

Section Judgements.

Variables S A : Type.

(** Every callback the computation invokes satisfies [P]. *)
Definition within (P : Hook -> Prop) (m : Walk S A) : Prop :=
  forall s, Forall (fun ev => P (ev_hook ev)) (emitted (m s)).

(** Either no callback returned a fatal error, or exactly the last one
    invoked did and the computation fails with that error wrapped. *)
Definition aborted (x : S * list Event * result A) : Prop :=
  Forall (fun ev => ~ fatal ev) (emitted x) \/
  exists pre ev e err,
    emitted x = pre ++ [ev] /\
    Forall (fun ev => ~ fatal ev) pre /\
    ev_result ev = Some e /\ isPruneError e = None /\
    outcome x = Failed err /\ wraps e err.

Definition aborting (m : Walk S A) : Prop := forall s, aborted (m s).

(** No callback asked to prune. *)
Definition quiet (x : S * list Event * result A) : Prop :=
  Forall (fun ev => pruned ev = false) (emitted x).

End Judgements.

(** What a visit of [v] does once its entering callback has asked to
    prune: nothing but the leaving callback, if there is one. *)
Definition skipsChildren (Ctx S A : Type) (ctx : Ctx)
    (visit : A -> Walk S unit) (enterHk leaveHk : Hook) (node : A -> Node)
    (enter leave : option (callback Ctx S A)) : Prop :=
  forall (v : A) (s s1 : S) hfunc p,
    enter = Some hfunc ->
    hfunc ctx v s = (s1, Some (PruneSignal p)) ->
    Prune p = true ->
    let entered := mkEvent enterHk (node v) (Some (PruneSignal p)) in
    match leave with
    | None => visit v s = (s1, [entered], Ok tt)
    | Some lfunc =>
        exists msg,
          visit v s =
          (fst (lfunc ctx v s1),
           [entered; mkEvent leaveHk (node v) (snd (lfunc ctx v s1))],
           match snd (lfunc ctx v s1) with
           | None => Ok tt
           | Some e => Failed (Wrap e msg)
           end)
    end.


Definition ifRegistered (A B : Type) (h : option A) (l : list B) : list B :=
  match h with
  | Some _ => l
  | None => []
  end.

(** The nodes the callback [hk'] adds to those handed to [hk]. *)
Definition fires (A : Type) (hk' hk : Hook) (h : option A) (n : Node)
  : list Node :=
  if Hook_eqb hk' hk then ifRegistered h [n] else [].

(** Whenever the computation runs to its end with no callback asking to
    prune, its value satisfies [V] and the callback [hk] was handed
    exactly the nodes [xs], in that order. *)
Definition enters (S A : Type) (hk : Hook) (m : Walk S A) (V : A -> Prop)
    (xs : list Node) : Prop :=
  forall s a,
    outcome (m s) = Ok a -> quiet (m s) ->
    V a /\ nodesOf hk (emitted (m s)) = xs.

Definition any (A : Type) (a : A) : Prop := True.

(** What the visit of one object definition, as a definition, hands to
    the callback [hk] (its fields left aside). *)
Definition objectFires (Ctx S : Type) (h : Handler Ctx S) (hk : Hook)
    (d : ObjectDefinition) : list Node :=
  fires H_EnterDefinition hk (EnterDefinition h) (NDefinition (DefObject d)) ++
  (fires H_EnterObjectDefinition hk (EnterObjectDefinition h)
     (NObjectDefinition d) ++
   fires H_LeaveObjectDefinition hk (LeaveObjectDefinition h)
     (NObjectDefinition d)) ++
  fires H_LeaveDefinition hk (LeaveDefinition h) (NDefinition (DefObject d)).

(** What a visit of a node without descent does when its entering
    callback returns an error, whichever it is: it fails with it. *)
Definition ignoresPruner (Ctx S A : Type) (ctx : Ctx)
    (visit : A -> Walk S unit) (enterHk : Hook) (node : A -> Node)
    (enter : option (callback Ctx S A)) : Prop :=
  forall (v : A) (s s1 : S) hfunc e,
    enter = Some hfunc ->
    hfunc ctx v s = (s1, Some e) ->
    exists msg,
      visit v s =
      (s1, [mkEvent enterHk (node v) (Some e)], Failed (Wrap e msg)).

(** Selections by induction on nesting. *)
Section SelectionInduction.

Variable P : Selection -> Prop.
Hypothesis step : forall v, Forall P (nested v) -> P v.

Fixpoint Selection_nested_ind (v : Selection) : P v :=
  step v
    match v as v0 return Forall P (nested v0) with
    | SelField f => SelectionField_nested_ind f
    | SelInline f => InlineFragment_nested_ind f
    | SelSpread _ => Forall_nil P
    | SelOther _ => Forall_nil P
    end
with SelectionField_nested_ind (f : SelectionField)
  : Forall P (field_Selections f) :=
  match f as f0 return Forall P (field_Selections f0) with
  | mkSelectionField _ _ _ _ _ selections =>
      (fix each (l : list Selection) : Forall P l :=
         match l with
         | [] => Forall_nil P
         | x :: rest => Forall_cons x (Selection_nested_ind x) (each rest)
         end) selections
  end
with InlineFragment_nested_ind (f : InlineFragment)
  : Forall P (inline_Selections f) :=
  match f as f0 return Forall P (inline_Selections f0) with
  | mkInlineFragment _ selections _ =>
      (fix each (l : list Selection) : Forall P l :=
         match l with
         | [] => Forall_nil P
         | x :: rest => Forall_cons x (Selection_nested_ind x) (each rest)
         end) selections
  end.

End SelectionInduction.

(* ---------------------------------------------------------------- *)
(** ** Further judgements *)

(** The entering callbacks whose error is tested for [Pruner]. *)
Definition honoursPruner (hk : Hook) : bool :=
  match hk with
  | H_EnterSchema | H_EnterDocument | H_EnterDefinition
  | H_EnterOperationDefinition | H_EnterFragmentDefinition
  | H_EnterSelection | H_EnterSelectionField | H_EnterInlineFragment
  | H_EnterObjectDefinition | H_EnterInterfaceDefinition
  | H_EnterInputDefinition | H_EnterSchemaQuery
  | H_EnterInputFieldDefinitionList => true
  | _ => false
  end.

(** The callback returned an error that no calling site takes for a
    prune signal: one that is not a [Pruner], or any error at all from a
    callback whose error is never tested. *)
Definition finalError (ev : Event) : bool :=
  match ev_result ev with
  | None => false
  | Some e =>
      match isPruneError e with
      | None => true
      | Some _ => negb (honoursPruner (ev_hook ev))
      end
  end.

(** The errors the package makes itself, with [errors.Errorf]. *)
Definition internalError (e : error) : Prop :=
  exists dyn,
    e = ErrorString ("unknown definition " ++ dyn) \/
    e = ErrorString ("invalid selection type " ++ dyn) \/
    e = ErrorString ("invalid input type for visit: " ++ dyn).

(** Either the errors of the package count as causes, or there is no
    place for the package to fail at. *)
Definition licensed (I : error -> Prop) (known : bool) : Prop :=
  known = true \/ forall e, internalError e -> I e.

(** The entering callbacks of the nodes that have a descent. *)
Definition prunableNode (hk : Hook) : bool :=
  match hk with
  | H_EnterSchema | H_EnterDocument | H_EnterDefinition
  | H_EnterOperationDefinition | H_EnterFragmentDefinition
  | H_EnterSelection | H_EnterSelectionField | H_EnterInlineFragment
  | H_EnterObjectDefinition | H_EnterInterfaceDefinition
  | H_EnterInputDefinition | H_EnterSchemaQuery => true
  | _ => false
  end.

(** The last callback invoked returned an error, one that is not a
    [Pruner] unless the callback is not the entering callback of a node
    with a descent, and [err] is that error under one or more
    [errors.Wrap]. *)
Definition blamed (evs : list Event) (err : error) : Prop :=
  exists pre ev e,
    evs = pre ++ [ev] /\ ev_result ev = Some e /\
    (isPruneError e = None \/ prunableNode (ev_hook ev) = false) /\
    wraps e err.

(** A selection of one of the three kinds [visitSelection] knows, and so
    are all the selections nested in it. *)
Fixpoint knownSelection (v : Selection) : bool :=
  match v with
  | SelField (mkSelectionField _ _ _ _ _ selections) =>
      forallb knownSelection selections
  | SelSpread _ => true
  | SelInline (mkInlineFragment _ selections _) =>
      forallb knownSelection selections
  | SelOther _ => false
  end.

(** A definition of one of the seven kinds [visitDefinition] knows, its
    selections being known too. *)
Definition knownDefinition (v : Definition_) : bool :=
  match v with
  | DefOperation d => forallb knownSelection (op_Selections d)
  | DefFragment d => forallb knownSelection (frag_Selections d)
  | DefOther _ => false
  | _ => true
  end.

(** A document of known definitions, or a schema whose query is set. *)
Definition knownRoot (v : Root) : bool :=
  match v with
  | RootDocument d => forallb knownDefinition (doc_Definitions d)
  | RootSchema s =>
      match schema_Query s with
      | Some _ => true
      | None => false
      end
  | RootOther _ => false
  end.

(** The selections of a tree in the order a full walk leaves them: the
    nested selections of a selection, then the selection. *)
Fixpoint postorder (v : Selection) : list Selection :=
  match v with
  | SelField (mkSelectionField _ _ _ _ _ selections) =>
      flat_map postorder selections
  | SelInline (mkInlineFragment _ selections _) =>
      flat_map postorder selections
  | _ => []
  end ++ [v].

Definition isSome (A : Type) (o : option A) : bool :=
  match o with
  | Some _ => true
  | None => false
  end.

(** The leaving callback that the code pairs with an entering callback;
    [EnterInputFieldDefinitionList] has none, its visitor never reads
    [LeaveInputFieldDefinitionList]. *)
Definition partner (hk : Hook) : option Hook :=
  match hk with
  | H_EnterSchema => Some H_LeaveSchema
  | H_EnterDocument => Some H_LeaveDocument
  | H_EnterDefinitionList => Some H_LeaveDefinitionList
  | H_EnterDefinition => Some H_LeaveDefinition
  | H_EnterDirectiveList => Some H_LeaveDirectiveList
  | H_EnterDirective => Some H_LeaveDirective
  | H_EnterOperationDefinition => Some H_LeaveOperationDefinition
  | H_EnterFragmentDefinition => Some H_LeaveFragmentDefinition
  | H_EnterObjectDefinition => Some H_LeaveObjectDefinition
  | H_EnterObjectFieldDefinitionList => Some H_LeaveObjectFieldDefinitionList
  | H_EnterObjectFieldDefinition => Some H_LeaveObjectFieldDefinition
  | H_EnterInterfaceDefinition => Some H_LeaveInterfaceDefinition
  | H_EnterInterfaceFieldDefinition => Some H_LeaveInterfaceFieldDefinition
  | H_EnterEnumDefinition => Some H_LeaveEnumDefinition
  | H_EnterUnionDefinition => Some H_LeaveUnionDefinition
  | H_EnterInputDefinition => Some H_LeaveInputDefinition
  | H_EnterInputFieldDefinition => Some H_LeaveInputFieldDefinition
  | H_EnterSelectionList => Some H_LeaveSelectionList
  | H_EnterSelection => Some H_LeaveSelection
  | H_EnterSelectionField => Some H_LeaveSelectionField
  | H_EnterFragmentSpread => Some H_LeaveFragmentSpread
  | H_EnterInlineFragment => Some H_LeaveInlineFragment
  | H_EnterSchemaQuery => Some H_LeaveSchemaQuery
  | _ => None
  end.

(** The callbacks a walk of a schema can reach. *)
Definition schemaHooks : list Hook :=
  [H_EnterSchema; H_LeaveSchema;
   H_EnterDefinitionList; H_LeaveDefinitionList;
   H_EnterDefinition; H_LeaveDefinition] ++ objectHooks.

(** The callbacks a walk of a document can reach. *)
Definition documentHooks : list Hook :=
  [H_EnterDocument; H_LeaveDocument;
   H_EnterDefinitionList; H_LeaveDefinitionList;
   H_EnterDefinition; H_LeaveDefinition] ++ definitionBodyHooks.

(** The callbacks of an operation definition that has no selections. *)
Definition operationOwnHooks : list Hook :=
  [H_EnterOperationDefinition; H_LeaveOperationDefinition].

Definition directiveOwnHooks : list Hook :=
  [H_EnterDirective; H_LeaveDirective].

Definition fragmentSpreadHooks : list Hook :=
  [H_EnterFragmentSpread; H_LeaveFragmentSpread].

Definition enumHooks : list Hook :=
  [H_EnterEnumDefinition; H_LeaveEnumDefinition].

Definition unionHooks : list Hook :=
  [H_EnterUnionDefinition; H_LeaveUnionDefinition].

Definition interfaceHooks : list Hook :=
  [H_EnterInterfaceDefinition; H_LeaveInterfaceDefinition;
   H_EnterInterfaceFieldDefinition; H_LeaveInterfaceFieldDefinition].

Definition inputHooks : list Hook :=
  [H_EnterInputDefinition; H_LeaveInputDefinition;
   H_EnterInputFieldDefinitionList;
   H_EnterInputFieldDefinition; H_LeaveInputFieldDefinition].

Section MoreJudgements.

Variables Ctx S : Type.

(** [&Handler{}]: no callback registered. *)
Definition emptyHandler : Handler Ctx S :=
  {|
     EnterSchema := None;
     LeaveSchema := None;
     EnterDocument := None;
     EnterDefinitionList := None;
     LeaveDefinitionList := None;
     EnterDefinition := None;
     EnterDirectiveList := None;
     EnterDirective := None;
     EnterOperationDefinition := None;
     EnterFragmentDefinition := None;
     EnterObjectDefinition := None;
     EnterObjectFieldDefinitionList := None;
     LeaveObjectFieldDefinitionList := None;
     EnterObjectFieldDefinition := None;
     EnterInterfaceDefinition := None;
     EnterInterfaceFieldDefinition := None;
     EnterEnumDefinition := None;
     EnterUnionDefinition := None;
     EnterInputDefinition := None;
     EnterInputFieldDefinitionList := None;
     EnterInputFieldDefinition := None;
     EnterSelectionList := None;
     EnterSelection := None;
     EnterSelectionField := None;
     EnterFragmentSpread := None;
     EnterInlineFragment := None;
     EnterSchemaQuery := None;
     LeaveSchemaQuery := None;
     LeaveDocument := None;
     LeaveDefinition := None;
     LeaveDirectiveList := None;
     LeaveDirective := None;
     LeaveOperationDefinition := None;
     LeaveFragmentDefinition := None;
     LeaveObjectDefinition := None;
     LeaveObjectFieldDefinition := None;
     LeaveInterfaceDefinition := None;
     LeaveInterfaceFieldDefinition := None;
     LeaveEnumDefinition := None;
     LeaveUnionDefinition := None;
     LeaveInputDefinition := None;
     LeaveInputFieldDefinitionList := None;
     LeaveInputFieldDefinition := None;
     LeaveSelectionList := None;
     LeaveSelection := None;
     LeaveSelectionField := None;
     LeaveFragmentSpread := None;
     LeaveInlineFragment := None
  |}.

(** Whether the field of the handler is non-nil. *)
Definition isRegistered (h : Handler Ctx S) (hk : Hook) : bool :=
  match hk with
  | H_EnterSchema => isSome (EnterSchema h)
  | H_LeaveSchema => isSome (LeaveSchema h)
  | H_EnterDocument => isSome (EnterDocument h)
  | H_EnterDefinitionList => isSome (EnterDefinitionList h)
  | H_LeaveDefinitionList => isSome (LeaveDefinitionList h)
  | H_EnterDefinition => isSome (EnterDefinition h)
  | H_EnterDirectiveList => isSome (EnterDirectiveList h)
  | H_EnterDirective => isSome (EnterDirective h)
  | H_EnterOperationDefinition => isSome (EnterOperationDefinition h)
  | H_EnterFragmentDefinition => isSome (EnterFragmentDefinition h)
  | H_EnterObjectDefinition => isSome (EnterObjectDefinition h)
  | H_EnterObjectFieldDefinitionList => isSome (EnterObjectFieldDefinitionList h)
  | H_LeaveObjectFieldDefinitionList => isSome (LeaveObjectFieldDefinitionList h)
  | H_EnterObjectFieldDefinition => isSome (EnterObjectFieldDefinition h)
  | H_EnterInterfaceDefinition => isSome (EnterInterfaceDefinition h)
  | H_EnterInterfaceFieldDefinition => isSome (EnterInterfaceFieldDefinition h)
  | H_EnterEnumDefinition => isSome (EnterEnumDefinition h)
  | H_EnterUnionDefinition => isSome (EnterUnionDefinition h)
  | H_EnterInputDefinition => isSome (EnterInputDefinition h)
  | H_EnterInputFieldDefinitionList => isSome (EnterInputFieldDefinitionList h)
  | H_EnterInputFieldDefinition => isSome (EnterInputFieldDefinition h)
  | H_EnterSelectionList => isSome (EnterSelectionList h)
  | H_EnterSelection => isSome (EnterSelection h)
  | H_EnterSelectionField => isSome (EnterSelectionField h)
  | H_EnterFragmentSpread => isSome (EnterFragmentSpread h)
  | H_EnterInlineFragment => isSome (EnterInlineFragment h)
  | H_EnterSchemaQuery => isSome (EnterSchemaQuery h)
  | H_LeaveSchemaQuery => isSome (LeaveSchemaQuery h)
  | H_LeaveDocument => isSome (LeaveDocument h)
  | H_LeaveDefinition => isSome (LeaveDefinition h)
  | H_LeaveDirectiveList => isSome (LeaveDirectiveList h)
  | H_LeaveDirective => isSome (LeaveDirective h)
  | H_LeaveOperationDefinition => isSome (LeaveOperationDefinition h)
  | H_LeaveFragmentDefinition => isSome (LeaveFragmentDefinition h)
  | H_LeaveObjectDefinition => isSome (LeaveObjectDefinition h)
  | H_LeaveObjectFieldDefinition => isSome (LeaveObjectFieldDefinition h)
  | H_LeaveInterfaceDefinition => isSome (LeaveInterfaceDefinition h)
  | H_LeaveInterfaceFieldDefinition => isSome (LeaveInterfaceFieldDefinition h)
  | H_LeaveEnumDefinition => isSome (LeaveEnumDefinition h)
  | H_LeaveUnionDefinition => isSome (LeaveUnionDefinition h)
  | H_LeaveInputDefinition => isSome (LeaveInputDefinition h)
  | H_LeaveInputFieldDefinitionList => isSome (LeaveInputFieldDefinitionList h)
  | H_LeaveInputFieldDefinition => isSome (LeaveInputFieldDefinition h)
  | H_LeaveSelectionList => isSome (LeaveSelectionList h)
  | H_LeaveSelection => isSome (LeaveSelection h)
  | H_LeaveSelectionField => isSome (LeaveSelectionField h)
  | H_LeaveFragmentSpread => isSome (LeaveFragmentSpread h)
  | H_LeaveInlineFragment => isSome (LeaveInlineFragment h)
  end.

Variable A : Type.

(** Either no callback returned a final error, or exactly the last one
    invoked did and the computation fails with that error wrapped. *)
Definition halted (x : S * list Event * result A) : Prop :=
  Forall (fun ev => finalError ev = false) (emitted x) \/
  exists pre ev e err,
    emitted x = pre ++ [ev] /\
    Forall (fun ev => finalError ev = false) pre /\
    finalError ev = true /\ ev_result ev = Some e /\
    outcome x = Failed err /\ wraps e err.

Definition halting (m : Walk S A) : Prop := forall s, halted (m s).

(** When the computation fails, the last callback is to blame or the
    cause of the error satisfies [I]. *)
Definition accounts (I : error -> Prop) (m : Walk S A) : Prop :=
  forall s err,
    outcome (m s) = Failed err ->
    blamed (emitted (m s)) err \/ I (Cause err).

(** When the computation runs to its end with no callback asking to
    prune, [K] holds. *)
Definition certifies (m : Walk S A) (K : Prop) : Prop :=
  forall s a, outcome (m s) = Ok a -> quiet (m s) -> K.

(** The computation invokes no callback and leaves the state alone. *)
Definition inert (m : Walk S A) : Prop :=
  forall s, final (m s) = s /\ emitted (m s) = [].

(** When the computation runs to its end, [hkE] was invoked [d] times
    more than [hkL]. *)
Definition tally (hkE hkL : Hook) (m : Walk S A) (d : Z) : Prop :=
  forall s a,
    outcome (m s) = Ok a ->
    (Z.of_nat (timesCalled hkE (emitted (m s))) -
     Z.of_nat (timesCalled hkL (emitted (m s))) = d)%Z.

End MoreJudgements.

(** What one invocation of [hk] adds to the count of [hkE] over [hkL]. *)
Definition weight (hkE hkL hk : Hook) : Z :=
  ((if Hook_eqb hk hkE then 1 else 0) - (if Hook_eqb hk hkL then 1 else 0))%Z.

Definition b2z (b : bool) : Z := if b then 1%Z else 0%Z.

(* ================================================================== *)
(** * Properties of the walk *)
(* ================================================================== *)

Lemma wraps_Cause e err : wraps e err -> Cause err = Cause e.
Proof. induction 1; simpl; congruence. Qed.

Lemma among_In l hk : among l hk -> In hk l.
Proof.
  unfold among. rewrite existsb_exists. intros [x [Hin Heq]].
  unfold Hook_eqb in Heq. destruct (Hook_eq_dec hk x); congruence.
Qed.

Lemma nodesOf_app hk evs1 evs2 :
  nodesOf hk (evs1 ++ evs2) = nodesOf hk evs1 ++ nodesOf hk evs2.
Proof. unfold nodesOf. now rewrite filter_app, map_app. Qed.

Lemma nodesOf_absent hk (P : Hook -> Prop) evs :
  Forall (fun ev => P (ev_hook ev)) evs -> ~ P hk -> nodesOf hk evs = [].
Proof.
  intros HF Hn. unfold nodesOf. induction HF as [|ev evs Hev _ IH]; simpl; auto.
  unfold Hook_eqb at 1. destruct (Hook_eq_dec (ev_hook ev) hk) as [E|E]; auto.
  subst. contradiction.
Qed.


(* ---------------------------------------------------------------- *)
(** ** The equations of the visiting functions *)

Section Equations.

Variables Ctx S : Type.
Variable ctx : Ctx.
Variable h : Handler Ctx S.

Lemma visitSelection_eq v :
  visitSelection ctx h v =
  bind (enterPrunable ctx H_EnterSelection NSelection (EnterSelection h) v
          "failed to visit selection (enter)")
    (fun prune =>
       bind (unless prune
               match v with
               | SelField f =>
                   wrap (visitSelectionField ctx h f)
                     "failed to visit selection field"
               | SelSpread f =>
                   wrap (visitFragmentSpread ctx h f)
                     "failed to visit fragment spread"
               | SelInline f =>
                   wrap (visitInlineFragment ctx h f)
                     "failed to visit inline fragment"
               | SelOther dyn =>
                   fail (ErrorString ("invalid selection type " ++ dyn))
               end)
         (fun _ =>
            call ctx H_LeaveSelection NSelection (LeaveSelection h) v
              "failed to visit selection (leave)")).
Proof. destruct v; reflexivity. Qed.

Lemma visitSelectionField_eq v :
  visitSelectionField ctx h v =
  bind (enterPrunable ctx H_EnterSelectionField NSelectionField
          (EnterSelectionField h) v
          "failed to visit selection field (enter)")
    (fun prune =>
       bind (unless prune
               (bind (wrap (visitDirectiveList ctx h (field_Directives v))
                        "failed to visit directive list")
                  (fun _ =>
                     wrap (visitSelectionList ctx h (field_Selections v))
                       "failed to visit selection list")))
         (fun _ =>
            call ctx H_LeaveSelectionField NSelectionField
              (LeaveSelectionField h) v
              "failed to visit selection field (leave)")).
Proof. destruct v; reflexivity. Qed.

Lemma visitInlineFragment_eq v :
  visitInlineFragment ctx h v =
  bind (enterPrunable ctx H_EnterInlineFragment NInlineFragment
          (EnterInlineFragment h) v
          "failed to visit inline fragment (enter)")
    (fun prune =>
       bind (unless prune
               (bind (wrap (visitDirectiveList ctx h (inline_Directives v))
                        "failed to visit directive list")
                  (fun _ =>
                     wrap (visitSelectionList ctx h (inline_Selections v))
                       "failed to visit selection list")))
         (fun _ =>
            call ctx H_LeaveInlineFragment NInlineFragment
              (LeaveInlineFragment h) v
              "failed to visit inline fragment (leave)")).
Proof. destruct v; reflexivity. Qed.

Lemma visitSelectionList_eq ch :
  visitSelectionList ctx h ch =
  if (List.length ch =? 0)%nat then ret tt else
  bind (callList ctx H_EnterSelectionList (EnterSelectionList h)
          "failed to handle selection list (enter)")
    (fun _ =>
       bind (forEach (visitSelection ctx h) "failed to visit selection" ch)
         (fun _ =>
            callList ctx H_LeaveSelectionList (LeaveSelectionList h)
              "failed to handle selection list (leave)")).
Proof. reflexivity. Qed.

End Equations.

(* ---------------------------------------------------------------- *)
(** ** Which callbacks a visit can reach *)

Section Reach.

Variables Ctx S : Type.
Variable ctx : Ctx.
Variable P : Hook -> Prop.

Lemma within_ret A (a : A) : within P (@ret S A a).
Proof. intros s. constructor. Qed.

Lemma within_fail A err : within P (@fail S A err).
Proof. intros s. constructor. Qed.

Lemma within_bind A B (m : Walk S A) (f : A -> Walk S B) :
  within P m -> (forall a, within P (f a)) -> within P (bind m f).
Proof.
  intros Hm Hf s. unfold bind.
  specialize (Hm s). destruct (m s) as [[s1 evs1] [a|err]]; simpl in *; auto.
  specialize (Hf a s1). destruct (f a s1) as [[s2 evs2] r]; simpl in *.
  apply Forall_app; auto.
Qed.

Lemma within_wrap (m : Walk S unit) msg : within P m -> within P (wrap m msg).
Proof.
  intros Hm s. unfold wrap. specialize (Hm s).
  destruct (m s) as [[s1 evs1] [a|err]]; simpl in *; auto.
Qed.

Lemma within_unless prune (m : Walk S unit) :
  within P m -> within P (unless prune m).
Proof. destruct prune; simpl; auto using within_ret. Qed.

Lemma within_forEach A (visit : A -> Walk S unit) msg ch :
  (forall a, within P (visit a)) -> within P (forEach visit msg ch).
Proof.
  intros Hv. induction ch as [|e rest IH]; simpl.
  - apply within_ret.
  - apply within_bind; auto using within_wrap.
Qed.

Lemma within_forEach_Forall A (visit : A -> Walk S unit) msg ch :
  Forall (fun a => within P (visit a)) ch -> within P (forEach visit msg ch).
Proof.
  induction 1; simpl.
  - apply within_ret.
  - apply within_bind; auto using within_wrap.
Qed.

Lemma within_invoke A hk node (hfunc : callback Ctx S A) v :
  P hk -> within P (invoke ctx hk node hfunc v).
Proof.
  intros Hp s. unfold invoke. destruct (hfunc ctx v s). simpl.
  constructor; [exact Hp | constructor].
Qed.

Lemma within_call A hk node (hf : option (callback Ctx S A)) v msg :
  P hk -> within P (call ctx hk node hf v msg).
Proof.
  intros Hp. unfold call. destruct hf; [|apply within_ret].
  apply within_bind; [now apply within_invoke|].
  intros [e|]; [apply within_fail | apply within_ret].
Qed.

Lemma within_enterPrunable A hk node (hf : option (callback Ctx S A)) v msg :
  P hk -> within P (enterPrunable ctx hk node hf v msg).
Proof.
  intros Hp. unfold enterPrunable. destruct hf; [|apply within_ret].
  apply within_bind; [now apply within_invoke|].
  intros [e|]; [|apply within_ret].
  destruct (isPruneError e); [apply within_ret | apply within_fail].
Qed.

Lemma within_callList hk (hf : option (listCallback Ctx S)) msg :
  P hk -> within P (callList ctx hk hf msg).
Proof. intros. unfold callList. now apply within_call. Qed.

Lemma within_enterPrunableList hk (hf : option (listCallback Ctx S)) msg :
  P hk -> within P (enterPrunableList ctx hk hf msg).
Proof. intros. unfold enterPrunableList. now apply within_enterPrunable. Qed.

End Reach.

Lemma within_weaken S A (P Q : Hook -> Prop) (m : Walk S A) :
  (forall hk, P hk -> Q hk) -> within P m -> within Q m.
Proof.
  intros HPQ Hm s. eapply Forall_impl; [|apply Hm]. simpl. auto.
Qed.

(** Decompose a visiting function into its callback sites. *)
Ltac reach :=
  repeat first
    [ apply within_ret
    | apply within_fail
    | apply within_call; [reflexivity]
    | apply within_callList; [reflexivity]
    | apply within_enterPrunable; [reflexivity]
    | apply within_enterPrunableList; [reflexivity]
    | apply within_wrap
    | apply within_unless
    | apply within_bind; [|intros ?]
    | apply within_forEach_Forall; [assumption]
    | apply within_forEach; intros ? ].

(** The shape of a node that honours pruning: entering callback, the
    descent [body], leaving callback. *)
Ltac node body :=
  apply within_bind; [reach | intros ?];
  apply within_bind; [apply within_unless; body | intros _; reach].

Ltac widen H :=
  eapply within_weaken; [|apply H];
  let hk := fresh "hk" in
  intros hk; destruct hk; vm_compute; congruence.

Section Reachable.

Variables Ctx S : Type.
Variable ctx : Ctx.
Variable h : Handler Ctx S.

Lemma visitDirectiveList_within ch :
  within (among directiveHooks) (visitDirectiveList ctx h ch).
Proof. unfold visitDirectiveList. reach. Qed.

Lemma visitSelectionList_within_if ch :
  Forall (fun v => within (among selectionHooks) (visitSelection ctx h v)) ch ->
  within (among selectionHooks) (visitSelectionList ctx h ch).
Proof. intros HF. rewrite visitSelectionList_eq. reach. Qed.

Lemma visitSelection_within v :
  within (among selectionHooks) (visitSelection ctx h v).
Proof.
  induction v as [v IH] using Selection_nested_ind.
  rewrite visitSelection_eq. reach.
  destruct v as [f|f|f|dyn]; simpl in IH; reach.
  - rewrite visitSelectionField_eq. reach.
  - rewrite visitInlineFragment_eq. reach.
Qed.

Lemma visitSelectionList_within ch :
  within (among selectionHooks) (visitSelectionList ctx h ch).
Proof.
  apply visitSelectionList_within_if. apply Forall_forall.
  intros v _. apply visitSelection_within.
Qed.

Lemma visitOperationDefinition_within v :
  within (among operationHooks) (visitOperationDefinition ctx h v).
Proof.
  unfold visitOperationDefinition.
  node ltac:(apply within_wrap;
             widen (visitSelectionList_within (op_Selections v))).
Qed.

Lemma visitFragmentDefinition_within v :
  within (among definitionBodyHooks) (visitFragmentDefinition ctx h v).
Proof.
  unfold visitFragmentDefinition.
  node ltac:(apply within_bind; [|intros _]; apply within_wrap;
             [ widen (visitDirectiveList_within (frag_Directives v))
             | widen (visitSelectionList_within (frag_Selections v)) ]).
Qed.

Lemma visitObjectFieldDefinitionList_within ch :
  within (among objectHooks) (visitObjectFieldDefinitionList ctx h ch).
Proof. unfold visitObjectFieldDefinitionList. reach. Qed.

Lemma visitObjectDefinition_within v :
  within (among objectHooks) (visitObjectDefinition ctx h v).
Proof. unfold visitObjectDefinition. reach. Qed.

(** What [visitDefinition] runs between its two callbacks. *)
Lemma definition_body_within (v : Definition_) :
  within (among definitionBodyHooks)
    match v with
    | DefOperation d =>
        wrap (visitOperationDefinition ctx h d)
          "failed to visit operation definition"
    | DefFragment d =>
        wrap (visitFragmentDefinition ctx h d)
          "failed to visit fragment definition"
    | DefObject d =>
        wrap (visitObjectDefinition ctx h d)
          "failed to visit object type definition"
    | DefInterface d =>
        wrap (visitInterfaceDefinition ctx h d)
          "failed to visit object type definition"
    | DefEnum d =>
        wrap (visitEnumDefinition ctx h d) "failed to visit enum definition"
    | DefUnion d =>
        wrap (visitUnionDefinition ctx h d) "failed to visit union definition"
    | DefInput d =>
        wrap (visitInputDefinition ctx h d) "failed to visit input definition"
    | DefOther dyn => fail (ErrorString ("unknown definition " ++ dyn))
    end.
Proof.
  destruct v; apply within_wrap || apply within_fail.
  - widen (visitOperationDefinition_within d).
  - apply visitFragmentDefinition_within.
  - widen (visitObjectDefinition_within d).
  - unfold visitInterfaceDefinition. reach.
  - unfold visitEnumDefinition. reach.
  - unfold visitUnionDefinition. reach.
  - unfold visitInputDefinition. reach.
Qed.

Lemma visitDefinition_within v :
  within (among visitHooks) (visitDefinition ctx h v).
Proof.
  unfold visitDefinition.
  apply within_bind; [reach | intros prune].
  apply within_bind; [apply within_unless | intros _; reach].
  widen (definition_body_within v).
Qed.

Lemma visitDefinitionList_within ch :
  within (among visitHooks) (visitDefinitionList ctx h ch).
Proof.
  unfold visitDefinitionList.
  apply within_unless. apply within_bind; [reach | intros _].
  apply within_bind; [|intros _; reach].
  apply within_forEach. intros v. apply visitDefinition_within.
Qed.

Lemma Visit_within v : within (among visitHooks) (Visit ctx h v).
Proof.
  destruct v; simpl.
  - unfold visitDocument.
    apply within_bind; [reach | intros prune].
    apply within_bind; [apply within_unless, within_wrap | intros _; reach].
    apply visitDefinitionList_within.
  - unfold visitSchema.
    apply within_bind; [reach | intros prune].
    apply within_bind; [apply within_unless, within_wrap | intros _; reach].
    apply visitDefinitionList_within.
  - apply within_fail.
Qed.

End Reachable.

(* ---------------------------------------------------------------- *)
(** ** A fatal error ends the walk *)

Ltac readout := unfold emitted, outcome, final in *; simpl in *.

Lemma not_fatal_ok hk n : ~ fatal (mkEvent hk n None).
Proof. intros [e [He _]]. discriminate. Qed.

Lemma not_fatal_pruner hk n e p :
  isPruneError e = Some p -> ~ fatal (mkEvent hk n (Some e)).
Proof. intros Hp [e' [He Hn]]. simpl in He. congruence. Qed.

Section Abort.

Variables Ctx S : Type.
Variable ctx : Ctx.

Lemma aborting_ret A (a : A) : aborting (@ret S A a).
Proof. intros s. left. constructor. Qed.

Lemma aborting_fail A err : aborting (@fail S A err).
Proof. intros s. left. constructor. Qed.

Lemma aborting_bind A B (m : Walk S A) (f : A -> Walk S B) :
  aborting m -> (forall a, aborting (f a)) -> aborting (bind m f).
Proof.
  intros Hm Hf s. unfold bind. specialize (Hm s).
  destruct (m s) as [[s1 evs1] [a|err]].
  2:{ destruct Hm as [Hm | (pre & ev & e & err' & He & Hpre & Hr & Hp & Ho & Hw)].
      - left. exact Hm.
      - right. exists pre, ev, e, err'. readout.
        repeat split; auto. congruence. }
  destruct Hm as [Hm | (pre & ev & e & err & _ & _ & _ & _ & Ho & _)];
    [|discriminate].
  specialize (Hf a s1). destruct (f a s1) as [[s2 evs2] r].
  destruct Hf as [Hf | (pre & ev & e & err & He & Hpre & Hr & Hp & Ho & Hw)];
    readout.
  - left. readout. apply Forall_app; auto.
  - right. exists (evs1 ++ pre), ev, e, err. readout.
    repeat split; auto.
    + subst evs2. now rewrite app_assoc.
    + apply Forall_app; auto.
Qed.

Lemma aborting_wrap (m : Walk S unit) msg : aborting m -> aborting (wrap m msg).
Proof.
  intros Hm s. unfold wrap. specialize (Hm s).
  destruct (m s) as [[s1 evs1] [a|err]]; [exact Hm|].
  destruct Hm as [Hm | (pre & ev & e & err' & He & Hpre & Hr & Hp & Ho & Hw)].
  - left. exact Hm.
  - right. exists pre, ev, e, (Wrap err msg). readout.
    repeat split; auto. inversion Ho; subst. now apply wraps_more.
Qed.

Lemma aborting_unless prune (m : Walk S unit) :
  aborting m -> aborting (unless prune m).
Proof. destruct prune; simpl; auto using aborting_ret. Qed.

Lemma aborting_forEach_Forall A (visit : A -> Walk S unit) msg ch :
  Forall (fun a => aborting (visit a)) ch -> aborting (forEach visit msg ch).
Proof.
  induction 1; simpl.
  - apply aborting_ret.
  - apply aborting_bind; auto using aborting_wrap.
Qed.

Lemma aborting_forEach A (visit : A -> Walk S unit) msg ch :
  (forall a, aborting (visit a)) -> aborting (forEach visit msg ch).
Proof.
  intros Hv. apply aborting_forEach_Forall. apply Forall_forall. auto.
Qed.

Lemma aborting_call A hk node (hf : option (callback Ctx S A)) v msg :
  aborting (call ctx hk node hf v msg).
Proof.
  intros s. unfold call. destruct hf as [hfunc|]; [|apply aborting_ret].
  unfold bind, invoke. destruct (hfunc ctx v s) as [s1 [e|]]; simpl.
  - destruct (isPruneError e) as [p|] eqn:Hp.
    + left. readout. constructor; [|constructor].
      eapply not_fatal_pruner; eauto.
    + right. exists [], (mkEvent hk (node v) (Some e)), e, (Wrap e msg).
      readout. repeat split; auto. constructor.
  - left. readout. constructor; [apply not_fatal_ok | constructor].
Qed.

Lemma aborting_enterPrunable A hk node (hf : option (callback Ctx S A)) v msg :
  aborting (enterPrunable ctx hk node hf v msg).
Proof.
  intros s. unfold enterPrunable.
  destruct hf as [hfunc|]; [|apply aborting_ret].
  unfold bind, invoke. destruct (hfunc ctx v s) as [s1 [e|]]; simpl.
  - destruct (isPruneError e) as [p|] eqn:Hp; simpl.
    + left. readout. constructor; [|constructor].
      eapply not_fatal_pruner; eauto.
    + right. exists [], (mkEvent hk (node v) (Some e)), e, (Wrap e msg).
      readout. repeat split; auto. constructor.
  - left. readout. constructor; [apply not_fatal_ok | constructor].
Qed.

Lemma aborting_callList hk (hf : option (listCallback Ctx S)) msg :
  aborting (callList ctx hk hf msg).
Proof. apply aborting_call. Qed.

Lemma aborting_enterPrunableList hk (hf : option (listCallback Ctx S)) msg :
  aborting (enterPrunableList ctx hk hf msg).
Proof. apply aborting_enterPrunable. Qed.

End Abort.

Create HintDb aborts.

(** Decompose a visiting function into its callback sites; what is left
    is looked up among the functions already treated. *)
Ltac abort :=
  repeat first
    [ apply aborting_ret
    | apply aborting_fail
    | apply aborting_call
    | apply aborting_callList
    | apply aborting_enterPrunable
    | apply aborting_enterPrunableList
    | solve [auto with aborts]
    | apply aborting_wrap
    | apply aborting_unless
    | apply aborting_bind; [|intros ?]
    | apply aborting_forEach_Forall; [assumption]
    | apply aborting_forEach; intros ? ].

Section Aborting.

Variables Ctx S : Type.
Variable ctx : Ctx.
Variable h : Handler Ctx S.

Lemma visitSelection_aborting v : aborting (visitSelection ctx h v).
Proof.
  induction v as [v IH] using Selection_nested_ind.
  rewrite visitSelection_eq. abort.
  destruct v as [f|f|f|dyn]; simpl in IH; abort.
  - rewrite visitSelectionField_eq. abort.
  - rewrite visitInlineFragment_eq. abort.
Qed.

Hint Resolve visitSelection_aborting : aborts.

Lemma visitDefinition_aborting v : aborting (visitDefinition ctx h v).
Proof. unfold visitDefinition. abort. destruct v; abort. Qed.

Hint Resolve visitDefinition_aborting : aborts.

Lemma Visit_aborting v : aborting (Visit ctx h v).
Proof.
  destruct v; simpl.
  - unfold visitDocument. abort.
  - unfold visitSchema. abort.
  - abort.
Qed.

(** On any result of that shape, a fatal callback is the last one and
    its error comes back wrapped. *)
Lemma aborted_last A (x : S * list Event * result A) pre ev post e :
  aborted x ->
  emitted x = pre ++ ev :: post ->
  ev_result ev = Some e -> isPruneError e = None ->
  post = [] /\ exists err, outcome x = Failed err /\ wraps e err.
Proof.
  intros Hx He Hr Hp.
  assert (Hfatal : fatal ev) by (exists e; auto).
  destruct Hx as [Hx | (pre' & ev' & e' & err & He' & Hpre & Hr' & Hp' & Ho & Hw)].
  - rewrite He in Hx. apply Forall_app in Hx as [_ Hx].
    inversion Hx; subst. contradiction.
  - rewrite He in He'.
    destruct post as [|z post0] using rev_ind.
    + apply app_inj_tail in He' as [_ <-].
      split; auto. exists err. split; auto. congruence.
    + clear IHpost0. exfalso.
      change (pre ++ ev :: post0 ++ [z]) with (pre ++ (ev :: post0) ++ [z]) in He'.
      rewrite app_assoc in He'. apply app_inj_tail in He' as [<- _].
      apply Forall_app in Hpre as [_ Hpre]. inversion Hpre; subst.
      contradiction.
Qed.

End Aborting.

(* ---------------------------------------------------------------- *)
(** ** In which order the nodes are entered *)

Section Order.

Variables Ctx S : Type.
Variable ctx : Ctx.
Variable hk : Hook.

Lemma enters_eq A (m : Walk S A) V xs ys :
  enters hk m V xs -> xs = ys -> enters hk m V ys.
Proof. intros H <-. exact H. Qed.

Lemma enters_any A (m : Walk S A) V xs :
  enters hk m V xs -> enters hk m (@any A) xs.
Proof. intros H s a Ho Hq. split; [exact I|]. now apply (H s a). Qed.

Lemma enters_ret A (a : A) : enters hk (@ret S A a) (eq a) [].
Proof. intros s b Ho _. readout. split; [congruence | reflexivity]. Qed.

Lemma enters_fail A err V xs : enters hk (@fail S A err) V xs.
Proof. intros s b Ho _. readout. discriminate. Qed.

Lemma enters_bind A B (m : Walk S A) (f : A -> Walk S B) V W xs ys :
  enters hk m V xs -> (forall a, V a -> enters hk (f a) W ys) ->
  enters hk (bind m f) W (xs ++ ys).
Proof.
  intros Hm Hf s b Ho Hq. specialize (Hm s). unfold bind in *.
  destruct (m s) as [[s1 evs1] [a|e]]; readout; [|discriminate].
  destruct (Hm a eq_refl) as [Va Hxs].
  { unfold quiet in *. readout. destruct (f a s1) as [[s2 evs2] r]. readout.
    now apply Forall_app in Hq. }
  specialize (Hf a Va s1). destruct (f a s1) as [[s2 evs2] r]. readout.
  unfold quiet in *. readout. apply Forall_app in Hq as [Hq1 Hq2].
  destruct (Hf b Ho Hq2) as [Wb Hys]. split; auto.
  rewrite nodesOf_app. congruence.
Qed.

Lemma enters_wrap (m : Walk S unit) msg V xs :
  enters hk m V xs -> enters hk (wrap m msg) V xs.
Proof.
  intros Hm s a Ho Hq. specialize (Hm s). unfold wrap, quiet in *.
  destruct (m s) as [[s1 evs1] [u|e]]; readout; try discriminate.
  apply Hm; auto.
Qed.

Lemma enters_absent A (m : Walk S A) (P : Hook -> Prop) :
  within P m -> ~ P hk -> enters hk m (@any A) [].
Proof.
  intros Hm Hn s a _ _. split; [exact I|].
  eapply nodesOf_absent; [apply Hm | exact Hn].
Qed.

Lemma enters_call A hk' node (hf : option (callback Ctx S A)) v msg :
  enters hk (call ctx hk' node hf v msg) (@any unit)
    (if Hook_eqb hk' hk then ifRegistered hf [node v] else []).
Proof.
  intros s a Ho _. split; [exact I|]. unfold call in *.
  destruct hf as [hfunc|]; readout.
  - unfold bind, invoke in *. destruct (hfunc ctx v s) as [s1 [e|]]; readout.
    + discriminate.
    + unfold nodesOf. simpl. destruct (Hook_eqb hk' hk); reflexivity.
  - now destruct (Hook_eqb hk' hk).
Qed.

Lemma enters_enterPrunable A hk' node (hf : option (callback Ctx S A)) v msg :
  enters hk (enterPrunable ctx hk' node hf v msg) (eq false)
    (if Hook_eqb hk' hk then ifRegistered hf [node v] else []).
Proof.
  intros s a Ho Hq. unfold enterPrunable, quiet in *.
  destruct hf as [hfunc|]; readout.
  - unfold bind, invoke in *. destruct (hfunc ctx v s) as [s1 [e|]]; readout.
    + destruct e as [m|p|e m]; readout; try discriminate.
      inversion Hq as [|? ? Hp _]; subst. unfold pruned in Hp. simpl in Hp.
      split; [congruence|].
      unfold nodesOf. simpl. destruct (Hook_eqb hk' hk); reflexivity.
    + split; [congruence|].
      unfold nodesOf. simpl. destruct (Hook_eqb hk' hk); reflexivity.
  - split; [congruence|]. now destruct (Hook_eqb hk' hk).
Qed.

Lemma enters_forEach A (visit : A -> Walk S unit) msg ch V (F : A -> list Node) :
  (forall a, In a ch -> enters hk (visit a) V (F a)) ->
  enters hk (forEach visit msg ch) (@any unit) (flat_map F ch).
Proof.
  induction ch as [|e rest IH]; intros Hv; simpl.
  - eapply enters_any, enters_ret.
  - eapply enters_bind.
    + apply enters_wrap. apply Hv. now left.
    + intros _ _. apply IH. intros a Ha. apply Hv. now right.
Qed.

End Order.

Lemma ifRegistered_flat_map A B C (h : option A) (F : B -> list C) l :
  flat_map (fun x => ifRegistered h (F x)) l = ifRegistered h (flat_map F l).
Proof.
  destruct h; simpl; auto. induction l; simpl; auto.
Qed.

Lemma flat_map_singleton A B (f : A -> B) l :
  flat_map (fun x => [f x]) l = map f l.
Proof. induction l; simpl; congruence. Qed.

Lemma ifRegistered_app A B (h : option A) (l1 l2 : list B) :
  ifRegistered h l1 ++ ifRegistered h l2 = ifRegistered h (l1 ++ l2).
Proof. destruct h; reflexivity. Qed.

Lemma elements_entered A B C (h : option A) (node : B -> C) ch :
  flat_map (fun v => ifRegistered h [node v] ++ []) ch =
  ifRegistered h (map node ch).
Proof.
  destruct h; simpl.
  - induction ch; simpl; congruence.
  - induction ch; simpl; congruence.
Qed.

Lemma flat_map_map A B C (f : B -> C) (g : A -> list B) l :
  flat_map (fun x => map f (g x)) l = map f (flat_map g l).
Proof. induction l; simpl; rewrite ?map_app; congruence. Qed.

Lemma not_among l hk : existsb (Hook_eqb hk) l = false -> ~ among l hk.
Proof. unfold among. congruence. Qed.

Lemma length_zero_nil A (ch : list A) :
  ch <> [] -> (List.length ch =? 0)%nat = false.
Proof. destruct ch; [congruence | reflexivity]. Qed.

Section Ordered.

Variables Ctx S : Type.
Variable ctx : Ctx.
Variable h : Handler Ctx S.

(** A node without descent: entering callback, then leaving callback. *)
Lemma leaf_enters hk A hkE hkL node (hE hL : option (callback Ctx S A)) v
    msgE msgL :
  enters hk
    (bind (call ctx hkE node hE v msgE)
       (fun _ => call ctx hkL node hL v msgL))
    (@any unit)
    ((if Hook_eqb hkE hk then ifRegistered hE [node v] else []) ++
     (if Hook_eqb hkL hk then ifRegistered hL [node v] else [])).
Proof.
  eapply enters_bind; [apply enters_call | intros _ _; apply enters_call].
Qed.

(** A list with callbacks of its own around the visits of its elements. *)
Lemma list_enters hk A (visit : A -> Walk S unit) hkE hkL
    (hE hL : option (listCallback Ctx S)) msgE msg msgL ch F :
  (forall v, In v ch -> enters hk (visit v) (@any unit) (F v)) ->
  enters hk
    (bind (callList ctx hkE hE msgE)
       (fun _ => bind (forEach visit msg ch)
                   (fun _ => callList ctx hkL hL msgL)))
    (@any unit)
    ((if Hook_eqb hkE hk then ifRegistered (onList hE) [NoNode] else []) ++
     flat_map F ch ++
     (if Hook_eqb hkL hk then ifRegistered (onList hL) [NoNode] else [])).
Proof.
  intros Hv.
  eapply enters_bind; [apply enters_call | intros _ _].
  eapply enters_bind; [eapply enters_forEach; eauto | intros _ _].
  apply enters_call.
Qed.

(** A node that honours pruning, walked without pruning. *)
Lemma node_enters hk A hkE hkL node (hE hL : option (callback Ctx S A)) v
    msgE msgL (body : Walk S unit) xs :
  enters hk body (@any unit) xs ->
  enters hk
    (bind (enterPrunable ctx hkE node hE v msgE)
       (fun prune =>
          bind (unless prune body) (fun _ => call ctx hkL node hL v msgL)))
    (@any unit)
    ((if Hook_eqb hkE hk then ifRegistered hE [node v] else []) ++
     xs ++
     (if Hook_eqb hkL hk then ifRegistered hL [node v] else [])).
Proof.
  intros Hb.
  eapply enters_bind; [apply enters_enterPrunable | intros prune <-].
  eapply enters_bind; [exact Hb | intros _ _; apply enters_call].
Qed.

Lemma visitDefinition_enters v :
  enters H_EnterDefinition (visitDefinition ctx h v) (@any unit)
    (ifRegistered (EnterDefinition h) [NDefinition v]).
Proof.
  unfold visitDefinition.
  eapply enters_eq.
  - apply node_enters.
    eapply enters_absent; [apply definition_body_within|].
    now apply not_among.
  - simpl. now rewrite app_nil_r.
Qed.

Lemma visitDefinitionList_enters ch :
  enters H_EnterDefinition (visitDefinitionList ctx h ch) (@any unit)
    (ifRegistered (EnterDefinition h) (map NDefinition ch)).
Proof.
  unfold visitDefinitionList.
  destruct (_ =? _)%nat eqn:E.
  - destruct ch; [|discriminate]. eapply enters_eq.
    + eapply enters_any, enters_ret.
    + now destruct (EnterDefinition h).
  - eapply enters_eq.
    + apply list_enters. intros v _. apply visitDefinition_enters.
    + simpl. rewrite app_nil_r.
      now rewrite ifRegistered_flat_map, flat_map_singleton.
Qed.

Lemma visitDirectiveList_enters ch :
  enters H_EnterDirective (visitDirectiveList ctx h ch) (@any unit)
    (ifRegistered (EnterDirective h) (map NDirective ch)).
Proof.
  unfold visitDirectiveList.
  destruct (_ =? _)%nat eqn:E.
  - destruct ch; [|discriminate]. eapply enters_eq.
    + eapply enters_any, enters_ret.
    + now destruct (EnterDirective h).
  - eapply enters_eq.
    + apply list_enters. intros v _. apply leaf_enters.
    + simpl. rewrite app_nil_r.
      apply elements_entered.
Qed.

Lemma visitObjectFieldDefinitionList_enters ch :
  enters H_EnterObjectFieldDefinition
    (visitObjectFieldDefinitionList ctx h ch) (@any unit)
    (ifRegistered (EnterObjectFieldDefinition h)
       (map NObjectFieldDefinition ch)).
Proof.
  unfold visitObjectFieldDefinitionList.
  destruct (_ =? _)%nat eqn:E.
  - destruct ch; [|discriminate]. eapply enters_eq.
    + eapply enters_any, enters_ret.
    + now destruct (EnterObjectFieldDefinition h).
  - eapply enters_eq.
    + apply list_enters. intros v _. apply leaf_enters.
    + simpl. rewrite app_nil_r.
      apply elements_entered.
Qed.

Lemma visitInputFieldDefinitionList_enters ch :
  enters H_EnterInputFieldDefinition
    (visitInputFieldDefinitionList ctx h ch) (@any unit)
    (ifRegistered (EnterInputFieldDefinition h)
       (map NInputFieldDefinition ch)).
Proof.
  unfold visitInputFieldDefinitionList.
  eapply enters_eq.
  - eapply enters_bind; [apply enters_enterPrunable | intros prune <-].
    eapply enters_bind; [|intros _ _; apply enters_call].
    eapply enters_forEach. intros v _. apply leaf_enters.
  - simpl. rewrite app_nil_r.
    apply elements_entered.
Qed.

Lemma visitInterfaceDefinition_enters v :
  enters H_EnterInterfaceFieldDefinition
    (visitInterfaceDefinition ctx h v) (@any unit)
    (ifRegistered (EnterInterfaceFieldDefinition h)
       (map NInterfaceFieldDefinition (iface_Fields v))).
Proof.
  unfold visitInterfaceDefinition.
  eapply enters_eq.
  - apply node_enters.
    eapply enters_forEach. intros f _. apply leaf_enters.
  - simpl. rewrite app_nil_r.
    apply elements_entered.
Qed.

Lemma visitSelectionList_enters_if ch :
  Forall (fun v =>
            enters H_EnterSelection (visitSelection ctx h v) (@any unit)
              (ifRegistered (EnterSelection h) (map NSelection (preorder v))))
    ch ->
  enters H_EnterSelection (visitSelectionList ctx h ch) (@any unit)
    (ifRegistered (EnterSelection h)
       (map NSelection (flat_map preorder ch))).
Proof.
  intros HF. rewrite visitSelectionList_eq.
  destruct (_ =? _)%nat eqn:E.
  - destruct ch; [|discriminate]. eapply enters_eq.
    + eapply enters_any, enters_ret.
    + now destruct (EnterSelection h).
  - eapply enters_eq.
    + apply list_enters. intros v Hv. rewrite Forall_forall in HF.
      apply (HF v Hv).
    + simpl. rewrite app_nil_r, ifRegistered_flat_map. f_equal.
      apply flat_map_map.
Qed.

Lemma preorder_eq v : preorder v = v :: flat_map preorder (nested v).
Proof. destruct v as [[]| |[]|]; reflexivity. Qed.

Lemma visitSelection_enters v :
  enters H_EnterSelection (visitSelection ctx h v) (@any unit)
    (ifRegistered (EnterSelection h) (map NSelection (preorder v))).
Proof.
  induction v as [v IH] using Selection_nested_ind.
  rewrite visitSelection_eq, preorder_eq.
  eapply enters_eq.
  - apply node_enters with
      (xs := ifRegistered (EnterSelection h)
               (map NSelection (flat_map preorder (nested v)))).
    destruct v as [f|f|f|dyn]; simpl in IH |- *.
    + apply enters_wrap. rewrite visitSelectionField_eq.
      eapply enters_eq.
      * apply node_enters. eapply enters_bind.
        -- apply enters_wrap.
           eapply enters_absent; [apply visitDirectiveList_within|].
           now apply not_among.
        -- intros _ _. apply enters_wrap.
           apply visitSelectionList_enters_if, IH.
      * simpl. now rewrite app_nil_r.
    + apply enters_wrap. eapply enters_eq; [apply leaf_enters|].
      now destruct (EnterSelection h).
    + apply enters_wrap. rewrite visitInlineFragment_eq.
      eapply enters_eq.
      * apply node_enters. eapply enters_bind.
        -- apply enters_wrap.
           eapply enters_absent; [apply visitDirectiveList_within|].
           now apply not_among.
        -- intros _ _. apply enters_wrap.
           apply visitSelectionList_enters_if, IH.
      * simpl. now rewrite app_nil_r.
    + apply enters_fail.
  - simpl. rewrite app_nil_r. now destruct (EnterSelection h).
Qed.

Lemma visitSelectionList_enters ch :
  enters H_EnterSelection (visitSelectionList ctx h ch) (@any unit)
    (ifRegistered (EnterSelection h)
       (map NSelection (flat_map preorder ch))).
Proof.
  apply visitSelectionList_enters_if. apply Forall_forall.
  intros v _. apply visitSelection_enters.
Qed.

End Ordered.



Lemma ifRegistered_onList Ctx S B (h : option (listCallback Ctx S)) (l : list B) :
  ifRegistered (onList h) l = ifRegistered h l.
Proof. now destruct h. Qed.

Section SchemaWalk.

Variables Ctx S : Type.
Variable ctx : Ctx.
Variable h : Handler Ctx S.

Lemma visitObjectFieldDefinitionList_within_fields ch :
  within (among objectFieldHooks) (visitObjectFieldDefinitionList ctx h ch).
Proof. unfold visitObjectFieldDefinitionList. reach. Qed.


Lemma visitDefinition_object_enters hk d :
  ~ among objectFieldHooks hk ->
  enters hk (visitDefinition ctx h (DefObject d)) (@any unit)
    (objectFires h hk d).
Proof.
  intros Hn. unfold visitDefinition, objectFires, fires.
  apply node_enters. apply enters_wrap.
  unfold visitObjectDefinition. eapply enters_eq.
  - apply node_enters. apply enters_wrap.
    eapply enters_absent; [apply visitObjectFieldDefinitionList_within_fields|].
    exact Hn.
  - reflexivity.
Qed.

Lemma visitSchema_enters hk v q :
  ~ among objectFieldHooks hk ->
  schema_Query v = Some q ->
  enters hk (visitSchema ctx h v) (@any unit)
    (fires H_EnterSchema hk (EnterSchema h) (NSchema v) ++
     (fires H_EnterDefinitionList hk (EnterDefinitionList h) NoNode ++
      flat_map (objectFires h hk) (schema_Types v ++ [q]) ++
      fires H_LeaveDefinitionList hk (LeaveDefinitionList h) NoNode) ++
     fires H_LeaveSchema hk (LeaveSchema h) (NSchema v)).
Proof.
  intros Hn Hq. unfold visitSchema, fires.
  apply node_enters. apply enters_wrap.
  unfold visitDefinitionList, schemaComponents, queryDefinition.
  rewrite Hq.
  change [DefObject q] with (map DefObject [q]). rewrite <- map_app.
  rewrite length_zero_nil.
  2:{ intros E. apply (f_equal (@List.length _)) in E.
      rewrite length_map, length_app in E. simpl in E. lia. }
  eapply enters_eq.
  - apply list_enters with
      (F := fun v => match v with DefObject d => objectFires h hk d | _ => [] end).
    intros d Hd. apply in_map_iff in Hd as [o [<- _]].
    now apply visitDefinition_object_enters.
  - rewrite !ifRegistered_onList. f_equal. f_equal.
    now rewrite flat_map_concat_map, map_map, <- flat_map_concat_map.
Qed.

End SchemaWalk.

(** What the walk of a schema hands to two of the callbacks. *)
Lemma objects_entered_as_definitions Ctx S (h : Handler Ctx S) v l :
  fires H_EnterSchema H_EnterDefinition (EnterSchema h) (NSchema v) ++
  (fires H_EnterDefinitionList H_EnterDefinition (EnterDefinitionList h)
     NoNode ++
   flat_map (objectFires h H_EnterDefinition) l ++
   fires H_LeaveDefinitionList H_EnterDefinition (LeaveDefinitionList h)
     NoNode) ++
  fires H_LeaveSchema H_EnterDefinition (LeaveSchema h) (NSchema v) =
  ifRegistered (EnterDefinition h) (map NDefinition (map DefObject l)).
Proof.
  unfold fires, objectFires, fires. simpl. rewrite !app_nil_r.
  rewrite map_map. apply elements_entered.
Qed.

Lemma objects_entered Ctx S (h : Handler Ctx S) v l :
  fires H_EnterSchema H_EnterObjectDefinition (EnterSchema h) (NSchema v) ++
  (fires H_EnterDefinitionList H_EnterObjectDefinition
     (EnterDefinitionList h) NoNode ++
   flat_map (objectFires h H_EnterObjectDefinition) l ++
   fires H_LeaveDefinitionList H_EnterObjectDefinition
     (LeaveDefinitionList h) NoNode) ++
  fires H_LeaveSchema H_EnterObjectDefinition (LeaveSchema h) (NSchema v) =
  ifRegistered (EnterObjectDefinition h) (map NObjectDefinition l).
Proof.
  unfold fires, objectFires, fires. simpl. rewrite !app_nil_r.
  rewrite <- elements_entered. apply flat_map_ext.
  intros d. now rewrite !app_nil_r.
Qed.

Lemma objects_left Ctx S (h : Handler Ctx S) v l :
  fires H_EnterSchema H_LeaveObjectDefinition (EnterSchema h) (NSchema v) ++
  (fires H_EnterDefinitionList H_LeaveObjectDefinition
     (EnterDefinitionList h) NoNode ++
   flat_map (objectFires h H_LeaveObjectDefinition) l ++
   fires H_LeaveDefinitionList H_LeaveObjectDefinition
     (LeaveDefinitionList h) NoNode) ++
  fires H_LeaveSchema H_LeaveObjectDefinition (LeaveSchema h) (NSchema v) =
  ifRegistered (LeaveObjectDefinition h) (map NObjectDefinition l).
Proof.
  unfold fires, objectFires, fires. simpl. rewrite !app_nil_r.
  rewrite <- elements_entered. apply flat_map_ext.
  intros d. now rewrite !app_nil_r.
Qed.

Lemma objects_left_as_definitions Ctx S (h : Handler Ctx S) v l :
  fires H_EnterSchema H_LeaveDefinition (EnterSchema h) (NSchema v) ++
  (fires H_EnterDefinitionList H_LeaveDefinition (EnterDefinitionList h)
     NoNode ++
   flat_map (objectFires h H_LeaveDefinition) l ++
   fires H_LeaveDefinitionList H_LeaveDefinition (LeaveDefinitionList h)
     NoNode) ++
  fires H_LeaveSchema H_LeaveDefinition (LeaveSchema h) (NSchema v) =
  ifRegistered (LeaveDefinition h) (map NDefinition (map DefObject l)).
Proof.
  unfold fires, objectFires, fires. simpl. rewrite !app_nil_r.
  rewrite map_map, <- elements_entered. apply flat_map_ext.
  intros d. now rewrite !app_nil_r.
Qed.

Lemma flat_map_nil A B (l : list A) : flat_map (fun _ => @nil B) l = [].
Proof. induction l; simpl; auto. Qed.

Lemma definition_list_entered Ctx S (h : Handler Ctx S) v l :
  fires H_EnterSchema H_EnterDefinitionList (EnterSchema h) (NSchema v) ++
  (fires H_EnterDefinitionList H_EnterDefinitionList
     (EnterDefinitionList h) NoNode ++
   flat_map (objectFires h H_EnterDefinitionList) l ++
   fires H_LeaveDefinitionList H_EnterDefinitionList
     (LeaveDefinitionList h) NoNode) ++
  fires H_LeaveSchema H_EnterDefinitionList (LeaveSchema h) (NSchema v) =
  ifRegistered (EnterDefinitionList h) [NoNode].
Proof.
  unfold fires, objectFires, fires. simpl.
  now rewrite flat_map_nil, !app_nil_r.
Qed.

Lemma definition_list_left Ctx S (h : Handler Ctx S) v l :
  fires H_EnterSchema H_LeaveDefinitionList (EnterSchema h) (NSchema v) ++
  (fires H_EnterDefinitionList H_LeaveDefinitionList
     (EnterDefinitionList h) NoNode ++
   flat_map (objectFires h H_LeaveDefinitionList) l ++
   fires H_LeaveDefinitionList H_LeaveDefinitionList
     (LeaveDefinitionList h) NoNode) ++
  fires H_LeaveSchema H_LeaveDefinitionList (LeaveSchema h) (NSchema v) =
  ifRegistered (LeaveDefinitionList h) [NoNode].
Proof.
  unfold fires, objectFires, fires. simpl.
  now rewrite flat_map_nil, !app_nil_r.
Qed.

(** Around a non-empty directive list or object field list, walked to
    its end, each list callback is invoked once. *)
Lemma guarded_lists_bracketed_once Ctx S (ctx : Ctx) (h : Handler Ctx S) s :
  (forall ch,
     ch <> [] -> completes (visitDirectiveList ctx h ch s) ->
     nodesOf H_EnterDirectiveList (emitted (visitDirectiveList ctx h ch s)) =
       ifRegistered (EnterDirectiveList h) [NoNode] /\
     nodesOf H_LeaveDirectiveList (emitted (visitDirectiveList ctx h ch s)) =
       ifRegistered (LeaveDirectiveList h) [NoNode]) /\
  (forall ch,
     ch <> [] -> completes (visitObjectFieldDefinitionList ctx h ch s) ->
     nodesOf H_EnterObjectFieldDefinitionList
       (emitted (visitObjectFieldDefinitionList ctx h ch s)) =
       ifRegistered (EnterObjectFieldDefinitionList h) [NoNode] /\
     nodesOf H_LeaveObjectFieldDefinitionList
       (emitted (visitObjectFieldDefinitionList ctx h ch s)) =
       ifRegistered (LeaveObjectFieldDefinitionList h) [NoNode]).
Proof.
  assert (Hd : forall hk ch, ch <> [] ->
            enters hk (visitDirectiveList ctx h ch) (@any unit)
              (fires H_EnterDirectiveList hk (EnterDirectiveList h) NoNode ++
               flat_map
                 (fun v =>
                    fires H_EnterDirective hk (EnterDirective h)
                      (NDirective v) ++
                    fires H_LeaveDirective hk (LeaveDirective h)
                      (NDirective v)) ch ++
               fires H_LeaveDirectiveList hk (LeaveDirectiveList h) NoNode)).
  { intros hk ch Hne. unfold visitDirectiveList, fires.
    rewrite (length_zero_nil Hne), <- !ifRegistered_onList.
    apply list_enters. intros v _. apply leaf_enters. }
  assert (Hf : forall hk ch, ch <> [] ->
            enters hk (visitObjectFieldDefinitionList ctx h ch) (@any unit)
              (fires H_EnterObjectFieldDefinitionList hk
                 (EnterObjectFieldDefinitionList h) NoNode ++
               flat_map
                 (fun v =>
                    fires H_EnterObjectFieldDefinition hk
                      (EnterObjectFieldDefinition h)
                      (NObjectFieldDefinition v) ++
                    fires H_LeaveObjectFieldDefinition hk
                      (LeaveObjectFieldDefinition h)
                      (NObjectFieldDefinition v)) ch ++
               fires H_LeaveObjectFieldDefinitionList hk
                 (LeaveObjectFieldDefinitionList h) NoNode)).
  { intros hk ch Hne. unfold visitObjectFieldDefinitionList, fires.
    rewrite (length_zero_nil Hne), <- !ifRegistered_onList.
    apply list_enters. intros v _. apply leaf_enters. }
  split; intros ch Hne [Ho Hquiet]; split.
  - destruct (Hd H_EnterDirectiveList ch Hne s tt Ho Hquiet) as [_ E].
    rewrite E. unfold fires. simpl. now rewrite flat_map_nil, app_nil_r.
  - destruct (Hd H_LeaveDirectiveList ch Hne s tt Ho Hquiet) as [_ E].
    rewrite E. unfold fires. simpl. now rewrite flat_map_nil.
  - destruct (Hf H_EnterObjectFieldDefinitionList ch Hne s tt Ho Hquiet)
      as [_ E].
    rewrite E. unfold fires. simpl. now rewrite flat_map_nil, app_nil_r.
  - destruct (Hf H_LeaveObjectFieldDefinitionList ch Hne s tt Ho Hquiet)
      as [_ E].
    rewrite E. unfold fires. simpl. now rewrite flat_map_nil.
Qed.

(** [visitSchemaQuery] does invoke the schema-query callbacks; it is
    only that nothing calls it. *)
Lemma visitSchemaQuery_fires :
  let x := visitSchemaQuery tt (probe everyHook noError) objectQuery [] in
  nodesOf H_EnterSchemaQuery (emitted x) = [NObjectDefinition objectQuery] /\
  nodesOf H_LeaveSchemaQuery (emitted x) = [NObjectDefinition objectQuery].
Proof. cbv zeta. split; vm_compute; reflexivity. Qed.

(* ================================================================== *)
(** * The traversal protocol *)
(* ================================================================== *)

Ltac skip_children :=
  let v := fresh "v" in let s := fresh "s" in let s1 := fresh "s1" in
  let hfunc := fresh "hfunc" in let p := fresh "p" in
  let He := fresh "He" in let Hc := fresh "Hc" in let Hp := fresh "Hp" in
  unfold skipsChildren;
  intros v s s1 hfunc p He Hc Hp; cbv zeta;
  try rewrite visitSelection_eq;
  try rewrite visitSelectionField_eq;
  try rewrite visitInlineFragment_eq;
  unfold visitSchema, visitDocument, visitDefinition,
    visitOperationDefinition, visitFragmentDefinition,
    visitObjectDefinition, visitInterfaceDefinition, visitInputDefinition,
    enterPrunable, call, bind, invoke;
  rewrite He, Hc; cbn [isPruneError]; rewrite Hp; cbn [unless ret];
  match goal with
  | |- match ?leave with _ => _ end =>
      let lfunc := fresh "lfunc" in
      destruct leave as [lfunc|]; [|reflexivity];
      eexists; destruct (lfunc _ v s1) as [? [?|]]; reflexivity
  end.

Ltac ignore_pruner :=
  let v := fresh "v" in let s := fresh "s" in let s1 := fresh "s1" in
  let hfunc := fresh "hfunc" in let e := fresh "e" in
  let He := fresh "He" in let Hc := fresh "Hc" in
  unfold ignoresPruner;
  intros v s s1 hfunc e He Hc;
  unfold visitDirective, visitFragmentSpread, visitObjectFieldDefinition,
    visitInterfaceFieldDefinition, visitEnumDefinition, visitUnionDefinition,
    visitInputFieldDefinition, call, bind, invoke;
  rewrite He, Hc; eexists; reflexivity.

Section Protocol.

Variables Ctx S : Type.
Variable ctx : Ctx.
Variable h : Handler Ctx S.

(** The other visitors of nodes without descent treat the error of the
    entering callback the way [visitDirective] does. *)
Lemma leaf_visitors_fail_on_any_enter_error :
  ignoresPruner ctx (visitFragmentSpread ctx h) H_EnterFragmentSpread
    NFragmentSpread (EnterFragmentSpread h) /\
  ignoresPruner ctx (visitObjectFieldDefinition ctx h)
    H_EnterObjectFieldDefinition NObjectFieldDefinition
    (EnterObjectFieldDefinition h) /\
  ignoresPruner ctx (visitInterfaceFieldDefinition ctx h)
    H_EnterInterfaceFieldDefinition NInterfaceFieldDefinition
    (EnterInterfaceFieldDefinition h) /\
  ignoresPruner ctx (visitEnumDefinition ctx h) H_EnterEnumDefinition
    NEnumDefinition (EnterEnumDefinition h) /\
  ignoresPruner ctx (visitUnionDefinition ctx h) H_EnterUnionDefinition
    NUnionDefinition (EnterUnionDefinition h) /\
  ignoresPruner ctx (visitInputFieldDefinition ctx h)
    H_EnterInputFieldDefinition NInputFieldDefinition
    (EnterInputFieldDefinition h).
Proof. repeat split; ignore_pruner. Qed.

(** C1, as amended.  For a node of a kind that has a descent (schema,
    document, definition, operation definition, fragment definition,
    selection, selection field, inline fragment, object definition,
    interface definition, input definition): if its entering callback is
    registered and returns an error whose [Prune()] is true, the visit
    invokes nothing but that callback and then the leaving callback, once,
    if one is registered; no child is visited and the visit returns what
    the leaving callback returns, so that the walk goes on when it returns
    nil.  For a directive the error returned by [EnterDirective] is not
    tested for [Pruner]: the visit fails with it, wrapped, and
    [LeaveDirective] is not invoked. *)
Theorem prune_skips_children_where_there_is_a_descent :
  (skipsChildren ctx (visitSchema ctx h) H_EnterSchema H_LeaveSchema
     NSchema (EnterSchema h) (LeaveSchema h) /\
   skipsChildren ctx (visitDocument ctx h) H_EnterDocument H_LeaveDocument
     NDocument (EnterDocument h) (LeaveDocument h) /\
   skipsChildren ctx (visitDefinition ctx h) H_EnterDefinition
     H_LeaveDefinition NDefinition (EnterDefinition h) (LeaveDefinition h) /\
   skipsChildren ctx (visitOperationDefinition ctx h)
     H_EnterOperationDefinition H_LeaveOperationDefinition
     NOperationDefinition
     (EnterOperationDefinition h) (LeaveOperationDefinition h) /\
   skipsChildren ctx (visitFragmentDefinition ctx h)
     H_EnterFragmentDefinition H_LeaveFragmentDefinition
     NFragmentDefinition
     (EnterFragmentDefinition h) (LeaveFragmentDefinition h) /\
   skipsChildren ctx (visitSelection ctx h) H_EnterSelection
     H_LeaveSelection NSelection (EnterSelection h) (LeaveSelection h) /\
   skipsChildren ctx (visitSelectionField ctx h) H_EnterSelectionField
     H_LeaveSelectionField NSelectionField
     (EnterSelectionField h) (LeaveSelectionField h) /\
   skipsChildren ctx (visitInlineFragment ctx h) H_EnterInlineFragment
     H_LeaveInlineFragment NInlineFragment
     (EnterInlineFragment h) (LeaveInlineFragment h) /\
   skipsChildren ctx (visitObjectDefinition ctx h) H_EnterObjectDefinition
     H_LeaveObjectDefinition NObjectDefinition
     (EnterObjectDefinition h) (LeaveObjectDefinition h) /\
   skipsChildren ctx (visitInterfaceDefinition ctx h)
     H_EnterInterfaceDefinition H_LeaveInterfaceDefinition
     NInterfaceDefinition
     (EnterInterfaceDefinition h) (LeaveInterfaceDefinition h) /\
   skipsChildren ctx (visitInputDefinition ctx h) H_EnterInputDefinition
     H_LeaveInputDefinition NInputDefinition
     (EnterInputDefinition h) (LeaveInputDefinition h))
  /\
  ignoresPruner ctx (visitDirective ctx h) H_EnterDirective NDirective
    (EnterDirective h).
Proof.
  split.
  - repeat split; skip_children.
  - ignore_pruner.
Qed.

(** C2.  If, anywhere in a walk, a callback returns an error that is not
    a [Pruner], it is the last callback the walk invokes (so neither the
    leaving callback of that node nor any callback of its children, of
    its remaining siblings or of a later definition or selection fires),
    and [Visit] returns that error under one or more [errors.Wrap], the
    error itself being the cause. *)
Theorem fatal_error_ends_walk (root : Root) (s : S)
    (pre post : list Event) (ev : Event) (e : error) :
  emitted (Visit ctx h root s) = pre ++ ev :: post ->
  ev_result ev = Some e ->
  isPruneError e = None ->
  post = [] /\
  exists err,
    returned (outcome (Visit ctx h root s)) = Some err /\
    wraps e err /\ Cause err = Cause e.
Proof.
  intros He Hr Hp.
  edestruct aborted_last as [Hpost [err [Ho Hw]]];
    [apply (Visit_aborting ctx h root s) | exact He | exact Hr | exact Hp |].
  split; [exact Hpost|]. exists err. rewrite Ho. simpl.
  repeat split; auto using wraps_Cause.
Qed.

(** C7.  Handed a root that is neither a document nor a schema, [Visit]
    returns the invalid-input-type error at once: no callback is invoked
    and the callbacks' state is untouched. *)
Theorem Visit_invalid_input_type (dyn : string) (s : S) :
  Visit ctx h (RootOther dyn) s =
  (s, [], Failed (ErrorString ("invalid input type for visit: " ++ dyn))).
Proof. reflexivity. Qed.

(** C8.  Whatever variable definitions an operation definition declares,
    visiting it invokes no callback but its own two and those of the walk
    of its selections (selection lists, selections, selection fields,
    fragment spreads, inline fragments, and the directives of these):
    [Handler] has no callback for variable definitions, and the visit
    descends into [Selections()] only. *)
Theorem operation_walk_reaches_selections_only
    (v : OperationDefinition) (s : S) :
  Forall (fun ev => In (ev_hook ev) operationHooks)
    (emitted (visitOperationDefinition ctx h v s)).
Proof.
  eapply Forall_impl; [|apply visitOperationDefinition_within].
  intros ev. apply among_In.
Qed.

(** C10.  Whatever the root and however the walk ends, [Visit] never
    invokes [EnterSchemaQuery] nor [LeaveSchemaQuery]; the query of a
    schema is walked as a definition instead: in a walk of a schema that
    runs to its end with no callback asking to prune, [EnterDefinition]
    and [EnterObjectDefinition], where registered, are handed the query
    last. *)
Theorem schema_query_callbacks_never_fire :
  (forall (root : Root) (s : S),
     Forall (fun ev => ev_hook ev <> H_EnterSchemaQuery /\
                       ev_hook ev <> H_LeaveSchemaQuery)
       (emitted (Visit ctx h root s))) /\
  (forall (v : Schema) (q : ObjectDefinition) (s : S),
     schema_Query v = Some q ->
     completes (Visit ctx h (RootSchema v) s) ->
     nodesOf H_EnterDefinition (emitted (Visit ctx h (RootSchema v) s)) =
       ifRegistered (EnterDefinition h)
         (map NDefinition (map DefObject (schema_Types v)) ++
          [NDefinition (DefObject q)]) /\
     nodesOf H_EnterObjectDefinition (emitted (Visit ctx h (RootSchema v) s)) =
       ifRegistered (EnterObjectDefinition h)
         (map NObjectDefinition (schema_Types v) ++ [NObjectDefinition q])).
Proof.
  split.
  - intros root s. eapply Forall_impl; [|apply Visit_within].
    intros ev Hev. apply among_In in Hev.
    split; intros E; rewrite E in Hev; simpl in Hev;
      repeat (destruct Hev as [Hev|Hev]; [discriminate|]); exact Hev.
  - intros v q s Hq [Ho Hquiet]. simpl in *. split.
    + destruct (@visitSchema_enters _ _ ctx h H_EnterDefinition v q
                  (@not_among objectFieldHooks H_EnterDefinition eq_refl) Hq s tt Ho Hquiet) as [_ E].
      rewrite E, objects_entered_as_definitions, !map_app. reflexivity.
    + destruct (@visitSchema_enters _ _ ctx h H_EnterObjectDefinition v q
                  (@not_among objectFieldHooks H_EnterObjectDefinition
                     eq_refl) Hq s tt Ho Hquiet) as [_ E].
      rewrite E, objects_entered, map_app. reflexivity.
Qed.

(** C6.  A walk of a schema whose query is set, when it runs to its end
    with no callback asking to prune, walks the other types in insertion
    order and then the query as one definition list: the definition-list
    callbacks are each invoked once, and the definition callbacks and the
    object-definition callbacks are handed every other type, in insertion
    order, and the query last. *)
Theorem schema_walks_types_then_query
    (v : Schema) (q : ObjectDefinition) (s : S) :
  schema_Query v = Some q ->
  completes (Visit ctx h (RootSchema v) s) ->
  let evs := emitted (Visit ctx h (RootSchema v) s) in
  let objects := schema_Types v ++ [q] in
  nodesOf H_EnterDefinitionList evs =
    ifRegistered (EnterDefinitionList h) [NoNode] /\
  nodesOf H_EnterDefinition evs =
    ifRegistered (EnterDefinition h) (map NDefinition (map DefObject objects)) /\
  nodesOf H_EnterObjectDefinition evs =
    ifRegistered (EnterObjectDefinition h) (map NObjectDefinition objects) /\
  nodesOf H_LeaveObjectDefinition evs =
    ifRegistered (LeaveObjectDefinition h) (map NObjectDefinition objects) /\
  nodesOf H_LeaveDefinition evs =
    ifRegistered (LeaveDefinition h) (map NDefinition (map DefObject objects)) /\
  nodesOf H_LeaveDefinitionList evs =
    ifRegistered (LeaveDefinitionList h) [NoNode].
Proof.
  intros Hq [Ho Hquiet]. simpl in *.
  assert (Hk : forall hk, existsb (Hook_eqb hk) objectFieldHooks = false ->
            nodesOf hk (emitted (visitSchema ctx h v s)) =
            fires H_EnterSchema hk (EnterSchema h) (NSchema v) ++
            (fires H_EnterDefinitionList hk (EnterDefinitionList h) NoNode ++
             flat_map (objectFires h hk) (schema_Types v ++ [q]) ++
             fires H_LeaveDefinitionList hk (LeaveDefinitionList h) NoNode) ++
            fires H_LeaveSchema hk (LeaveSchema h) (NSchema v)).
  { intros hk Hn.
    now destruct (@visitSchema_enters _ _ ctx h hk v q (not_among Hn) Hq
                    s tt Ho Hquiet). }
  repeat split; rewrite Hk by reflexivity.
  - apply definition_list_entered.
  - apply objects_entered_as_definitions.
  - apply objects_entered.
  - apply objects_left.
  - apply objects_left_as_definitions.
  - apply definition_list_left.
Qed.

(** C9.  In a walk that runs to its end with no callback asking to
    prune, the entering callback of the elements of an ordered sequence,
    where registered, is handed the elements in insertion order: the
    definitions of a definition list, the directives of a directive list,
    the fields of an object, input or interface definition, and, for a
    selection list, its selections each followed by its nested selections
    (the order of a depth-first walk). *)
Theorem elements_entered_in_insertion_order :
  (forall (ch : list Definition_) (s : S),
     completes (visitDefinitionList ctx h ch s) ->
     nodesOf H_EnterDefinition (emitted (visitDefinitionList ctx h ch s)) =
     ifRegistered (EnterDefinition h) (map NDefinition ch)) /\
  (forall (ch : list Selection) (s : S),
     completes (visitSelectionList ctx h ch s) ->
     nodesOf H_EnterSelection (emitted (visitSelectionList ctx h ch s)) =
     ifRegistered (EnterSelection h)
       (map NSelection (flat_map preorder ch))) /\
  (forall (ch : list Directive) (s : S),
     completes (visitDirectiveList ctx h ch s) ->
     nodesOf H_EnterDirective (emitted (visitDirectiveList ctx h ch s)) =
     ifRegistered (EnterDirective h) (map NDirective ch)) /\
  (forall (ch : list ObjectFieldDefinition) (s : S),
     completes (visitObjectFieldDefinitionList ctx h ch s) ->
     nodesOf H_EnterObjectFieldDefinition
       (emitted (visitObjectFieldDefinitionList ctx h ch s)) =
     ifRegistered (EnterObjectFieldDefinition h)
       (map NObjectFieldDefinition ch)) /\
  (forall (ch : list InputFieldDefinition) (s : S),
     completes (visitInputFieldDefinitionList ctx h ch s) ->
     nodesOf H_EnterInputFieldDefinition
       (emitted (visitInputFieldDefinitionList ctx h ch s)) =
     ifRegistered (EnterInputFieldDefinition h)
       (map NInputFieldDefinition ch)) /\
  (forall (v : InterfaceDefinition) (s : S),
     completes (visitInterfaceDefinition ctx h v s) ->
     nodesOf H_EnterInterfaceFieldDefinition
       (emitted (visitInterfaceDefinition ctx h v s)) =
     ifRegistered (EnterInterfaceFieldDefinition h)
       (map NInterfaceFieldDefinition (iface_Fields v))).
Proof.
  repeat split; intros x s [Ho Hquiet].
  - now destruct (@visitDefinitionList_enters _ _ ctx h x s tt Ho Hquiet).
  - now destruct (@visitSelectionList_enters _ _ ctx h x s tt Ho Hquiet).
  - now destruct (@visitDirectiveList_enters _ _ ctx h x s tt Ho Hquiet).
  - now destruct (@visitObjectFieldDefinitionList_enters _ _ ctx h x s tt Ho Hquiet).
  - now destruct (@visitInputFieldDefinitionList_enters _ _ ctx h x s tt Ho Hquiet).
  - now destruct (@visitInterfaceDefinition_enters _ _ ctx h x s tt Ho Hquiet).
Qed.

End Protocol.

(* ================================================================== *)
(** * The protocol on particular walks *)
(* ================================================================== *)

(** C5.  Walking [query { user { id } }] with the callbacks of the
    scenario registered as loggers yields exactly the fourteen log lines
    of the scenario, and no error. *)
Theorem walk_query_user_id_log :
  let x := Visit tt (probe scenarioHooks noError)
             (RootDocument queryUserId) [] in
  final x =
    [("enter", "OperationDefinition", "");
     ("enter", "SelectionList", "");
     ("enter", "Selection", "");
     ("enter", "SelectionField", "user");
     ("enter", "SelectionList", "");
     ("enter", "Selection", "");
     ("enter", "SelectionField", "id");
     ("leave", "SelectionField", "id");
     ("leave", "Selection", "");
     ("leave", "SelectionList", "");
     ("leave", "SelectionField", "user");
     ("leave", "Selection", "");
     ("leave", "SelectionList", "");
     ("leave", "OperationDefinition", "")] /\
  returned (outcome x) = None.
Proof. cbv zeta. split; vm_compute; reflexivity. Qed.

(** C1 as first stated fails on a directive: [EnterDirective] returns
    an error whose [Prune()] is true, and the walk stops there with that
    error: [LeaveDirective] is not invoked, nor is any callback for the
    selection that follows. *)
Lemma prune_signal_at_directive_aborts_walk :
  let x := Visit tt (probe everyHook (errorAt H_EnterDirective pruneSignal))
             (RootDocument queryWithDirective) [] in
  (exists p, isPruneError pruneSignal = Some p /\ Prune p = true) /\
  final x =
    [("enter", "Document", ""); ("enter", "DefinitionList", "");
     ("enter", "Definition", ""); ("enter", "OperationDefinition", "");
     ("enter", "SelectionList", ""); ("enter", "Selection", "");
     ("enter", "SelectionField", "user"); ("enter", "DirectiveList", "");
     ("enter", "Directive", "skip")] /\
  nodesOf H_LeaveDirective (emitted x) = [] /\
  (exists err, returned (outcome x) = Some err /\ Cause err = pruneSignal).
Proof.
  cbv zeta. split; [|split; [|split]].
  - eexists. split; reflexivity.
  - vm_compute. reflexivity.
  - vm_compute. reflexivity.
  - eexists. split; vm_compute; reflexivity.
Qed.

Lemma prune_skips_children_witness :
  let h := probe everyHook (errorAt H_EnterSelectionField pruneSignal) in
  visitSelectionField tt h fieldUserSkip [] =
  ([("enter", "SelectionField", "user"); ("leave", "SelectionField", "user")],
   [mkEvent H_EnterSelectionField (NSelectionField fieldUserSkip)
      (Some pruneSignal);
    mkEvent H_LeaveSelectionField (NSelectionField fieldUserSkip) None],
   Ok tt).
Proof.
  intros h.
  pose proof (prune_skips_children_where_there_is_a_descent tt h) as H.
  destruct H as [(_ & _ & _ & _ & _ & _ & H & _) _].
  destruct (H fieldUserSkip [] _ _ _ eq_refl eq_refl eq_refl) as [msg E].
  exact E.
Defined.

Lemma fatal_error_ends_walk_witness :
  let h := probe everyHook
             (errorAt H_EnterSelectionField (ErrorString "boom")) in
  let x := Visit tt h (RootDocument queryWithDirective) [] in
  let ev := mkEvent H_EnterSelectionField (NSelectionField fieldUserSkip)
              (Some (ErrorString "boom")) in
  (emitted x = removelast (emitted x) ++ [ev] /\
   ev_result ev = Some (ErrorString "boom") /\
   isPruneError (ErrorString "boom") = None) /\
  ([] = @nil Event /\
   exists err,
     returned (outcome x) = Some err /\
     wraps (ErrorString "boom") err /\
     Cause err = Cause (ErrorString "boom")).
Proof.
  intros h x ev. split.
  - repeat split; reflexivity.
  - apply (@fatal_error_ends_walk _ _ tt h (RootDocument queryWithDirective)
             [] (removelast (emitted x)) [] ev (ErrorString "boom"));
      reflexivity.
Defined.

(** C3.  The list callbacks of an input definition fire on an empty
    field list: walking [input Empty {}] invokes
    [EnterInputFieldDefinitionList] twice and
    [LeaveInputFieldDefinitionList] never, whereas the four lists that
    test [len(ch)] stay silent when empty. *)
Theorem input_field_list_callbacks_fire_on_empty_list :
  let x := Visit tt (probe everyHook noError) (RootDocument emptyInput) [] in
  (final x =
     [("enter", "Document", ""); ("enter", "DefinitionList", "");
      ("enter", "Definition", ""); ("enter", "InputDefinition", "Empty");
      ("enter", "InputFieldDefinitionList", "");
      ("enter", "InputFieldDefinitionList", "");
      ("leave", "InputDefinition", "Empty"); ("leave", "Definition", "");
      ("leave", "DefinitionList", ""); ("leave", "Document", "")] /\
   timesCalled H_EnterInputFieldDefinitionList (emitted x) = 2 /\
   timesCalled H_LeaveInputFieldDefinitionList (emitted x) = 0 /\
   returned (outcome x) = None) /\
  (forall (Ctx S : Type) (ctx : Ctx) (h : Handler Ctx S) (s : S),
     visitDefinitionList ctx h [] s = (s, [], Ok tt) /\
     visitSelectionList ctx h [] s = (s, [], Ok tt) /\
     visitDirectiveList ctx h [] s = (s, [], Ok tt) /\
     visitObjectFieldDefinitionList ctx h [] s = (s, [], Ok tt)).
Proof.
  cbv zeta. split.
  - repeat split; vm_compute; reflexivity.
  - intros. repeat split; reflexivity.
Qed.

(** C4.  Around a field list of an input definition the entering list
    callback is invoked twice, before the first field and again after the
    last, and the leaving list callback not at all: walking
    [input Point { x }] shows it, and no walk of any root ever invokes
    [LeaveInputFieldDefinitionList]. *)
Theorem input_field_list_enter_twice_leave_never :
  let x := Visit tt (probe everyHook noError) (RootDocument pointInput) [] in
  (final x =
     [("enter", "Document", ""); ("enter", "DefinitionList", "");
      ("enter", "Definition", ""); ("enter", "InputDefinition", "Point");
      ("enter", "InputFieldDefinitionList", "");
      ("enter", "InputFieldDefinition", "x");
      ("leave", "InputFieldDefinition", "x");
      ("enter", "InputFieldDefinitionList", "");
      ("leave", "InputDefinition", "Point"); ("leave", "Definition", "");
      ("leave", "DefinitionList", ""); ("leave", "Document", "")] /\
   timesCalled H_EnterInputFieldDefinitionList (emitted x) = 2 /\
   timesCalled H_LeaveInputFieldDefinitionList (emitted x) = 0 /\
   returned (outcome x) = None) /\
  (forall (Ctx S : Type) (ctx : Ctx) (h : Handler Ctx S) (root : Root) (s : S),
     timesCalled H_LeaveInputFieldDefinitionList
       (emitted (Visit ctx h root s)) = 0).
Proof.
  cbv zeta. split.
  - repeat split; vm_compute; reflexivity.
  - intros. unfold timesCalled.
    rewrite (@nodesOf_absent _ (among visitHooks)
               (emitted (Visit ctx h root s))); auto.
    + apply Visit_within.
    + now apply not_among.
Qed.

Lemma schema_walks_types_then_query_witness :
  let h := probe everyHook noError in
  let evs := emitted (Visit tt h (RootSchema blogSchema) []) in
  let objects := [objectUser; objectPost; objectQuery] in
  (schema_Query blogSchema = Some objectQuery /\
   completes (Visit tt h (RootSchema blogSchema) [])) /\
  (nodesOf H_EnterDefinitionList evs = [NoNode] /\
   nodesOf H_EnterDefinition evs = map NDefinition (map DefObject objects) /\
   nodesOf H_EnterObjectDefinition evs = map NObjectDefinition objects /\
   nodesOf H_LeaveObjectDefinition evs = map NObjectDefinition objects /\
   nodesOf H_LeaveDefinition evs = map NDefinition (map DefObject objects) /\
   nodesOf H_LeaveDefinitionList evs = [NoNode]).
Proof.
  intros h evs objects.
  assert (Hc : completes (Visit tt h (RootSchema blogSchema) [])).
  { split; [reflexivity | vm_compute; repeat constructor]. }
  split; [split; [reflexivity | exact Hc]|].
  exact (@schema_walks_types_then_query _ _ tt h blogSchema objectQuery []
           eq_refl Hc).
Defined.

Lemma elements_entered_in_insertion_order_witness :
  let h := probe everyHook noError in
  let ch := [SelField fieldUserSkip;
             SelField (mkSelectionField "posts" false "" [] [] [])] in
  completes (visitSelectionList tt h ch []) /\
  nodesOf H_EnterSelection (emitted (visitSelectionList tt h ch [])) =
  [NSelection (SelField fieldUserSkip); NSelection selectionId;
   NSelection (SelField (mkSelectionField "posts" false "" [] [] []))].
Proof.
  intros h ch.
  assert (Hc : completes (visitSelectionList tt h ch [])).
  { split; [reflexivity | vm_compute; repeat constructor]. }
  split; [exact Hc|].
  exact (proj1 (proj2 (elements_entered_in_insertion_order tt h)) ch [] Hc).
Defined.

Lemma schema_query_callbacks_never_fire_witness :
  let h := probe everyHook noError in
  let x := Visit tt h (RootSchema blogSchema) [] in
  (schema_Query blogSchema = Some objectQuery /\ completes x) /\
  timesCalled H_EnterSchemaQuery (emitted x) = 0 /\
  timesCalled H_LeaveSchemaQuery (emitted x) = 0 /\
  nodesOf H_EnterObjectDefinition (emitted x) =
    [NObjectDefinition objectUser; NObjectDefinition objectPost;
     NObjectDefinition objectQuery].
Proof.
  intros h x.
  assert (Hc : completes x).
  { split; [reflexivity | vm_compute; repeat constructor]. }
  split; [split; [reflexivity | exact Hc]|].
  destruct (schema_query_callbacks_never_fire tt h) as [Hnever Hquery].
  destruct (Hquery blogSchema objectQuery [] eq_refl Hc) as [_ Hobj].
  split; [reflexivity | split; [reflexivity | exact Hobj]].
Defined.

(* ================================================================== *)
(** * Further properties of the walk *)
(* ================================================================== *)

(* ---------------------------------------------------------------- *)
(** ** Any error that is not taken for a prune signal ends the walk *)

Lemma finalError_ok hk n : finalError (mkEvent hk n None) = false.
Proof. reflexivity. Qed.

Lemma finalError_pruner hk n e p :
  honoursPruner hk = true -> isPruneError e = Some p ->
  finalError (mkEvent hk n (Some e)) = false.
Proof. intros Hh Hp. unfold finalError. simpl. now rewrite Hp, Hh. Qed.

Lemma finalError_plain hk n e :
  isPruneError e = None -> finalError (mkEvent hk n (Some e)) = true.
Proof. intros Hp. unfold finalError. simpl. now rewrite Hp. Qed.

Section Halt.

Variables Ctx S : Type.
Variable ctx : Ctx.

Lemma halting_ret A (a : A) : halting (@ret S A a).
Proof. intros s. left. constructor. Qed.

Lemma halting_fail A err : halting (@fail S A err).
Proof. intros s. left. constructor. Qed.

Lemma halting_bind A B (m : Walk S A) (f : A -> Walk S B) :
  halting m -> (forall a, halting (f a)) -> halting (bind m f).
Proof.
  intros Hm Hf s. unfold bind. specialize (Hm s).
  destruct (m s) as [[s1 evs1] [a|err]].
  2:{ destruct Hm as [Hm | (pre & ev & e & err' & He & Hpre & Hfin & Hr & Ho & Hw)].
      - left. exact Hm.
      - right. exists pre, ev, e, err'. readout.
        repeat split; auto. congruence. }
  destruct Hm as [Hm | (pre & ev & e & err & _ & _ & _ & _ & Ho & _)];
    [|discriminate].
  specialize (Hf a s1). destruct (f a s1) as [[s2 evs2] r].
  destruct Hf as [Hf | (pre & ev & e & err & He & Hpre & Hfin & Hr & Ho & Hw)];
    readout.
  - left. readout. apply Forall_app; auto.
  - right. exists (evs1 ++ pre), ev, e, err. readout.
    repeat split; auto.
    + subst evs2. now rewrite app_assoc.
    + apply Forall_app; auto.
Qed.

Lemma halting_wrap (m : Walk S unit) msg : halting m -> halting (wrap m msg).
Proof.
  intros Hm s. unfold wrap. specialize (Hm s).
  destruct (m s) as [[s1 evs1] [a|err]]; [exact Hm|].
  destruct Hm as [Hm | (pre & ev & e & err' & He & Hpre & Hfin & Hr & Ho & Hw)].
  - left. exact Hm.
  - right. exists pre, ev, e, (Wrap err msg). readout.
    repeat split; auto. inversion Ho; subst. now apply wraps_more.
Qed.

Lemma halting_unless prune (m : Walk S unit) :
  halting m -> halting (unless prune m).
Proof. destruct prune; simpl; auto using halting_ret. Qed.

Lemma halting_forEach_Forall A (visit : A -> Walk S unit) msg ch :
  Forall (fun a => halting (visit a)) ch -> halting (forEach visit msg ch).
Proof.
  induction 1; simpl.
  - apply halting_ret.
  - apply halting_bind; auto using halting_wrap.
Qed.

Lemma halting_forEach A (visit : A -> Walk S unit) msg ch :
  (forall a, halting (visit a)) -> halting (forEach visit msg ch).
Proof.
  intros Hv. apply halting_forEach_Forall. apply Forall_forall. auto.
Qed.

Lemma halting_call A hk node (hf : option (callback Ctx S A)) v msg :
  halting (call ctx hk node hf v msg).
Proof.
  intros s. unfold call. destruct hf as [hfunc|]; [|apply halting_ret].
  unfold bind, invoke. destruct (hfunc ctx v s) as [s1 [e|]]; simpl.
  - destruct (finalError (mkEvent hk (node v) (Some e))) eqn:Hfin.
    + right. exists [], (mkEvent hk (node v) (Some e)), e, (Wrap e msg).
      readout. repeat split; auto. constructor.
    + left. readout. constructor; [exact Hfin | constructor].
  - left. readout. constructor; [apply finalError_ok | constructor].
Qed.

Lemma halting_enterPrunable A hk node (hf : option (callback Ctx S A)) v msg :
  honoursPruner hk = true ->
  halting (enterPrunable ctx hk node hf v msg).
Proof.
  intros Hh s. unfold enterPrunable.
  destruct hf as [hfunc|]; [|apply halting_ret].
  unfold bind, invoke. destruct (hfunc ctx v s) as [s1 [e|]]; simpl.
  - destruct (isPruneError e) as [p|] eqn:Hp; simpl.
    + left. readout. constructor; [|constructor].
      eapply finalError_pruner; eauto.
    + right. exists [], (mkEvent hk (node v) (Some e)), e, (Wrap e msg).
      readout. repeat split; auto using finalError_plain. constructor.
  - left. readout. constructor; [apply finalError_ok | constructor].
Qed.

Lemma halting_callList hk (hf : option (listCallback Ctx S)) msg :
  halting (callList ctx hk hf msg).
Proof. apply halting_call. Qed.

Lemma halting_enterPrunableList hk (hf : option (listCallback Ctx S)) msg :
  honoursPruner hk = true ->
  halting (enterPrunableList ctx hk hf msg).
Proof. apply halting_enterPrunable. Qed.

End Halt.

Create HintDb halts.

Ltac halt :=
  repeat first
    [ apply halting_ret
    | apply halting_fail
    | apply halting_call
    | apply halting_callList
    | apply halting_enterPrunable; [reflexivity]
    | apply halting_enterPrunableList; [reflexivity]
    | solve [auto with halts]
    | apply halting_wrap
    | apply halting_unless
    | apply halting_bind; [|intros ?]
    | apply halting_forEach_Forall; [assumption]
    | apply halting_forEach; intros ? ].

Section Halting.

Variables Ctx S : Type.
Variable ctx : Ctx.
Variable h : Handler Ctx S.

Lemma visitSelection_halting v : halting (visitSelection ctx h v).
Proof.
  induction v as [v IH] using Selection_nested_ind.
  rewrite visitSelection_eq. halt.
  destruct v as [f|f|f|dyn]; simpl in IH; halt.
  - rewrite visitSelectionField_eq. halt.
  - rewrite visitInlineFragment_eq. halt.
Qed.

Hint Resolve visitSelection_halting : halts.

Lemma visitDefinition_halting v : halting (visitDefinition ctx h v).
Proof. unfold visitDefinition. halt. destruct v; halt. Qed.

Hint Resolve visitDefinition_halting : halts.

Lemma Visit_halting v : halting (Visit ctx h v).
Proof.
  destruct v; simpl.
  - unfold visitDocument. halt.
  - unfold visitSchema. halt.
  - halt.
Qed.

Lemma visitSchemaQuery_halting v : halting (visitSchemaQuery ctx h v).
Proof. unfold visitSchemaQuery. halt. Qed.

(** Any error from a leaving callback, from a list callback that is not
    tested for [Pruner], or from the entering callback of a node without
    descent, prune signal or not, and any error that is not a [Pruner]
    from any callback: it is the last callback the walk invokes, and
    [Visit] returns the error wrapped. *)
Theorem final_error_ends_walk (root : Root) (s : S)
    (pre post : list Event) (ev : Event) :
  emitted (Visit ctx h root s) = pre ++ ev :: post ->
  finalError ev = true ->
  post = [] /\
  exists e err,
    ev_result ev = Some e /\
    returned (outcome (Visit ctx h root s)) = Some err /\
    wraps e err /\ Cause err = Cause e.
Proof.
  intros He Hfin.
  destruct (Visit_halting root s)
    as [Hx | (pre' & ev' & e' & err & He' & Hpre & Hfin' & Hr' & Ho & Hw)].
  - rewrite He in Hx. apply Forall_app in Hx as [_ Hx].
    inversion Hx; subst. congruence.
  - rewrite He in He'.
    destruct post as [|z post0] using rev_ind.
    + apply app_inj_tail in He' as [_ <-].
      split; auto. exists e', err. rewrite Ho. simpl.
      repeat split; auto using wraps_Cause.
    + clear IHpost0. exfalso.
      change (pre ++ ev :: post0 ++ [z]) with (pre ++ (ev :: post0) ++ [z]) in He'.
      rewrite app_assoc in He'. apply app_inj_tail in He' as [<- _].
      apply Forall_app in Hpre as [_ Hpre]. inversion Hpre; subst.
      congruence.
Qed.

End Halting.

(* ---------------------------------------------------------------- *)
(** ** Why a walk fails *)

Lemma knownSelection_eq v :
  knownSelection v =
  match v with
  | SelOther _ => false
  | _ => forallb knownSelection (nested v)
  end.
Proof. destruct v as [[]| |[]|]; reflexivity. Qed.

Lemma knownSelection_nested v :
  knownSelection v = true -> forallb knownSelection (nested v) = true.
Proof. rewrite knownSelection_eq. destruct v; auto. Qed.

Section Account.

Variables Ctx S : Type.
Variable ctx : Ctx.
Variable I : error -> Prop.

Lemma accounts_ret A (a : A) : accounts I (@ret S A a).
Proof. intros s err Ho. readout. discriminate. Qed.

Lemma accounts_fail A e : I (Cause e) -> accounts I (@fail S A e).
Proof. intros Hi s err Ho. readout. right. congruence. Qed.

Lemma accounts_bind A B (m : Walk S A) (f : A -> Walk S B) :
  accounts I m -> (forall a, accounts I (f a)) -> accounts I (bind m f).
Proof.
  intros Hm Hf s err. specialize (Hm s). unfold bind.
  destruct (m s) as [[s1 evs1] [a|e]]; readout.
  - specialize (Hf a s1). destruct (f a s1) as [[s2 evs2] r]. readout.
    intros Ho.
    destruct (Hf err Ho) as [(pre & ev & e & He & Hr & Hp & Hw) | Hi];
      [left | now right].
    exists (evs1 ++ pre), ev, e. subst evs2.
    rewrite app_assoc. auto.
  - intros Ho. inversion Ho; subst. apply Hm. reflexivity.
Qed.

Lemma accounts_wrap (m : Walk S unit) msg :
  accounts I m -> accounts I (wrap m msg).
Proof.
  intros Hm s err. specialize (Hm s). unfold wrap.
  destruct (m s) as [[s1 evs1] [a|e]]; readout; [discriminate|].
  intros Ho. inversion Ho; subst. simpl.
  destruct (Hm e eq_refl) as [(pre & ev & e0 & He & Hr & Hp & Hw) | Hi];
    [left | now right].
  exists pre, ev, e0. auto using wraps_more.
Qed.

Lemma accounts_unless prune (m : Walk S unit) :
  accounts I m -> accounts I (unless prune m).
Proof. destruct prune; simpl; auto using accounts_ret. Qed.

Lemma accounts_forEach_Forall A (visit : A -> Walk S unit) msg ch :
  Forall (fun a => accounts I (visit a)) ch ->
  accounts I (forEach visit msg ch).
Proof.
  induction 1; simpl.
  - apply accounts_ret.
  - apply accounts_bind; auto using accounts_wrap.
Qed.

Lemma accounts_forEach A (visit : A -> Walk S unit) msg ch :
  (forall a, accounts I (visit a)) -> accounts I (forEach visit msg ch).
Proof.
  intros Hv. apply accounts_forEach_Forall. apply Forall_forall. auto.
Qed.

Lemma accounts_call A hk node (hf : option (callback Ctx S A)) v msg :
  prunableNode hk = false ->
  accounts I (call ctx hk node hf v msg).
Proof.
  intros Hn s err. unfold call. destruct hf as [hfunc|]; [|apply accounts_ret].
  unfold bind, invoke. destruct (hfunc ctx v s) as [s1 [e|]]; readout;
    [|discriminate].
  intros Ho. inversion Ho; subst. left.
  exists [], (mkEvent hk (node v) (Some e)), e.
  repeat split; auto. constructor.
Qed.

Lemma accounts_enterPrunable A hk node (hf : option (callback Ctx S A)) v msg :
  accounts I (enterPrunable ctx hk node hf v msg).
Proof.
  intros s err. unfold enterPrunable.
  destruct hf as [hfunc|]; [|apply accounts_ret].
  unfold bind, invoke. destruct (hfunc ctx v s) as [s1 [e|]]; readout;
    [|discriminate].
  destruct (isPruneError e) eqn:Hp; readout; [discriminate|].
  intros Ho. inversion Ho; subst. left.
  exists [], (mkEvent hk (node v) (Some e)), e.
  repeat split; auto. constructor.
Qed.

Lemma accounts_callList hk (hf : option (listCallback Ctx S)) msg :
  prunableNode hk = false ->
  accounts I (callList ctx hk hf msg).
Proof. apply accounts_call. Qed.

Lemma accounts_enterPrunableList hk (hf : option (listCallback Ctx S)) msg :
  accounts I (enterPrunableList ctx hk hf msg).
Proof. apply accounts_enterPrunable. Qed.

End Account.

Create HintDb accounted.

Ltac account :=
  repeat first
    [ apply accounts_ret
    | apply accounts_call; [reflexivity]
    | apply accounts_callList; [reflexivity]
    | apply accounts_enterPrunable
    | apply accounts_enterPrunableList
    | solve [auto with accounted]
    | apply accounts_wrap
    | apply accounts_unless
    | apply accounts_bind; [|intros ?]
    | apply accounts_forEach_Forall; [assumption]
    | apply accounts_forEach; intros ? ].

Section Accounting.

Variables Ctx S : Type.
Variable ctx : Ctx.
Variable h : Handler Ctx S.
Variable I : error -> Prop.

Lemma licensed_all (l : list Selection) :
  licensed I (forallb knownSelection l) ->
  Forall (fun v => licensed I (knownSelection v)) l.
Proof.
  intros [Hk | Hi]; apply Forall_forall; intros v Hv.
  - left. rewrite forallb_forall in Hk. auto.
  - now right.
Qed.

Lemma visitSelection_accounts v :
  licensed I (knownSelection v) -> accounts I (visitSelection ctx h v).
Proof.
  induction v as [v IH] using Selection_nested_ind. intros Hl.
  assert (Hn : Forall (fun x => accounts I (visitSelection ctx h x)) (nested v)).
  { assert (Hl' : licensed I (forallb knownSelection (nested v))).
    { destruct Hl as [Hk | Hi]; [left | now right].
      now apply knownSelection_nested. }
    apply licensed_all in Hl'. rewrite Forall_forall in *. auto. }
  rewrite visitSelection_eq. account.
  destruct v as [f|f|f|dyn]; simpl in Hn; account.
  - rewrite visitSelectionField_eq. account.
  - rewrite visitInlineFragment_eq. account.
  - apply accounts_fail. destruct Hl as [Hk | Hi]; [discriminate|].
    apply Hi. exists dyn. auto.
Qed.

Lemma visitSelectionList_accounts ch :
  licensed I (forallb knownSelection ch) ->
  accounts I (visitSelectionList ctx h ch).
Proof.
  intros Hl. apply licensed_all in Hl.
  assert (Hn : Forall (fun x => accounts I (visitSelection ctx h x)) ch).
  { eapply Forall_impl; [|exact Hl]. apply visitSelection_accounts. }
  rewrite visitSelectionList_eq. account.
Qed.

Lemma visitDefinition_accounts v :
  licensed I (knownDefinition v) -> accounts I (visitDefinition ctx h v).
Proof.
  intros Hl. unfold visitDefinition.
  apply accounts_bind; [account | intros prune].
  apply accounts_bind; [apply accounts_unless | intros _; account].
  destruct v; simpl in Hl; try apply accounts_wrap.
  - unfold visitOperationDefinition.
    apply accounts_bind; [account | intros prune'].
    apply accounts_bind; [apply accounts_unless, accounts_wrap
                         | intros _; account].
    now apply visitSelectionList_accounts.
  - unfold visitFragmentDefinition.
    apply accounts_bind; [account | intros prune'].
    apply accounts_bind; [apply accounts_unless | intros _; account].
    apply accounts_bind; [account | intros _; apply accounts_wrap].
    now apply visitSelectionList_accounts.
  - unfold visitObjectDefinition. account.
  - unfold visitInterfaceDefinition. account.
  - unfold visitEnumDefinition. account.
  - unfold visitUnionDefinition. account.
  - unfold visitInputDefinition. account.
  - apply accounts_fail. destruct Hl as [Hk | Hi]; [discriminate|].
    apply Hi. exists dyn. auto.
Qed.

Lemma visitDefinitionList_accounts ch :
  licensed I (forallb knownDefinition ch) ->
  accounts I (visitDefinitionList ctx h ch).
Proof.
  intros Hl.
  assert (Hn : Forall (fun x => accounts I (visitDefinition ctx h x)) ch).
  { apply Forall_forall. intros v Hv. apply visitDefinition_accounts.
    destruct Hl as [Hk | Hi]; [left | now right].
    rewrite forallb_forall in Hk. auto. }
  unfold visitDefinitionList.
  apply accounts_unless.
  apply accounts_bind; [account | intros _].
  apply accounts_bind; [|intros _; account].
  now apply accounts_forEach_Forall.
Qed.

Lemma Visit_accounts v : licensed I (knownRoot v) -> accounts I (Visit ctx h v).
Proof.
  intros Hl. destruct v as [d|sch|dyn]; simpl in *.
  - unfold visitDocument.
    apply accounts_bind; [account | intros prune].
    apply accounts_bind; [apply accounts_unless, accounts_wrap
                         | intros _; account].
    now apply visitDefinitionList_accounts.
  - unfold visitSchema.
    apply accounts_bind; [account | intros prune].
    apply accounts_bind; [apply accounts_unless, accounts_wrap
                         | intros _; account].
    apply visitDefinitionList_accounts.
    destruct Hl as [Hk | Hi]; [left | now right].
    unfold schemaComponents, queryDefinition.
    destruct (schema_Query sch) as [q|]; [|discriminate].
    rewrite forallb_app. simpl. rewrite andb_true_r.
    apply forallb_forall. intros x Hx.
    apply in_map_iff in Hx as [d [<- _]]. reflexivity.
  - apply accounts_fail. destruct Hl as [Hk | Hi]; [discriminate|].
    apply Hi. exists dyn. auto.
Qed.

End Accounting.

Section Failure.

Variables Ctx S : Type.
Variable ctx : Ctx.
Variable h : Handler Ctx S.

(** [Visit] fails for one of two reasons only: the last callback it
    invoked returned an error, which comes back wrapped (and an error
    that is a [Pruner] never comes back from the entering callback of a
    node with a descent); or the tree
    holds a value of a kind the package does not know (or the root is
    neither a document nor a schema), and the cause of the error is the
    one [errors.Errorf] made for it. *)
Theorem failure_has_a_cause (root : Root) (s : S) (err : error) :
  returned (outcome (Visit ctx h root s)) = Some err ->
  blamed (emitted (Visit ctx h root s)) err \/ internalError (Cause err).
Proof.
  intros Ho. apply (@Visit_accounts _ _ ctx h internalError root).
  - right. auto.
  - destruct (outcome (Visit ctx h root s)); simpl in Ho; congruence.
Qed.

(** On a document whose definitions and selections are all of known
    kinds, or a schema whose query is set, [Visit] fails only when the
    last callback it invoked returned an error, and then returns that
    error wrapped; if no callback returns an error, it returns nil. *)
Theorem known_kinds_fail_only_by_callback (root : Root) (s : S) :
  knownRoot root = true ->
  match returned (outcome (Visit ctx h root s)) with
  | Some err => blamed (emitted (Visit ctx h root s)) err
  | None => True
  end /\
  (Forall (fun ev => ev_result ev = None) (emitted (Visit ctx h root s)) ->
   returned (outcome (Visit ctx h root s)) = None).
Proof.
  intros Hk.
  assert (Hb : forall err, outcome (Visit ctx h root s) = Failed err ->
                 blamed (emitted (Visit ctx h root s)) err).
  { intros err Ho.
    destruct (@Visit_accounts _ _ ctx h (fun _ => False) root
                (or_introl Hk) s err Ho) as [Hb | []].
    exact Hb. }
  split.
  - destruct (outcome (Visit ctx h root s)) as [u|err]; simpl; auto.
  - intros Hnone.
    destruct (outcome (Visit ctx h root s)) as [u|err]; simpl; auto.
    destruct (Hb err eq_refl) as (pre & ev & e & He & Hr & _ & _).
    rewrite He in Hnone. apply Forall_app in Hnone as [_ Hnone].
    inversion Hnone; subst. congruence.
Qed.

End Failure.

(* ---------------------------------------------------------------- *)
(** ** What a completed walk shows about the tree *)

Section Certify.

Variables Ctx S : Type.
Variable ctx : Ctx.

Lemma bind_completes A B (m : Walk S A) (f : A -> Walk S B) s b :
  outcome (bind m f s) = Ok b -> quiet (bind m f s) ->
  exists a,
    outcome (m s) = Ok a /\ quiet (m s) /\
    outcome (f a (final (m s))) = Ok b /\ quiet (f a (final (m s))).
Proof.
  unfold bind, quiet. destruct (m s) as [[s1 evs1] [a|e]]; readout;
    [|discriminate].
  destruct (f a s1) as [[s2 evs2] r] eqn:E. readout.
  intros Ho Hq. apply Forall_app in Hq as [Hq1 Hq2].
  exists a. rewrite E. readout. auto.
Qed.

Lemma certifies_weaken A (m : Walk S A) (K K' : Prop) :
  (K -> K') -> certifies m K -> certifies m K'.
Proof. intros HK Hm s a Ho Hq. eauto. Qed.

Lemma certifies_true A (m : Walk S A) : certifies m True.
Proof. intros s a _ _. exact I. Qed.

Lemma certifies_fail A err K : certifies (@fail S A err) K.
Proof. intros s a Ho. readout. discriminate. Qed.

Lemma certifies_bind A B (m : Walk S A) (f : A -> Walk S B) (K1 K2 : Prop) :
  certifies m K1 -> (forall a, certifies (f a) K2) ->
  certifies (bind m f) (K1 /\ K2).
Proof.
  intros Hm Hf s b Ho Hq.
  destruct (bind_completes _ _ _ Ho Hq) as (a & Ho1 & Hq1 & Ho2 & Hq2).
  split; [exact (Hm s a Ho1 Hq1) | exact (Hf a (final (m s)) b Ho2 Hq2)].
Qed.

Lemma certifies_wrap (m : Walk S unit) msg K :
  certifies m K -> certifies (wrap m msg) K.
Proof.
  intros Hm s a Ho Hq. specialize (Hm s). unfold wrap, quiet in *.
  destruct (m s) as [[s1 evs1] [u|e]]; readout; [eauto | discriminate].
Qed.

(** A node that honours pruning, walked without pruning, has run the
    descent. *)
Lemma certifies_node A hkE hkL node (hE hL : option (callback Ctx S A)) v
    msgE msgL (body : Walk S unit) K :
  certifies body K ->
  certifies
    (bind (enterPrunable ctx hkE node hE v msgE)
       (fun prune =>
          bind (unless prune body) (fun _ => call ctx hkL node hL v msgL)))
    K.
Proof.
  intros Hb s u Ho Hq.
  destruct (bind_completes _ _ _ Ho Hq) as (prune & Ho1 & Hq1 & Ho2 & Hq2).
  destruct (@enters_enterPrunable _ _ ctx hkE _ hkE node hE v msgE s prune
              Ho1 Hq1) as [<- _].
  destruct (bind_completes _ _ _ Ho2 Hq2) as (u' & Ho3 & Hq3 & _ & _).
  simpl in Ho3, Hq3. eauto.
Qed.

Lemma certifies_forEach A (visit : A -> Walk S unit) msg ch (K : A -> Prop) :
  (forall a, In a ch -> certifies (visit a) (K a)) ->
  certifies (forEach visit msg ch) (Forall K ch).
Proof.
  induction ch as [|e rest IH]; intros Hv; simpl.
  - intros s a _ _. constructor.
  - eapply certifies_weaken;
      [|apply certifies_bind with (K1 := K e) (K2 := Forall K rest)].
    + intros [H1 H2]. now constructor.
    + apply certifies_wrap. apply Hv. now left.
    + intros _. apply IH. intros a Ha. apply Hv. now right.
Qed.

(** A list with callbacks of its own, empty or not. *)
Lemma certifies_list A (visit : A -> Walk S unit) hkE hkL
    (hE hL : option (listCallback Ctx S)) msgE msg msgL ch (K : A -> Prop) :
  (forall a, In a ch -> certifies (visit a) (K a)) ->
  certifies
    (if (List.length ch =? 0)%nat then ret tt else
     bind (callList ctx hkE hE msgE)
       (fun _ => bind (forEach visit msg ch)
                   (fun _ => callList ctx hkL hL msgL)))
    (Forall K ch).
Proof.
  intros Hv. destruct ch as [|e rest]; simpl.
  - intros s a _ _. constructor.
  - eapply certifies_weaken;
      [|apply certifies_bind with (K1 := True);
        [apply certifies_true
        | intros _; apply certifies_bind with (K2 := True);
          [apply (certifies_forEach visit msg (e :: rest) K Hv)
          | intros _; apply certifies_true]]].
    tauto.
Qed.

End Certify.

Section Certified.

Variables Ctx S : Type.
Variable ctx : Ctx.
Variable h : Handler Ctx S.

Lemma Forall_known A (known : A -> bool) l :
  Forall (fun v => known v = true) l -> forallb known l = true.
Proof. intros H. apply forallb_forall. now rewrite Forall_forall in H. Qed.

Lemma visitSelectionList_certifies_if ch :
  Forall (fun v => certifies (visitSelection ctx h v)
                     (knownSelection v = true)) ch ->
  certifies (visitSelectionList ctx h ch) (forallb knownSelection ch = true).
Proof.
  intros HF. rewrite visitSelectionList_eq.
  eapply certifies_weaken; [apply Forall_known|].
  apply certifies_list. intros v Hv. rewrite Forall_forall in HF. auto.
Qed.

Lemma visitSelection_certifies v :
  certifies (visitSelection ctx h v) (knownSelection v = true).
Proof.
  induction v as [v IH] using Selection_nested_ind.
  rewrite visitSelection_eq, knownSelection_eq.
  apply certifies_node.
  destruct v as [f|f|f|dyn]; simpl in IH |- *.
  - apply certifies_wrap. rewrite visitSelectionField_eq.
    apply certifies_node.
    eapply certifies_weaken;
      [|apply certifies_bind with (K1 := True);
        [apply certifies_true
        | intros _; apply certifies_wrap, visitSelectionList_certifies_if, IH]].
    tauto.
  - eapply certifies_weaken; [|apply certifies_true]. reflexivity.
  - apply certifies_wrap. rewrite visitInlineFragment_eq.
    apply certifies_node.
    eapply certifies_weaken;
      [|apply certifies_bind with (K1 := True);
        [apply certifies_true
        | intros _; apply certifies_wrap, visitSelectionList_certifies_if, IH]].
    tauto.
  - apply certifies_fail.
Qed.

Lemma visitSelectionList_certifies ch :
  certifies (visitSelectionList ctx h ch) (forallb knownSelection ch = true).
Proof.
  apply visitSelectionList_certifies_if. apply Forall_forall.
  intros v _. apply visitSelection_certifies.
Qed.

Lemma visitDefinition_certifies v :
  certifies (visitDefinition ctx h v) (knownDefinition v = true).
Proof.
  unfold visitDefinition. apply certifies_node.
  destruct v; simpl;
    try (eapply certifies_weaken; [|apply certifies_true]; reflexivity).
  - apply certifies_wrap. unfold visitOperationDefinition.
    apply certifies_node, certifies_wrap, visitSelectionList_certifies.
  - apply certifies_wrap. unfold visitFragmentDefinition.
    apply certifies_node.
    eapply certifies_weaken;
      [|apply certifies_bind with (K1 := True);
        [apply certifies_true
        | intros _; apply certifies_wrap, visitSelectionList_certifies]].
    tauto.
  - apply certifies_fail.
Qed.

Lemma visitDefinitionList_certifies ch :
  certifies (visitDefinitionList ctx h ch) (forallb knownDefinition ch = true).
Proof.
  unfold visitDefinitionList.
  eapply certifies_weaken; [apply Forall_known|].
  apply certifies_list. intros v _. apply visitDefinition_certifies.
Qed.

Lemma Visit_certifies v : certifies (Visit ctx h v) (knownRoot v = true).
Proof.
  destruct v as [d|sch|dyn]; simpl.
  - unfold visitDocument.
    apply certifies_node, certifies_wrap, visitDefinitionList_certifies.
  - unfold visitSchema. apply certifies_node, certifies_wrap.
    eapply certifies_weaken; [|apply visitDefinitionList_certifies].
    unfold schemaComponents, queryDefinition.
    rewrite forallb_app. intros Hk. apply andb_true_iff in Hk as [_ Hk].
    destruct (schema_Query sch); [reflexivity | discriminate].
  - apply certifies_fail.
Qed.

(** A walk that runs to its end with no callback asking to prune has
    found every definition and every selection, nested ones included, to
    be of a kind the package knows, and the query of a schema to be set:
    short of pruning, a value of any other kind, or a schema without a
    query, makes [Visit] fail. *)
Theorem completed_walk_shows_known_kinds (root : Root) (s : S) :
  completes (Visit ctx h root s) -> knownRoot root = true.
Proof.
  intros [Ho Hq]. exact (@Visit_certifies root s tt Ho Hq).
Qed.

End Certified.

(* ---------------------------------------------------------------- *)
(** ** The walk without callbacks *)

Section Inert.

Variables Ctx S : Type.
Variable ctx : Ctx.

Lemma inert_ret A (a : A) : inert (@ret S A a).
Proof. intros s. split; reflexivity. Qed.

Lemma inert_fail A err : inert (@fail S A err).
Proof. intros s. split; reflexivity. Qed.

Lemma inert_bind A B (m : Walk S A) (f : A -> Walk S B) :
  inert m -> (forall a, inert (f a)) -> inert (bind m f).
Proof.
  intros Hm Hf s. unfold bind. destruct (Hm s) as [Hs He].
  destruct (m s) as [[s1 evs1] [a|e]]; readout; subst; auto.
  destruct (Hf a s) as [Hs' He']. destruct (f a s) as [[s2 evs2] r].
  readout. subst. auto.
Qed.

Lemma inert_wrap (m : Walk S unit) msg : inert m -> inert (wrap m msg).
Proof.
  intros Hm s. unfold wrap. destruct (Hm s) as [Hs He].
  destruct (m s) as [[s1 evs1] [a|e]]; readout; auto.
Qed.

Lemma inert_unless prune (m : Walk S unit) :
  inert m -> inert (unless prune m).
Proof. destruct prune; simpl; auto using inert_ret. Qed.

Lemma inert_forEach_Forall A (visit : A -> Walk S unit) msg ch :
  Forall (fun a => inert (visit a)) ch -> inert (forEach visit msg ch).
Proof.
  induction 1; simpl.
  - apply inert_ret.
  - apply inert_bind; auto using inert_wrap.
Qed.

Lemma inert_forEach A (visit : A -> Walk S unit) msg ch :
  (forall a, inert (visit a)) -> inert (forEach visit msg ch).
Proof.
  intros Hv. apply inert_forEach_Forall. apply Forall_forall. auto.
Qed.

End Inert.

Create HintDb inerts.

Ltac idle :=
  repeat first
    [ apply inert_ret
    | apply inert_fail
    | solve [auto with inerts]
    | apply inert_wrap
    | apply inert_unless
    | apply inert_bind; [|intros ?]
    | apply inert_forEach_Forall; [assumption]
    | apply inert_forEach; intros ? ].

Section ZeroHandler.

Variables Ctx S : Type.
Variable ctx : Ctx.

Lemma visitSelection_inert v :
  inert (visitSelection ctx (emptyHandler Ctx S) v).
Proof.
  induction v as [v IH] using Selection_nested_ind.
  rewrite visitSelection_eq. idle.
  destruct v as [f|f|f|dyn]; simpl in IH; idle.
  - rewrite visitSelectionField_eq. idle.
  - rewrite visitInlineFragment_eq. idle.
Qed.

Hint Resolve visitSelection_inert : inerts.

Lemma visitDefinition_inert v :
  inert (visitDefinition ctx (emptyHandler Ctx S) v).
Proof. unfold visitDefinition. idle. destruct v; idle. Qed.

Hint Resolve visitDefinition_inert : inerts.

Lemma Visit_inert v : inert (Visit ctx (emptyHandler Ctx S) v).
Proof.
  destruct v; simpl.
  - unfold visitDocument. idle.
  - unfold visitSchema. idle.
  - idle.
Qed.

(** With the zero [Handler] a walk invokes nothing and leaves the
    callbacks' state alone, and it returns nil exactly when every
    definition and selection is of a known kind (and, for a schema, the
    query is set): [Visit] with no callbacks is a check of the kinds. *)
Theorem zero_handler_checks_kinds (root : Root) (s : S) :
  final (Visit ctx (emptyHandler Ctx S) root s) = s /\
  emitted (Visit ctx (emptyHandler Ctx S) root s) = [] /\
  (returned (outcome (Visit ctx (emptyHandler Ctx S) root s)) = None <->
   knownRoot root = true).
Proof.
  destruct (Visit_inert root s) as [Hs He].
  repeat split; auto.
  - intros Ho.
    apply (@Visit_certifies _ _ ctx (emptyHandler Ctx S) root s tt).
    + destruct (outcome (Visit ctx (emptyHandler Ctx S) root s)) as [[]|err];
        simpl in Ho; congruence.
    + unfold quiet. rewrite He. constructor.
  - intros Hk.
    destruct (outcome (Visit ctx (emptyHandler Ctx S) root s))
      as [u|err] eqn:Ho; [reflexivity|].
    destruct (@Visit_accounts _ _ ctx (emptyHandler Ctx S) (fun _ => False)
                root (or_introl Hk) s err Ho)
      as [(pre & ev & e & Hev & _) | []].
    rewrite He in Hev. now destruct pre.
Qed.

End ZeroHandler.

(* ---------------------------------------------------------------- *)
(** ** Entering and leaving callbacks come in pairs *)

Lemma timesCalled_app hk evs1 evs2 :
  timesCalled hk (evs1 ++ evs2) =
  (timesCalled hk evs1 + timesCalled hk evs2)%nat.
Proof. unfold timesCalled. now rewrite nodesOf_app, length_app. Qed.

Lemma isSome_onList Ctx S (hf : option (listCallback Ctx S)) :
  isSome (onList hf) = isSome hf.
Proof. now destruct hf. Qed.

Section Tally.

Variables Ctx S : Type.
Variable ctx : Ctx.
Variables hkE hkL : Hook.

Lemma tally_eq A (m : Walk S A) d d' :
  tally hkE hkL m d -> d = d' -> tally hkE hkL m d'.
Proof. intros H <-. exact H. Qed.

Lemma tally_ret A (a : A) : tally hkE hkL (@ret S A a) 0.
Proof. intros s b _. reflexivity. Qed.

Lemma tally_fail A err d : tally hkE hkL (@fail S A err) d.
Proof. intros s b Ho. readout. discriminate. Qed.

Lemma tally_bind A B (m : Walk S A) (f : A -> Walk S B) d1 d2 :
  tally hkE hkL m d1 -> (forall a, tally hkE hkL (f a) d2) ->
  tally hkE hkL (bind m f) (d1 + d2).
Proof.
  intros Hm Hf s b. specialize (Hm s). unfold bind.
  destruct (m s) as [[s1 evs1] [a|e]]; readout; [|discriminate].
  specialize (Hf a s1). destruct (f a s1) as [[s2 evs2] r]. readout.
  intros Ho. specialize (Hm a eq_refl). specialize (Hf b Ho).
  rewrite !timesCalled_app. lia.
Qed.

Lemma tally_wrap (m : Walk S unit) msg d :
  tally hkE hkL m d -> tally hkE hkL (wrap m msg) d.
Proof.
  intros Hm s a. specialize (Hm s). unfold wrap.
  destruct (m s) as [[s1 evs1] [u|e]]; readout; [apply Hm | discriminate].
Qed.

Lemma tally_unless prune (m : Walk S unit) :
  tally hkE hkL m 0 -> tally hkE hkL (unless prune m) 0.
Proof. destruct prune; simpl; auto using tally_ret. Qed.

Lemma tally_forEach_Forall A (visit : A -> Walk S unit) msg ch :
  Forall (fun a => tally hkE hkL (visit a) 0) ch ->
  tally hkE hkL (forEach visit msg ch) 0.
Proof.
  induction 1; simpl.
  - apply tally_ret.
  - eapply tally_eq; [apply tally_bind with (d1 := 0%Z) (d2 := 0%Z)|];
      auto using tally_wrap.
Qed.

Lemma tally_forEach A (visit : A -> Walk S unit) msg ch :
  (forall a, tally hkE hkL (visit a) 0) ->
  tally hkE hkL (forEach visit msg ch) 0.
Proof.
  intros Hv. apply tally_forEach_Forall. apply Forall_forall. auto.
Qed.

Lemma tally_event hk n r :
  (Z.of_nat (timesCalled hkE [mkEvent hk n r]) -
   Z.of_nat (timesCalled hkL [mkEvent hk n r]) = weight hkE hkL hk)%Z.
Proof.
  unfold timesCalled, nodesOf, weight. simpl.
  destruct (Hook_eqb hk hkE), (Hook_eqb hk hkL); reflexivity.
Qed.

Lemma tally_call A hk node (hf : option (callback Ctx S A)) v msg :
  tally hkE hkL (call ctx hk node hf v msg)
    (weight hkE hkL hk * b2z (isSome hf)).
Proof.
  intros s a. unfold call. destruct hf as [hfunc|]; simpl.
  - unfold bind, invoke. destruct (hfunc ctx v s) as [s1 [e|]]; readout;
      [discriminate|].
    intros _. rewrite tally_event. lia.
  - intros _. readout. lia.
Qed.

Lemma tally_enterPrunable A hk node (hf : option (callback Ctx S A)) v msg :
  tally hkE hkL (enterPrunable ctx hk node hf v msg)
    (weight hkE hkL hk * b2z (isSome hf)).
Proof.
  intros s a. unfold enterPrunable. destruct hf as [hfunc|]; simpl.
  - unfold bind, invoke. destruct (hfunc ctx v s) as [s1 [e|]]; readout.
    + destruct (isPruneError e); readout; [|discriminate].
      intros _. rewrite tally_event. lia.
    + intros _. rewrite tally_event. lia.
  - intros _. readout. lia.
Qed.

End Tally.

Lemma pair_cancels Ctx S (h : Handler Ctx S) hkE hkL hk hk' :
  partner hkE = Some hkL ->
  isRegistered h hkE = isRegistered h hkL ->
  partner hk = Some hk' ->
  (weight hkE hkL hk * b2z (isRegistered h hk) +
   weight hkE hkL hk' * b2z (isRegistered h hk') = 0)%Z.
Proof.
  intros paired alike Hp.
  destruct hk; simpl in Hp; try discriminate; injection Hp as <-;
    destruct hkE; simpl in paired; try discriminate;
    injection paired as <-;
    unfold weight; simpl in *; try rewrite alike;
    repeat match goal with
           | |- context [isSome ?o] => destruct (isSome o)
           end;
    reflexivity.
Qed.

Lemma input_list_weightless hkE hkL :
  partner hkE = Some hkL ->
  weight hkE hkL H_EnterInputFieldDefinitionList = 0%Z.
Proof.
  intros paired.
  destruct hkE; simpl in paired; try discriminate;
    injection paired as <-; reflexivity.
Qed.

Section Balance.

Variables Ctx S : Type.
Variable ctx : Ctx.
Variable h : Handler Ctx S.
Variables hkE hkL : Hook.
Hypothesis paired : partner hkE = Some hkL.
Hypothesis alike : isRegistered h hkE = isRegistered h hkL.

(** A node that honours pruning. *)
Lemma node_tally A hk hk' node (hE hL : option (callback Ctx S A)) v
    msgE msgL (body : Walk S unit) :
  partner hk = Some hk' ->
  isSome hE = isRegistered h hk -> isSome hL = isRegistered h hk' ->
  tally hkE hkL body 0 ->
  tally hkE hkL
    (bind (enterPrunable ctx hk node hE v msgE)
       (fun prune =>
          bind (unless prune body) (fun _ => call ctx hk' node hL v msgL)))
    0.
Proof.
  intros Hp HE HL Hb. eapply tally_eq.
  - apply tally_bind; [apply tally_enterPrunable | intros prune].
    apply tally_bind; [apply tally_unless, Hb | intros _; apply tally_call].
  - rewrite HE, HL. pose proof (@pair_cancels _ _ h _ _ _ _ paired alike Hp). lia.
Qed.

(** A node without descent. *)
Lemma leaf_tally A hk hk' node (hE hL : option (callback Ctx S A)) v
    msgE msgL :
  partner hk = Some hk' ->
  isSome hE = isRegistered h hk -> isSome hL = isRegistered h hk' ->
  tally hkE hkL
    (bind (call ctx hk node hE v msgE)
       (fun _ => call ctx hk' node hL v msgL))
    0.
Proof.
  intros Hp HE HL. eapply tally_eq.
  - apply tally_bind; [apply tally_call | intros _; apply tally_call].
  - rewrite HE, HL. pose proof (@pair_cancels _ _ h _ _ _ _ paired alike Hp). lia.
Qed.

(** A list with callbacks of its own, empty or not. *)
Lemma list_tally A (visit : A -> Walk S unit) hk hk'
    (hE hL : option (listCallback Ctx S)) msgE msg msgL ch :
  partner hk = Some hk' ->
  isSome hE = isRegistered h hk -> isSome hL = isRegistered h hk' ->
  Forall (fun a => tally hkE hkL (visit a) 0) ch ->
  tally hkE hkL
    (if (List.length ch =? 0)%nat then ret tt else
     bind (callList ctx hk hE msgE)
       (fun _ => bind (forEach visit msg ch)
                   (fun _ => callList ctx hk' hL msgL)))
    0.
Proof.
  intros Hp HE HL Hv. destruct (_ =? _)%nat; [apply tally_ret|].
  eapply tally_eq.
  - apply tally_bind; [apply tally_call | intros _].
    apply tally_bind;
      [apply tally_forEach_Forall, Hv | intros _; apply tally_call].
  - rewrite !isSome_onList, HE, HL.
    pose proof (@pair_cancels _ _ h _ _ _ _ paired alike Hp). lia.
Qed.

Ltac pairing :=
  first
    [ apply node_tally; [reflexivity | reflexivity | reflexivity |]
    | apply leaf_tally; reflexivity
    | apply list_tally; [reflexivity | reflexivity | reflexivity |]
    | apply tally_wrap
    | apply tally_fail ].

Lemma visitDirectiveList_tally ch :
  tally hkE hkL (visitDirectiveList ctx h ch) 0.
Proof.
  unfold visitDirectiveList. pairing.
  apply Forall_forall. intros v _. unfold visitDirective. pairing.
Qed.

Lemma visitSelectionList_tally_if ch :
  Forall (fun v => tally hkE hkL (visitSelection ctx h v) 0) ch ->
  tally hkE hkL (visitSelectionList ctx h ch) 0.
Proof. intros HF. rewrite visitSelectionList_eq. now pairing. Qed.

Lemma descent_tally dirs sels :
  Forall (fun v => tally hkE hkL (visitSelection ctx h v) 0) sels ->
  tally hkE hkL
    (bind (wrap (visitDirectiveList ctx h dirs) "failed to visit directive list")
       (fun _ => wrap (visitSelectionList ctx h sels)
                   "failed to visit selection list"))
    0.
Proof.
  intros HF. eapply tally_eq; [apply tally_bind with (d1 := 0%Z) (d2 := 0%Z)|];
    [apply tally_wrap, visitDirectiveList_tally
    | intros _; apply tally_wrap, visitSelectionList_tally_if, HF
    | reflexivity].
Qed.

Lemma visitSelection_tally v : tally hkE hkL (visitSelection ctx h v) 0.
Proof.
  induction v as [v IH] using Selection_nested_ind.
  rewrite visitSelection_eq. pairing.
  destruct v as [f|f|f|dyn]; simpl in IH; pairing.
  - rewrite visitSelectionField_eq. pairing. now apply descent_tally.
  - unfold visitFragmentSpread. pairing.
  - rewrite visitInlineFragment_eq. pairing. now apply descent_tally.
Qed.

Lemma visitSelections_tally ch :
  Forall (fun v => tally hkE hkL (visitSelection ctx h v) 0) ch.
Proof. apply Forall_forall. intros v _. apply visitSelection_tally. Qed.

Lemma visitInputFieldDefinitionList_tally ch :
  tally hkE hkL (visitInputFieldDefinitionList ctx h ch) 0.
Proof.
  unfold visitInputFieldDefinitionList, enterPrunableList, callList.
  eapply tally_eq.
  - apply tally_bind; [apply tally_enterPrunable | intros prune].
    apply tally_bind; [apply tally_unless | intros _; apply tally_call].
    apply tally_forEach. intros v. unfold visitInputFieldDefinition. pairing.
  - rewrite (@input_list_weightless _ _ paired). lia.
Qed.

Lemma visitDefinition_tally v : tally hkE hkL (visitDefinition ctx h v) 0.
Proof.
  unfold visitDefinition. pairing. destruct v; pairing.
  - unfold visitOperationDefinition. pairing. pairing.
    apply visitSelectionList_tally_if, visitSelections_tally.
  - unfold visitFragmentDefinition. pairing.
    apply descent_tally, visitSelections_tally.
  - unfold visitObjectDefinition. pairing. pairing.
    unfold visitObjectFieldDefinitionList. pairing.
    apply Forall_forall. intros f _. unfold visitObjectFieldDefinition.
    pairing.
  - unfold visitInterfaceDefinition. pairing.
    apply tally_forEach. intros f. unfold visitInterfaceFieldDefinition.
    pairing.
  - unfold visitEnumDefinition. pairing.
  - unfold visitUnionDefinition. pairing.
  - unfold visitInputDefinition. pairing. pairing.
    apply visitInputFieldDefinitionList_tally.
Qed.

Lemma visitDefinitionList_tally ch :
  tally hkE hkL (visitDefinitionList ctx h ch) 0.
Proof.
  unfold visitDefinitionList. pairing.
  apply Forall_forall. intros v _. apply visitDefinition_tally.
Qed.

Lemma Visit_tally v : tally hkE hkL (Visit ctx h v) 0.
Proof.
  destruct v; simpl.
  - unfold visitDocument. pairing. pairing. apply visitDefinitionList_tally.
  - unfold visitSchema. pairing. pairing. apply visitDefinitionList_tally.
  - pairing.
Qed.

End Balance.

Section Balanced.

Variables Ctx S : Type.
Variable ctx : Ctx.
Variable h : Handler Ctx S.

(** In a walk that returns nil, pruned or not, the leaving callback of a
    kind of node, or of a definition, selection, directive or object
    field list, is invoked exactly as often as its entering callback,
    when both are registered (or neither). *)
Theorem enter_and_leave_balanced (root : Root) (s : S) (hkE hkL : Hook) :
  partner hkE = Some hkL ->
  isRegistered h hkE = isRegistered h hkL ->
  returned (outcome (Visit ctx h root s)) = None ->
  timesCalled hkE (emitted (Visit ctx h root s)) =
  timesCalled hkL (emitted (Visit ctx h root s)).
Proof.
  intros Hp Hr Ho.
  pose proof (@Visit_tally _ _ ctx h hkE hkL Hp Hr root s tt) as H.
  destruct (outcome (Visit ctx h root s)) as [[]|err]; simpl in Ho;
    [|discriminate].
  specialize (H eq_refl). lia.
Qed.

End Balanced.

(* ---------------------------------------------------------------- *)
(** ** The elements entered, whether or not the walk goes on *)

Lemma flat_map_registered A B C (h : option A) (node : B -> C) ch :
  flat_map (fun v => ifRegistered h [node v]) ch =
  ifRegistered h (map node ch).
Proof. destruct h; simpl; induction ch; simpl; congruence. Qed.

Section Prefix.

Variables Ctx S : Type.
Variable ctx : Ctx.
Variable hk : Hook.

Lemma emitted_bind A B (m : Walk S A) (f : A -> Walk S B) s :
  emitted (bind m f s) =
  emitted (m s) ++
  match outcome (m s) with
  | Ok a => emitted (f a (final (m s)))
  | Failed _ => []
  end.
Proof.
  unfold bind. destruct (m s) as [[s1 evs1] [a|e]]; readout.
  - destruct (f a s1) as [[s2 evs2] r]. reflexivity.
  - now rewrite app_nil_r.
Qed.

Lemma outcome_bind A B (m : Walk S A) (f : A -> Walk S B) s b :
  outcome (bind m f s) = Ok b ->
  exists a, outcome (m s) = Ok a /\ outcome (f a (final (m s))) = Ok b.
Proof.
  unfold bind. destruct (m s) as [[s1 evs1] [a|e]]; readout; [|discriminate].
  destruct (f a s1) as [[s2 evs2] r] eqn:E. readout.
  intros ->. exists a. now rewrite E.
Qed.

(** What follows the first callback adds nothing for [hk]. *)
Lemma nodesOf_bind_head A B (m : Walk S A) (f : A -> Walk S B)
    (P : Hook -> Prop) s :
  (forall a, within P (f a)) -> ~ P hk ->
  nodesOf hk (emitted (bind m f s)) = nodesOf hk (emitted (m s)).
Proof.
  intros Hf Hn. rewrite emitted_bind, nodesOf_app.
  destruct (outcome (m s)) as [a|e]; simpl; [|now rewrite app_nil_r].
  rewrite (@nodesOf_absent hk P (emitted (f a (final (m s)))));
    [now rewrite app_nil_r | apply Hf | exact Hn].
Qed.

Lemma nodesOf_self n r : nodesOf hk [mkEvent hk n r] = [n].
Proof.
  unfold nodesOf, Hook_eqb. simpl.
  destruct (Hook_eq_dec hk hk); [reflexivity | congruence].
Qed.

Lemma nodesOf_call A node (hf : option (callback Ctx S A)) v msg s :
  nodesOf hk (emitted (call ctx hk node hf v msg s)) =
  ifRegistered hf [node v].
Proof.
  unfold call. destruct hf as [hfunc|]; [|reflexivity].
  unfold bind, invoke. destruct (hfunc ctx v s) as [s1 [e|]]; readout;
    apply nodesOf_self.
Qed.

Lemma nodesOf_enterPrunable A node (hf : option (callback Ctx S A)) v msg s :
  nodesOf hk (emitted (enterPrunable ctx hk node hf v msg s)) =
  ifRegistered hf [node v].
Proof.
  unfold enterPrunable. destruct hf as [hfunc|]; [|reflexivity].
  unfold bind, invoke. destruct (hfunc ctx v s) as [s1 [e|]]; readout.
  - destruct (isPruneError e); readout; apply nodesOf_self.
  - apply nodesOf_self.
Qed.

Lemma forEach_prefix A (visit : A -> Walk S unit) msg ch (F : A -> list Node) :
  (forall v s, nodesOf hk (emitted (visit v s)) = F v) ->
  forall s, exists n,
    nodesOf hk (emitted (forEach visit msg ch s)) = flat_map F (firstn n ch) /\
    (outcome (forEach visit msg ch s) = Ok tt -> n = List.length ch).
Proof.
  intros Hv. induction ch as [|e rest IH]; intros s; simpl.
  - exists 0%nat. split; reflexivity.
  - rewrite emitted_bind, nodesOf_app.
    assert (He : nodesOf hk (emitted (wrap (visit e) msg s)) = F e).
    { rewrite <- (Hv e s). unfold wrap.
      destruct (visit e s) as [[s1 evs1] [u|err]]; reflexivity. }
    rewrite He.
    destruct (outcome (wrap (visit e) msg s)) as [u|err] eqn:Ho.
    + destruct (IH (final (wrap (visit e) msg s))) as [n [Hn Hall]].
      exists (Datatypes.S n). simpl. rewrite Hn. split; [reflexivity|].
      intros Hok. apply outcome_bind in Hok as [u' [_ Hok]]. auto.
    + exists 1%nat. simpl. split; [reflexivity|].
      intros Hok. apply outcome_bind in Hok as [u' [Hok _]]. congruence.
Qed.

(** A list with callbacks of its own, other than [hk]. *)
Lemma guarded_list_prefix A (visit : A -> Walk S unit) hkE hkL
    (hE hL : option (listCallback Ctx S)) msgE msg msgL ch
    (F : A -> list Node) :
  hkE <> hk -> hkL <> hk ->
  (forall v s, nodesOf hk (emitted (visit v s)) = F v) ->
  forall s, exists n,
    nodesOf hk
      (emitted
         ((if (List.length ch =? 0)%nat then ret tt else
           bind (callList ctx hkE hE msgE)
             (fun _ => bind (forEach visit msg ch)
                         (fun _ => callList ctx hkL hL msgL))) s)) =
    flat_map F (firstn n ch) /\
    (outcome
       ((if (List.length ch =? 0)%nat then ret tt else
         bind (callList ctx hkE hE msgE)
           (fun _ => bind (forEach visit msg ch)
                       (fun _ => callList ctx hkL hL msgL))) s) = Ok tt ->
     n = List.length ch).
Proof.
  intros HE HL Hv s. destruct (List.length ch =? 0)%nat eqn:Hlen.
  - exists 0%nat. split; [reflexivity|].
    intros _. destruct ch; [reflexivity | discriminate].
  - assert (Hsilent : forall hk' (h' : option (listCallback Ctx S)) m s',
              hk' <> hk ->
              nodesOf hk (emitted (callList ctx hk' h' m s')) = []).
    { intros hk' h' m s' Hne.
      apply (@nodesOf_absent hk (fun x => x = hk'));
        [apply (@within_callList Ctx S ctx (fun x => x = hk') hk' h' m
                  eq_refl s')
        | congruence]. }
    rewrite emitted_bind, nodesOf_app, Hsilent by exact HE.
    rewrite app_nil_l.
    destruct (outcome (callList ctx hkE hE msgE s)) as [u|err] eqn:Ho1.
    + rewrite emitted_bind, nodesOf_app.
      destruct (forEach_prefix visit msg ch F Hv
                  (final (callList ctx hkE hE msgE s))) as [n [Hn Hall]].
      exists n. rewrite Hn. split.
      * destruct (outcome (forEach visit msg ch _));
          [rewrite Hsilent by exact HL|]; now rewrite app_nil_r.
      * intros Hok. apply outcome_bind in Hok as [u1 [_ Hok]].
        apply outcome_bind in Hok as [u2 [Hok _]].
        destruct u2. auto.
    + exists 0%nat. split; [reflexivity|].
      intros Hok. apply outcome_bind in Hok as [u1 [Hok _]]. congruence.
Qed.

End Prefix.

Section Prefixes.

Variables Ctx S : Type.
Variable ctx : Ctx.
Variable h : Handler Ctx S.

Lemma visitDefinition_first v s :
  nodesOf H_EnterDefinition (emitted (visitDefinition ctx h v s)) =
  ifRegistered (EnterDefinition h) [NDefinition v].
Proof.
  unfold visitDefinition.
  rewrite (@nodesOf_bind_head _ _ _ _ _ _ (among (H_LeaveDefinition :: definitionBodyHooks))).
  - apply nodesOf_enterPrunable.
  - intros prune.
    apply within_bind; [apply within_unless | intros _; reach].
    widen (definition_body_within ctx h v).
  - now apply not_among.
Qed.

Lemma visitDirective_first v s :
  nodesOf H_EnterDirective (emitted (visitDirective ctx h v s)) =
  ifRegistered (EnterDirective h) [NDirective v].
Proof.
  unfold visitDirective.
  rewrite (@nodesOf_bind_head _ _ _ _ _ _ (among [H_LeaveDirective])).
  - apply nodesOf_call.
  - intros _. reach.
  - now apply not_among.
Qed.

Lemma visitObjectFieldDefinition_first v s :
  nodesOf H_EnterObjectFieldDefinition
    (emitted (visitObjectFieldDefinition ctx h v s)) =
  ifRegistered (EnterObjectFieldDefinition h) [NObjectFieldDefinition v].
Proof.
  unfold visitObjectFieldDefinition.
  rewrite (@nodesOf_bind_head _ _ _ _ _ _ (among [H_LeaveObjectFieldDefinition])).
  - apply nodesOf_call.
  - intros _. reach.
  - now apply not_among.
Qed.

(** Whether a walk of a definition list, a directive list or an object
    field list runs to its end, fails or is pruned below, the entering
    callback of the elements, where registered, is handed a prefix of the
    list, in insertion order and with no element skipped; and the whole
    list when the walk of the list returns nil. *)
Theorem elements_entered_as_a_prefix :
  (forall (ch : list Definition_) (s : S), exists n,
     nodesOf H_EnterDefinition (emitted (visitDefinitionList ctx h ch s)) =
       ifRegistered (EnterDefinition h) (map NDefinition (firstn n ch)) /\
     (returned (outcome (visitDefinitionList ctx h ch s)) = None ->
      n = List.length ch)) /\
  (forall (ch : list Directive) (s : S), exists n,
     nodesOf H_EnterDirective (emitted (visitDirectiveList ctx h ch s)) =
       ifRegistered (EnterDirective h) (map NDirective (firstn n ch)) /\
     (returned (outcome (visitDirectiveList ctx h ch s)) = None ->
      n = List.length ch)) /\
  (forall (ch : list ObjectFieldDefinition) (s : S), exists n,
     nodesOf H_EnterObjectFieldDefinition
       (emitted (visitObjectFieldDefinitionList ctx h ch s)) =
       ifRegistered (EnterObjectFieldDefinition h)
         (map NObjectFieldDefinition (firstn n ch)) /\
     (returned (outcome (visitObjectFieldDefinitionList ctx h ch s)) = None ->
      n = List.length ch)).
Proof.
  assert (Hret : forall (x : S * list Event * result unit),
            returned (outcome x) = None -> outcome x = Ok tt).
  { intros x. destruct (outcome x) as [[]|err]; simpl; congruence. }
  split; [|split]; intros ch s.
  - destruct (@guarded_list_prefix _ _ ctx H_EnterDefinition _
                (visitDefinition ctx h)
                H_EnterDefinitionList H_LeaveDefinitionList
                (EnterDefinitionList h) (LeaveDefinitionList h)
                "failed to handle definition list (enter)"
                "failed to visit document definition"
                "failed to handle definition list (leave)" ch
                (fun v => ifRegistered (EnterDefinition h) [NDefinition v]))
      with (s := s) as [n [Hn Hall]];
      [discriminate | discriminate | apply visitDefinition_first |].
    exists n. rewrite flat_map_registered in Hn. split; [exact Hn | auto].
  - destruct (@guarded_list_prefix _ _ ctx H_EnterDirective _
                (visitDirective ctx h)
                H_EnterDirectiveList H_LeaveDirectiveList
                (EnterDirectiveList h) (LeaveDirectiveList h)
                "failed to visit directive list (enter)"
                "failed to visit directive"
                "failed to visit directive list (leave)" ch
                (fun v => ifRegistered (EnterDirective h) [NDirective v]))
      with (s := s) as [n [Hn Hall]];
      [discriminate | discriminate | apply visitDirective_first |].
    exists n. rewrite flat_map_registered in Hn. split; [exact Hn | auto].
  - destruct (@guarded_list_prefix _ _ ctx H_EnterObjectFieldDefinition _
                (visitObjectFieldDefinition ctx h)
                H_EnterObjectFieldDefinitionList
                H_LeaveObjectFieldDefinitionList
                (EnterObjectFieldDefinitionList h)
                (LeaveObjectFieldDefinitionList h)
                "failed to visit object field definition list (enter)"
                "failed to visit object field definition"
                "failed to visit object field definition list (leave)" ch
                (fun v => ifRegistered (EnterObjectFieldDefinition h)
                            [NObjectFieldDefinition v]))
      with (s := s) as [n [Hn Hall]];
      [discriminate | discriminate | apply visitObjectFieldDefinition_first |].
    exists n. rewrite flat_map_registered in Hn. split; [exact Hn | auto].
Qed.

End Prefixes.

(* ---------------------------------------------------------------- *)
(** ** What the visitors of the type system and of leaves reach *)

Section Descent.

Variables Ctx S : Type.
Variable ctx : Ctx.
Variable h : Handler Ctx S.

Lemma reached S' A (m : Walk S' A) l s :
  within (among l) m ->
  Forall (fun ev => In (ev_hook ev) l) (emitted (m s)).
Proof.
  intros Hm. eapply Forall_impl; [|apply Hm]. intros ev. apply among_In.
Qed.

(** Each of these visitors invokes its own two callbacks and those of
    the fields it walks, and no other: the arguments of a directive, the
    directives of a fragment spread, the elements of an enum and the
    member types of a union are not walked; the fields of an interface
    have no list callback; the fields of an input definition have
    [EnterInputFieldDefinitionList] only. *)
Theorem visitors_reach_their_own_callbacks_only (s : S) :
  (forall v, Forall (fun ev => In (ev_hook ev) directiveOwnHooks)
               (emitted (visitDirective ctx h v s))) /\
  (forall v, Forall (fun ev => In (ev_hook ev) fragmentSpreadHooks)
               (emitted (visitFragmentSpread ctx h v s))) /\
  (forall v, Forall (fun ev => In (ev_hook ev) enumHooks)
               (emitted (visitEnumDefinition ctx h v s))) /\
  (forall v, Forall (fun ev => In (ev_hook ev) unionHooks)
               (emitted (visitUnionDefinition ctx h v s))) /\
  (forall v, Forall (fun ev => In (ev_hook ev) interfaceHooks)
               (emitted (visitInterfaceDefinition ctx h v s))) /\
  (forall v, Forall (fun ev => In (ev_hook ev) objectHooks)
               (emitted (visitObjectDefinition ctx h v s))) /\
  (forall v, Forall (fun ev => In (ev_hook ev) inputHooks)
               (emitted (visitInputDefinition ctx h v s))).
Proof.
  repeat split; intros v; apply reached.
  - unfold visitDirective. reach.
  - unfold visitFragmentSpread. reach.
  - unfold visitEnumDefinition. reach.
  - unfold visitUnionDefinition. reach.
  - unfold visitInterfaceDefinition. reach.
  - apply visitObjectDefinition_within.
  - unfold visitInputDefinition. reach.
Qed.

(** An operation definition without selections: the visit invokes its
    own two callbacks and nothing else, whatever directives and variable
    definitions the operation carries. *)
Theorem operation_without_selections_is_a_leaf
    (v : OperationDefinition) (s : S) :
  op_Selections v = [] ->
  Forall (fun ev => In (ev_hook ev) operationOwnHooks)
    (emitted (visitOperationDefinition ctx h v s)).
Proof.
  intros Hsel. apply reached. unfold visitOperationDefinition.
  rewrite Hsel, visitSelectionList_eq. simpl. reach.
Qed.

End Descent.

(* ---------------------------------------------------------------- *)
(** ** In which order the selections are left *)

Lemma postorder_eq v : postorder v = flat_map postorder (nested v) ++ [v].
Proof. destruct v as [[]| |[]|]; reflexivity. Qed.

Section Left.

Variables Ctx S : Type.
Variable ctx : Ctx.
Variable h : Handler Ctx S.

Lemma visitSelectionList_leaves_if ch :
  Forall (fun v =>
            enters H_LeaveSelection (visitSelection ctx h v) (@any unit)
              (ifRegistered (LeaveSelection h) (map NSelection (postorder v))))
    ch ->
  enters H_LeaveSelection (visitSelectionList ctx h ch) (@any unit)
    (ifRegistered (LeaveSelection h)
       (map NSelection (flat_map postorder ch))).
Proof.
  intros HF. rewrite visitSelectionList_eq.
  destruct (_ =? _)%nat eqn:E.
  - destruct ch; [|discriminate]. eapply enters_eq.
    + eapply enters_any, enters_ret.
    + now destruct (LeaveSelection h).
  - eapply enters_eq.
    + apply list_enters. intros v Hv. rewrite Forall_forall in HF.
      apply (HF v Hv).
    + simpl. rewrite app_nil_r, ifRegistered_flat_map. f_equal.
      apply flat_map_map.
Qed.

Lemma visitSelection_leaves v :
  enters H_LeaveSelection (visitSelection ctx h v) (@any unit)
    (ifRegistered (LeaveSelection h) (map NSelection (postorder v))).
Proof.
  induction v as [v IH] using Selection_nested_ind.
  rewrite visitSelection_eq, postorder_eq.
  eapply enters_eq.
  - apply node_enters with
      (xs := ifRegistered (LeaveSelection h)
               (map NSelection (flat_map postorder (nested v)))).
    destruct v as [f|f|f|dyn]; simpl in IH |- *.
    + apply enters_wrap. rewrite visitSelectionField_eq.
      eapply enters_eq.
      * apply node_enters. eapply enters_bind.
        -- apply enters_wrap.
           eapply enters_absent; [apply visitDirectiveList_within|].
           now apply not_among.
        -- intros _ _. apply enters_wrap.
           apply visitSelectionList_leaves_if, IH.
      * simpl. now rewrite app_nil_r.
    + apply enters_wrap. eapply enters_eq; [apply leaf_enters|].
      now destruct (LeaveSelection h).
    + apply enters_wrap. rewrite visitInlineFragment_eq.
      eapply enters_eq.
      * apply node_enters. eapply enters_bind.
        -- apply enters_wrap.
           eapply enters_absent; [apply visitDirectiveList_within|].
           now apply not_among.
        -- intros _ _. apply enters_wrap.
           apply visitSelectionList_leaves_if, IH.
      * simpl. now rewrite app_nil_r.
    + apply enters_fail.
  - simpl. rewrite map_app. now destruct (LeaveSelection h).
Qed.

(** In a walk of a selection list that runs to its end with no callback
    asking to prune, [LeaveSelection], where registered, is handed the
    selections in post-order: each selection after all the selections
    nested in it, siblings in insertion order. *)
Theorem selections_left_in_postorder (ch : list Selection) (s : S) :
  completes (visitSelectionList ctx h ch s) ->
  nodesOf H_LeaveSelection (emitted (visitSelectionList ctx h ch s)) =
  ifRegistered (LeaveSelection h) (map NSelection (flat_map postorder ch)).
Proof.
  intros [Ho Hq].
  assert (HF : Forall (fun v =>
            enters H_LeaveSelection (visitSelection ctx h v) (@any unit)
              (ifRegistered (LeaveSelection h)
                 (map NSelection (postorder v)))) ch).
  { apply Forall_forall. intros v _. apply visitSelection_leaves. }
  pose proof (visitSelectionList_leaves_if HF) as H. unfold enters in H.
  now destruct (H s tt Ho Hq).
Qed.

End Left.

(* ---------------------------------------------------------------- *)
(** ** What the root decides *)

Section Roots.

Variables Ctx S : Type.
Variable ctx : Ctx.
Variable h : Handler Ctx S.

Lemma visitDefinition_object_within d :
  within (among schemaHooks) (visitDefinition ctx h (DefObject d)).
Proof.
  unfold visitDefinition.
  apply within_bind; [reach | intros prune].
  apply within_bind; [apply within_unless, within_wrap | intros _; reach].
  widen (visitObjectDefinition_within ctx h d).
Qed.

Lemma visitDefinition_within_document v :
  within (among documentHooks) (visitDefinition ctx h v).
Proof.
  unfold visitDefinition.
  apply within_bind; [reach | intros prune].
  apply within_bind; [apply within_unless | intros _; reach].
  widen (definition_body_within ctx h v).
Qed.

(** A walk of a schema invokes the callbacks of the schema, of the
    definition list, of definitions, of object definitions and of their
    fields, and no other; a walk of a document invokes neither the
    callbacks of the schema nor those of the schema query. *)
Theorem root_decides_what_is_reached (s : S) :
  (forall v, Forall (fun ev => In (ev_hook ev) schemaHooks)
               (emitted (Visit ctx h (RootSchema v) s))) /\
  (forall v, Forall (fun ev => In (ev_hook ev) documentHooks)
               (emitted (Visit ctx h (RootDocument v) s))).
Proof.
  split; intros v; apply reached; simpl.
  - unfold visitSchema.
    apply within_bind; [reach | intros prune].
    apply within_bind; [apply within_unless, within_wrap | intros _; reach].
    unfold visitDefinitionList. apply within_unless.
    apply within_bind; [reach | intros _].
    apply within_bind; [|intros _; reach].
    apply within_forEach_Forall. unfold schemaComponents.
    apply Forall_app. split.
    + apply Forall_forall. intros x Hx.
      apply in_map_iff in Hx as [d [<- _]].
      apply visitDefinition_object_within.
    + constructor; [|constructor]. unfold queryDefinition.
      destruct (schema_Query v) as [q|].
      * apply visitDefinition_object_within.
      * unfold visitDefinition. reach.
  - unfold visitDocument.
    apply within_bind; [reach | intros prune].
    apply within_bind; [apply within_unless, within_wrap | intros _; reach].
    unfold visitDefinitionList. apply within_unless.
    apply within_bind; [reach | intros _].
    apply within_bind; [|intros _; reach].
    apply within_forEach. intros x. apply visitDefinition_within_document.
Qed.

End Roots.

(* ---------------------------------------------------------------- *)
(** ** The further properties on particular walks *)

Lemma final_error_ends_walk_witness :
  let h := probe everyHook (errorAt H_LeaveDirective pruneSignal) in
  let x := Visit tt h (RootDocument queryWithDirective) [] in
  let ev := mkEvent H_LeaveDirective (NDirective directiveSkip)
              (Some pruneSignal) in
  (emitted x = removelast (emitted x) ++ [ev] /\ finalError ev = true) /\
  ([] = @nil Event /\
   exists e err,
     ev_result ev = Some e /\
     returned (outcome x) = Some err /\
     wraps e err /\ Cause err = Cause e).
Proof.
  intros h x ev. split.
  - split; reflexivity.
  - apply (@final_error_ends_walk _ _ tt h (RootDocument queryWithDirective)
             [] (removelast (emitted x)) [] ev); reflexivity.
Defined.

Lemma failure_has_a_cause_witness :
  let root := RootDocument
                {| doc_Definitions := [DefOther "int"]; doc_types := [] |} in
  let x := Visit tt (probe everyHook noError) root [] in
  let err := Wrap (Wrap (ErrorString "unknown definition int")
                     "failed to visit document definition")
               "failed to visit definition list" in
  returned (outcome x) = Some err /\
  (blamed (emitted x) err \/ internalError (Cause err)).
Proof.
  intros root x err. split; [reflexivity|].
  apply (@failure_has_a_cause _ _ tt (probe everyHook noError) root [] err).
  reflexivity.
Defined.

Lemma known_kinds_fail_only_by_callback_witness :
  let h := probe everyHook (errorAt H_LeaveDirective pruneSignal) in
  let x := Visit tt h (RootDocument queryWithDirective) [] in
  knownRoot (RootDocument queryWithDirective) = true /\
  (match returned (outcome x) with
   | Some err => blamed (emitted x) err
   | None => True
   end /\
   (Forall (fun ev => ev_result ev = None) (emitted x) ->
    returned (outcome x) = None)).
Proof.
  intros h x. split; [reflexivity|].
  apply (@known_kinds_fail_only_by_callback _ _ tt h
           (RootDocument queryWithDirective) []).
  reflexivity.
Defined.

Lemma completed_walk_shows_known_kinds_witness :
  let x := Visit tt (probe everyHook noError) (RootDocument queryUserId) [] in
  completes x /\ knownRoot (RootDocument queryUserId) = true.
Proof.
  intros x.
  assert (Hc : completes x).
  { split; [reflexivity | vm_compute; repeat constructor]. }
  split; [exact Hc|].
  exact (@completed_walk_shows_known_kinds _ _ tt (probe everyHook noError)
           (RootDocument queryUserId) [] Hc).
Defined.

Lemma enter_and_leave_balanced_witness :
  let h := probe everyHook (errorAt H_EnterSelectionField pruneSignal) in
  let x := Visit tt h (RootDocument queryWithDirective) [] in
  (partner H_EnterSelection = Some H_LeaveSelection /\
   isRegistered h H_EnterSelection = isRegistered h H_LeaveSelection /\
   returned (outcome x) = None) /\
  timesCalled H_EnterSelection (emitted x) =
  timesCalled H_LeaveSelection (emitted x).
Proof.
  intros h x. split.
  - repeat split; reflexivity.
  - apply (@enter_and_leave_balanced _ _ tt h
             (RootDocument queryWithDirective) []
             H_EnterSelection H_LeaveSelection); reflexivity.
Defined.

Lemma operation_without_selections_is_a_leaf_witness :
  let v := {| op_OperationType := OperationTypeMutation;
              op_HasName := true; op_Name := "reset";
              op_Variables :=
                [mkVariableDefinition "id" typeString None];
              op_Directives := [directiveSkip];
              op_Selections := [] |} in
  op_Selections v = [] /\
  Forall (fun ev => In (ev_hook ev) operationOwnHooks)
    (emitted (visitOperationDefinition tt (probe everyHook noError) v [])).
Proof.
  intros v. split; [reflexivity|].
  apply (@operation_without_selections_is_a_leaf _ _ tt
           (probe everyHook noError) v []).
  reflexivity.
Defined.

Lemma selections_left_in_postorder_witness :
  let h := probe everyHook noError in
  let ch := [SelField fieldUserSkip;
             SelField (mkSelectionField "posts" false "" [] [] [])] in
  completes (visitSelectionList tt h ch []) /\
  nodesOf H_LeaveSelection (emitted (visitSelectionList tt h ch [])) =
  [NSelection selectionId; NSelection (SelField fieldUserSkip);
   NSelection (SelField (mkSelectionField "posts" false "" [] [] []))].
Proof.
  intros h ch.
  assert (Hc : completes (visitSelectionList tt h ch [])).
  { split; [reflexivity | vm_compute; repeat constructor]. }
  split; [exact Hc|].
  exact (@selections_left_in_postorder _ _ tt h ch [] Hc).
Defined.

Lemma guarded_lists_bracketed_once_witness :
  let h := probe everyHook noError in
  let ch := [directiveSkip; directiveSkip] in
  (ch <> [] /\ completes (visitDirectiveList tt h ch [])) /\
  nodesOf H_EnterDirectiveList (emitted (visitDirectiveList tt h ch [])) =
    [NoNode] /\
  nodesOf H_LeaveDirectiveList (emitted (visitDirectiveList tt h ch [])) =
    [NoNode].
Proof.
  intros h ch.
  assert (Hne : ch <> []) by discriminate.
  assert (Hc : completes (visitDirectiveList tt h ch [])).
  { split; [reflexivity | vm_compute; repeat constructor]. }
  split; [split; assumption|].
  exact (proj1 (@guarded_lists_bracketed_once _ _ tt h []) ch Hne Hc).
Defined.

Lemma leaf_visitors_fail_on_any_enter_error_witness :
  let h := probe everyHook (errorAt H_EnterFragmentSpread pruneSignal) in
  let v := mkFragmentSpread "friends" [directiveSkip] in
  exists msg,
    visitFragmentSpread tt h v [] =
    ([("enter", "FragmentSpread", "friends")],
     [mkEvent H_EnterFragmentSpread (NFragmentSpread v) (Some pruneSignal)],
     Failed (Wrap pruneSignal msg)).
Proof.
  intros h v.
  exact (proj1 (leaf_visitors_fail_on_any_enter_error tt h)
           v [] _ _ _ eq_refl eq_refl).
Defined.
